(** * Astro optimizer: detection, safe rewrites, backups and preload markup

    A shallow embedding of the four Python scripts of the optimizer

    - [apply_optimizations.py]: the rewrite rules, [backup_file],
      [optimize_file] and [optimize_project];
    - [analyze.py]: [Finding], the seven analyzers and [analyze_project];
    - [detect_js_patterns.py]: [analyze_file] and [analyze_project];
    - [generate_preloads.py]: the three extractors, [generate_preload_html]
      and [analyze_project];

    followed by the properties the specification states about them (C1 to
    C10) and by further properties of the code (X1 to X26).

    Text is a list of 8-bit characters (code points below 256).  Case folding
    ([str.lower], [re.IGNORECASE]) is the ASCII one, which agrees with Python
    on every comparison against the ASCII needles and patterns used by the
    scripts. *)

From Stdlib Require Import Ascii String.
From stdpp Require Import base option list strings gmap.

(* ===================================================================== *)
(** * Text *)
(* ===================================================================== *)

Abbreviation str := (list ascii).

(** A literal of the source, as a character list. *)
Definition txt (s : string) : str := list_ascii_of_string s.
Arguments txt : simpl never.

(** The double quote character. *)
Definition dq : ascii := ascii_of_nat 34.
(** The single quote character. *)
Definition sq : ascii := ascii_of_nat 39.
(** The line feed. *)
Definition nl : ascii := ascii_of_nat 10.

(** [c.lower()] on one character. *)
Definition lower_char (c : ascii) : ascii :=
  let n := nat_of_ascii c in
  if (65 <=? n) && (n <=? 90) then ascii_of_nat (n + 32) else c.

(** [s.lower()] *)
Definition lower (s : str) : str := map lower_char s.

(** [s.startswith(p)] *)
Fixpoint startswith (p s : str) : bool :=
  match p, s with
  | [], _ => true
  | a :: p', b :: s' => bool_decide (a = b) && startswith p' s'
  | _ :: _, [] => false
  end.

(** [s.endswith(p)] *)
Definition endswith (p s : str) : bool :=
  startswith (reverse p) (reverse s).

(** [needle in hay] *)
Fixpoint contains (needle hay : str) : bool :=
  startswith needle hay ||
  match hay with
  | [] => false
  | _ :: hay' => contains needle hay'
  end.

(** [s[:-n]] for a positive [n] *)
Definition drop_last (n : nat) (s : str) : str := take (length s - n) s.

(** [s.count(c)] for a single character *)
Definition count_char (c : ascii) (s : str) : nat :=
  length (filter (λ x, x = c) s).

(** [sep.join(parts)] *)
Fixpoint join (sep : str) (parts : list str) : str :=
  match parts with
  | [] => []
  | [p] => p
  | p :: rest => p ++ sep ++ join sep rest
  end.

(** [any(ind in s for ind in inds)] *)
Definition any_in (inds : list str) (s : str) : bool :=
  existsb (λ ind, contains ind s) inds.

(* ===================================================================== *)
(** * Regular expressions

    The fragment of Python's [re] syntax the scripts use: literals, character
    sets, [\s], concatenation, ordered alternation, greedy [*], [+] and [?],
    and numbered capture groups.  Every repetition in the scripts' patterns
    is over a single character class, which is what [Star] and [Plus] take.
    Matching is the backtracking search of [re]: alternatives in order,
    greedy repetitions longest first. *)
(* ===================================================================== *)

Module Re.

Inductive cclass :=
| Chr (c : ascii)          (** a literal character *)
| OneOf (cs : list ascii)  (** [[...]] *)
| NoneOf (cs : list ascii) (** [[^...]] *)
| Space                    (** [\s] *)
| NoneOfNorSpace (cs : list ascii). (** [[^...\s]] *)

Inductive regex :=
| Eps
| One (c : cclass)
| Str (s : str)            (** a literal string *)
| Seq (r1 r2 : regex)
| Alt (r1 r2 : regex)
| Star (c : cclass)        (** [c*], greedy *)
| Plus (c : cclass)        (** [c+], greedy *)
| Opt (r : regex)          (** [r?], greedy *)
| Group (n : nat) (r : regex). (** the [n]-th capturing group *)

(** Concatenation and alternation of several parts. *)
Definition cat (rs : list regex) : regex := foldr Seq Eps rs.
Fixpoint alts (rs : list regex) : regex :=
  match rs with
  | [] => Eps
  | [r] => r
  | r :: rs' => Alt r (alts rs')
  end.

(** Unicode whitespace below code point 256, as [\s] matches on [str]. *)
Definition is_space (c : ascii) : bool :=
  let n := nat_of_ascii c in
  ((9 <=? n) && (n <=? 13)) || ((28 <=? n) && (n <=? 32))
  || (n =? 133) || (n =? 160).

Section Matching.
(** [re.IGNORECASE] *)
Variable ignorecase : bool.

Definition fold_case (c : ascii) : ascii :=
  if ignorecase then lower_char c else c.

Definition char_eqb (a b : ascii) : bool :=
  bool_decide (fold_case a = fold_case b).

Definition in_class (cl : cclass) (c : ascii) : bool :=
  match cl with
  | Chr a => char_eqb a c
  | OneOf cs => existsb (λ a, char_eqb a c) cs
  | NoneOf cs => negb (existsb (λ a, char_eqb a c) cs)
  | Space => is_space c
  | NoneOfNorSpace cs =>
      negb (existsb (λ a, char_eqb a c) cs || is_space c)
  end.

(** Captured groups, most recent first. *)
Definition captures := list (nat * str).

Section Run.
Context {R : Type}.

(** Match the literal [p] at the head of [s]. *)
Fixpoint run_str (p s : str) (k : str → option R) : option R :=
  match p with
  | [] => k s
  | a :: p' =>
      match s with
      | b :: s' => if char_eqb a b then run_str p' s' k else None
      | [] => None
      end
  end.

(** Greedy [c*]: the longest run first, then shorter ones. *)
Fixpoint run_star (cl : cclass) (s : str) (k : str → option R)
  : option R :=
  match s with
  | c :: s' =>
      if in_class cl c then
        match run_star cl s' k with
        | Some x => Some x
        | None => k s
        end
      else k s
  | [] => k []
  end.

(** [run r s caps k]: match [r] at the head of [s], then continue with
    [k] on the rest; [None] makes the matcher backtrack. *)
Fixpoint run (r : regex) (s : str) (caps : captures)
    (k : str → captures → option R) : option R :=
  match r with
  | Eps => k s caps
  | One cl =>
      match s with
      | c :: s' => if in_class cl c then k s' caps else None
      | [] => None
      end
  | Str p => run_str p s (λ s', k s' caps)
  | Seq r1 r2 => run r1 s caps (λ s' caps', run r2 s' caps' k)
  | Alt r1 r2 =>
      match run r1 s caps k with
      | Some x => Some x
      | None => run r2 s caps k
      end
  | Star cl => run_star cl s (λ s', k s' caps)
  | Plus cl =>
      match s with
      | c :: s' =>
          if in_class cl c then run_star cl s' (λ s'', k s'' caps)
          else None
      | [] => None
      end
  | Opt r1 =>
      match run r1 s caps k with
      | Some x => Some x
      | None => k s caps
      end
  | Group n r1 =>
      run r1 s caps
        (λ s' caps', k s' ((n, take (length s - length s') s) :: caps'))
  end.
End Run.

(** A match object: the matched text and the groups. *)
Record mobj := Mobj { group0 : str; groups : captures }.

(** [m.group(n)] ([None] is Python's [None] for a group that did not
    take part). *)
Fixpoint capture (n : nat) (caps : captures) : option str :=
  match caps with
  | [] => None
  | (i, t) :: caps' => if decide (i = n) then Some t else capture n caps'
  end.

Definition group (m : mobj) (n : nat) : option str :=
  match n with
  | 0 => Some (group0 m)
  | _ => capture n (groups m)
  end.

(** [pattern.match(s)]: a match at the head of [s]. *)
Definition match_here (r : regex) (s : str) : option mobj :=
  run r s [] (λ s' caps, Some (Mobj (take (length s - length s') s) caps)).

Section Sub.
(** The change log a replacement callback appends to. *)
Context {C : Type}.
Variable r : regex.
Variable repl : mobj → str * list C.

(** [re.sub(r, repl, s)] with a callback that also logs.  [skip]
    counts the characters still covered by the last match.  The scan
    is leftmost, non-overlapping; after an empty match the next
    character is copied. *)
Fixpoint sub_from (skip : nat) (s : str) : str * list C :=
  match skip with
  | S n =>
      match s with
      | [] => ([], [])
      | _ :: s' => sub_from n s'
      end
  | 0 =>
      match match_here r s with
      | Some m =>
          let '(out, ch) := repl m in
          match s with
          | [] => (out, ch)
          | c :: s' =>
              match length (group0 m) with
              | 0 =>
                  let '(o2, c2) := sub_from 0 s' in
                  (out ++ c :: o2, ch ++ c2)
              | S n =>
                  let '(o2, c2) := sub_from n s' in
                  (out ++ o2, ch ++ c2)
              end
          end
      | None =>
          match s with
          | [] => ([], [])
          | c :: s' =>
              let '(o2, c2) := sub_from 0 s' in (c :: o2, c2)
          end
      end
  end.

Definition sub (s : str) : str * list C := sub_from 0 s.
End Sub.

(** [re.finditer(r, s)]: the matches with their start offsets. *)
Fixpoint finditer_from (r : regex) (pos skip : nat) (s : str)
  : list (nat * mobj) :=
  match skip with
  | S n =>
      match s with
      | [] => []
      | _ :: s' => finditer_from r (S pos) n s'
      end
  | 0 =>
      match match_here r s with
      | Some m =>
          (pos, m) ::
          match s with
          | [] => []
          | _ :: s' => finditer_from r (S pos) (length (group0 m) - 1) s'
          end
      | None =>
          match s with
          | [] => []
          | _ :: s' => finditer_from r (S pos) 0 s'
          end
      end
  end.

Definition finditer (r : regex) (s : str) : list (nat * mobj) :=
  finditer_from r 0 0 s.

End Matching.
End Re.

Import Re.

(* ===================================================================== *)
(** * Splitting and stripping *)
(* ===================================================================== *)

(** [s.split(c)] for a single character [c]: the pieces between the
    occurrences of [c]; there is always one piece at least. *)
Fixpoint split (c : ascii) (s : str) : list str :=
  match s with
  | [] => [[]]
  | x :: s' =>
      if decide (x = c) then [] :: split c s'
      else match split c s' with
           | piece :: pieces => (x :: piece) :: pieces
           | [] => [[x]]
           end
  end.

(** [s.lstrip()], [s.rstrip()] and [s.strip()]: white space is what [\s]
    matches. *)
Fixpoint lstrip (s : str) : str :=
  match s with
  | c :: s' => if is_space c then lstrip s' else s
  | [] => []
  end.

Definition rstrip (s : str) : str := reverse (lstrip (reverse s)).

Definition strip (s : str) : str := rstrip (lstrip s).

(* ===================================================================== *)
(** * Paths ([pathlib.Path], as the scripts use it) *)
(* ===================================================================== *)

Abbreviation path := (list ascii).

(** The longest prefix of [s] without the character [c]. *)
Fixpoint before_char (c : ascii) (s : str) : str :=
  match s with
  | [] => []
  | x :: s' => if decide (x = c) then [] else x :: before_char c s'
  end.

(** [p.name]: the final component. *)
Definition path_name (p : path) : str :=
  reverse (before_char "/" (reverse p)).

(** [p.suffix]: the name from its last dot on, when that dot is neither the
    first nor the last character of the name. *)
Definition path_suffix (p : path) : str :=
  let name := path_name p in
  let ext := reverse (before_char "." (reverse name)) in
  if bool_decide ("."%char ∈ name)
     && (0 <? length name - length ext - 1)
     && (0 <? length ext)
  then "."%char :: ext else [].

(** [d / name] *)
Definition path_join (d : path) (name : str) : path := d ++ txt "/" ++ name.

(* ===================================================================== *)
(** * The rewrite rules of [apply_optimizations.py] *)
(* ===================================================================== *)

(** A change description, as appended to [changes]. *)
Abbreviation change := (list ascii).

Definition quotes : list ascii := [dq; sq].

Definition hero_words : regex :=
  alts [Str (txt "hero"); Str (txt "banner"); Str (txt "featured");
        Str (txt "lcp"); Str (txt "main-image")].

(** The two patterns of [hero_patterns], for [tag] one of [<img] and
    [<Image].  Group 1: the tag name, any characters but [>], [class=] or
    [id=], a quote, characters other than quotes around one of the hero
    words, a quote, any characters but [>].  Group 2: an optional [/] and
    [>]. *)
Definition hero_pattern (tag : str) : regex :=
  cat [Group 1 (cat [Str tag; Star (NoneOf [">"%char]);
                     alts [Str (txt "class"); Str (txt "id")];
                     Str (txt "="); One (OneOf quotes);
                     Star (NoneOf quotes); hero_words; Star (NoneOf quotes);
                     One (OneOf quotes); Star (NoneOf [">"%char])]);
       Group 2 (cat [Opt (Str (txt "/")); Str (txt ">")])].

Definition hero_patterns : list (regex * str) :=
  [(hero_pattern (txt "<img"), txt "hero/banner class");
   (hero_pattern (txt "<Image"), txt "Astro Image component")].

Definition fetchpriority_attr : str :=
  txt " fetchpriority=" ++ [dq] ++ txt "high" ++ [dq].

(** The callback [add_priority] of [add_fetchpriority_to_hero_images];
    both groups take part in every match of a [hero_pattern]. *)
Definition add_priority (desc : str) (m : mobj) : str * list change :=
  let tag := default [] (group m 1) in
  let closing := default [] (group m 2) in
  if negb (contains (txt "fetchpriority") (lower tag)) then
    (tag ++ fetchpriority_attr ++ closing,
     [txt "Added fetchpriority='high' to " ++ desc])
  else (group0 m, []).

Definition add_fetchpriority_to_hero_images (content : str)
  : str * list change :=
  foldl (λ '(content, changes) '(pattern, desc),
           let '(content', ch) := sub true pattern (add_priority desc) content
           in (content', changes ++ ch))
        (content, []) hero_patterns.

(** The pattern of [add_loading_lazy_to_images] and
    [add_decoding_async_to_images]: [<img], any characters but [>], an
    optional [/], and [>]. *)
Definition img_tag_pattern : regex :=
  cat [Str (txt "<img"); Star (NoneOf [">"%char]); Opt (Str (txt "/"));
       Str (txt ">")].

Definition hero_indicators : list str :=
  [txt "hero"; txt "banner"; txt "featured"; txt "lcp"; txt "above-fold";
   txt "fetchpriority"].

Definition lazy_change : change := txt "Added loading='lazy' to img tag".
Definition loading_attr : str := txt " loading=" ++ [dq] ++ txt "lazy" ++ [dq].

(** The callback [add_lazy] of [add_loading_lazy_to_images]. *)
Definition add_lazy (m : mobj) : str * list change :=
  let tag := group0 m in
  if contains (txt "loading=") (lower tag) then (tag, [])
  else if any_in hero_indicators (lower tag) then (tag, [])
  else if endswith (txt "/>") tag then
    (drop_last 2 tag ++ loading_attr ++ txt " />", [lazy_change])
  else if endswith (txt ">") tag then
    (drop_last 1 tag ++ loading_attr ++ txt ">", [lazy_change])
  else (tag, []).

Definition add_loading_lazy_to_images (content : str) : str * list change :=
  sub true img_tag_pattern add_lazy content.

Definition decoding_change : change := txt "Added decoding='async' to img tag".
Definition decoding_attr : str :=
  txt " decoding=" ++ [dq] ++ txt "async" ++ [dq].

(** The callback [add_decoding] of [add_decoding_async_to_images]. *)
Definition add_decoding (m : mobj) : str * list change :=
  let tag := group0 m in
  if contains (txt "decoding=") (lower tag) then (tag, [])
  else if endswith (txt "/>") tag then
    (drop_last 2 tag ++ decoding_attr ++ txt " />", [decoding_change])
  else if endswith (txt ">") tag then
    (drop_last 1 tag ++ decoding_attr ++ txt ">", [decoding_change])
  else (tag, []).

Definition add_decoding_async_to_images (content : str) : str * list change :=
  sub true img_tag_pattern add_decoding content.

(** The pattern of [add_font_display_swap]: [@font-face], white space, an
    opening brace, any characters but a closing brace, a closing brace. *)
Definition font_face_rule_pattern : regex :=
  cat [Str (txt "@font-face"); Star Space; Str (txt "{");
       Star (NoneOf ["}"%char]); Str (txt "}")].

Definition font_display_change : change :=
  txt "Added font-display: swap to @font-face".
Definition font_display_decl : str :=
  [nl] ++ txt "  font-display: swap;" ++ [nl] ++ txt "}".

(** The callback [add_display] of [add_font_display_swap]. *)
Definition add_display (m : mobj) : str * list change :=
  let rule := group0 m in
  if contains (txt "font-display") (lower rule) then (rule, [])
  else (drop_last 1 rule ++ font_display_decl, [font_display_change]).

Definition add_font_display_swap (content : str) : str * list change :=
  sub true font_face_rule_pattern add_display content.

(** The pattern of [add_defer_to_external_scripts]: [<script], any
    characters but [>], [src=], a quote, [http] or [https], [://], one or
    more characters other than quotes, a quote, any characters but [>],
    and [>]. *)
Definition external_script_pattern : regex :=
  cat [Str (txt "<script"); Star (NoneOf [">"%char]); Str (txt "src=");
       One (OneOf quotes); Str (txt "http"); Opt (Str (txt "s"));
       Str (txt "://"); Plus (NoneOf quotes); One (OneOf quotes);
       Star (NoneOf [">"%char]); Str (txt ">")].

Definition defer_change : change := txt "Added defer to external script tag".

(** The callback [add_defer] of [add_defer_to_external_scripts]. *)
Definition add_defer (m : mobj) : str * list change :=
  let tag := group0 m in
  if contains (txt "defer") (lower tag) || contains (txt "async") (lower tag)
  then (tag, [])
  else (drop_last 1 tag ++ txt " defer>", [defer_change]).

Definition add_defer_to_external_scripts (content : str) : str * list change :=
  sub true external_script_pattern add_defer content.

(* ===================================================================== *)
(** * The file system, the clock and failing operations *)
(* ===================================================================== *)

(** The text of an exception, [str(e)]. *)
Abbreviation error := (list ascii).

(** The operations of the scripts that can raise. *)
Inductive op :=
| OpRead (p : path)          (** [p.read_text(errors='ignore')] *)
| OpMkdir (d : path)         (** [d.mkdir(parents=True, exist_ok=True)] *)
| OpCopy (src dst : path)    (** [shutil.copy2(src, dst)] *)
| OpWrite (p : path).        (** [p.write_text(content)] *)

(** The world a run acts on.  [files] are the regular files with their
    text; a path names one file, there are no symbolic or hard links.
    [now n] is what the [n]-th call of [datetime.now()] formats to
    under [%Y%m%d_%H%M%S].  [fault] tells which operations raise, and with
    what text; a write or copy that raises leaves at its target what [torn]
    gives ([None]: the target is as it was). *)
Record world := World {
  files : gmap path str;
  now : nat → str;
  ticks : nat;
  fault : op → option error;
  torn : path → option str
}.

Definition set_files (fs : gmap path str) (w : world) : world :=
  World fs (now w) (ticks w) (fault w) (torn w).

(** What a failed write to [p] leaves behind. *)
Definition tear (p : path) (w : world) : world :=
  match torn w p with
  | Some c => set_files (<[p := c]> (files w)) w
  | None => w
  end.

Definition file_not_found : error := txt "[Errno 2] No such file or directory".

(** [p.read_text(errors='ignore')] *)
Definition read_text (p : path) (w : world) : error + str :=
  match fault w (OpRead p) with
  | Some e => inl e
  | None =>
      match files w !! p with
      | Some c => inr c
      | None => inl file_not_found
      end
  end.

(** [p.write_text(content)] *)
Definition write_text (p : path) (content : str) (w : world)
  : (error + unit) * world :=
  match fault w (OpWrite p) with
  | Some e => (inl e, tear p w)
  | None => (inr (), set_files (<[p := content]> (files w)) w)
  end.

(** [shutil.copy2(src, dst)]: [dst] is created, or overwritten when it
    exists. *)
Definition copy2 (src dst : path) (w : world) : (error + unit) * world :=
  match files w !! src with
  | None => (inl file_not_found, w)
  | Some c =>
      match fault w (OpCopy src dst) with
      | Some e => (inl e, tear dst w)
      | None => (inr (), set_files (<[dst := c]> (files w)) w)
      end
  end.

(** [datetime.now().strftime("%Y%m%d_%H%M%S")] *)
Definition timestamp_now (w : world) : str * world :=
  (now w (ticks w), World (files w) (now w) (S (ticks w)) (fault w) (torn w)).

(** [backup_file] *)
Definition backup_file (file_path backup_dir : path) (w : world)
  : (error + path) * world :=
  match fault w (OpMkdir backup_dir) with
  | Some e => (inl e, w)
  | None =>
      let '(timestamp, w1) := timestamp_now w in
      let backup_path :=
        path_join backup_dir
          (path_name file_path ++ txt "." ++ timestamp ++ txt ".bak") in
      match copy2 file_path backup_path w1 with
      | (inl e, w2) => (inl e, w2)
      | (inr _, w2) => (inr backup_path, w2)
      end
  end.

(* ===================================================================== *)
(** * [optimize_file] and [optimize_project] *)
(* ===================================================================== *)

(** The dictionary [optimize_file] returns. *)
Record transform_result := TransformResult {
  tr_file : path;
  tr_changes : list change;
  tr_backup : option path;
  tr_error : option error
}.

(** The rules [optimize_file] applies to a file with the lower-cased suffix
    [suffix], in their order, with the changes they log. *)
Definition apply_rules (suffix : str) (include_risky : bool) (content : str)
  : str * list change :=
  if decide (suffix = txt ".astro") then
    let all_changes := [] in
    let '(content, changes) := add_fetchpriority_to_hero_images content in
    let all_changes := all_changes ++ changes in
    let '(content, changes) := add_loading_lazy_to_images content in
    let all_changes := all_changes ++ changes in
    let '(content, changes) := add_decoding_async_to_images content in
    let all_changes := all_changes ++ changes in
    if include_risky then
      let '(content, changes) := add_defer_to_external_scripts content in
      (content, all_changes ++ changes)
    else (content, all_changes)
  else if bool_decide (suffix ∈ [txt ".css"; txt ".scss"]) then
    let '(content, changes) := add_font_display_swap content in
    (content, [] ++ changes)
  else (content, []).

(** [optimize_file].  The [result] dictionary is updated in place, so what
    was stored before an exception stays in it. *)
Definition optimize_file (file_path backup_dir : path) (include_risky : bool)
    (w : world) : transform_result * world :=
  let result := TransformResult file_path [] None None in
  match read_text file_path w with
  | inl e => (TransformResult file_path [] None (Some e), w)
  | inr original_content =>
      let suffix := lower (path_suffix file_path) in
      let '(content, all_changes) :=
        apply_rules suffix include_risky original_content in
      if decide (content ≠ original_content) then
        match backup_file file_path backup_dir w with
        | (inl e, w1) => (TransformResult file_path [] None (Some e), w1)
        | (inr backup_path, w1) =>
            match write_text file_path content w1 with
            | (inl e, w2) =>
                (TransformResult file_path [] (Some backup_path) (Some e), w2)
            | (inr _, w2) =>
                (TransformResult file_path all_changes (Some backup_path) None,
                 w2)
            end
        end
      else (result, w)
  end.

(** An entry of [files_modified]. *)
Record modified_entry := ModifiedEntry {
  me_file : path;
  me_changes : list change;
  me_backup : option path
}.

(** The dictionary [optimize_project] returns. *)
Record project_results := ProjectResults {
  pr_project_path : path;
  pr_backup_dir : path;
  pr_include_risky : bool;
  pr_files_processed : list path;
  pr_files_modified : list modified_entry;
  pr_total_changes : nat;
  pr_errors : list (path * error)
}.

Section OptimizeProject.
(** The resolved project path and the flag. *)
Variable project : path.
Variable include_risky : bool.

Definition src_path : path := path_join project (txt "src").
Definition backup_dir : path :=
  path_join project (txt ".astro-optimizer-backups").

(** [str(f.relative_to(path))] for a file [src_path / rel]. *)
Definition relative_to_project (rel : path) : path :=
  path_join (txt "src") rel.

(** The body of both loops of [optimize_project], for the file
    [src_path / rel] that [rglob] yielded.  A list is true when it is not
    empty, and so is the text of an error. *)
Definition process_file (acc : project_results * world) (rel : path)
  : project_results * world :=
  let '(results, w) := acc in
  let '(result, w') :=
    optimize_file (path_join src_path rel) backup_dir include_risky w in
  let results :=
    ProjectResults (pr_project_path results) (pr_backup_dir results)
      (pr_include_risky results)
      (pr_files_processed results ++ [relative_to_project rel])
      (pr_files_modified results) (pr_total_changes results)
      (pr_errors results) in
  let results :=
    match tr_changes result with
    | [] => results
    | _ :: _ =>
        ProjectResults (pr_project_path results) (pr_backup_dir results)
          (pr_include_risky results) (pr_files_processed results)
          (pr_files_modified results ++
             [ModifiedEntry (relative_to_project rel) (tr_changes result)
                (tr_backup result)])
          (pr_total_changes results + length (tr_changes result))
          (pr_errors results)
    end in
  let results :=
    match tr_error result with
    | Some (c :: e) =>
        ProjectResults (pr_project_path results) (pr_backup_dir results)
          (pr_include_risky results) (pr_files_processed results)
          (pr_files_modified results) (pr_total_changes results)
          (pr_errors results ++ [(relative_to_project rel, c :: e)])
    | _ => results
    end in
  (results, w').

(** [optimize_project], given what the three [rglob] calls yield: the
    [*.astro], [*.css] and [*.scss] files, as paths below [src_path]. *)
Definition optimize_project (astro_files css_files scss_files : list path)
    (w : world) : project_results * world :=
  let results :=
    ProjectResults project backup_dir include_risky [] [] 0 [] in
  let acc := foldl process_file (results, w) astro_files in
  foldl process_file acc (css_files ++ scss_files).
End OptimizeProject.

(* ===================================================================== *)
(** * Raising and handing on an exception *)
(* ===================================================================== *)

(** A computation that returns or raises: [inl e] is the exception with the
    text [e].  A statement behind one that raises is not run. *)
#[global] Instance error_ret : MRet (sum error) := λ A x, inr x.
#[global] Instance error_bind : MBind (sum error) :=
  λ A B f x, match x with
             | inl e => inl e
             | inr a => f a
             end.

(* ===================================================================== *)
(** * [analyze.py] *)
(* ===================================================================== *)

Module Analyze.

Record Finding := MkFinding {
  type : str;
  severity : str;
  risk : str;
  file : path;
  line : option nat;
  message : str;
  suggestion : str;
  auto_fixable : bool
}.

(** The pattern [<img[^>]*>] of [analyze_images]. *)
Definition img_pattern : regex :=
  cat [Str (txt "<img"); Star (NoneOf [">"%char]); Str (txt ">")].

Definition image_cls (file : path) (line_num : nat) : Finding :=
  MkFinding (txt "image_cls") (txt "high") (txt "safe") file (Some line_num)
    (txt "Image missing width/height attributes (causes CLS)")
    (txt "Add width and height attributes or use Astro's <Image> component")
    false.

Definition image_loading (file : path) : Finding :=
  MkFinding (txt "image_loading") (txt "medium") (txt "safe") file None
    (txt "Images without explicit loading strategy")
    (txt "Add loading='lazy' for below-fold images, loading='eager' for above-fold")
    true.

Definition image_priority (file : path) : Finding :=
  MkFinding (txt "image_priority") (txt "high") (txt "safe") file None
    (txt "Potential hero/LCP image without fetchpriority attribute")
    (txt "Add fetchpriority='high' to your main above-fold image")
    true.

Definition image_format (file : path) : Finding :=
  MkFinding (txt "image_format") (txt "medium") (txt "safe") file None
    (txt "Image could be converted to modern format (AVIF/WebP)")
    (txt "Convert to AVIF for best compression, WebP for broader support")
    false.

(** The first loop inside the file loop: one finding for each [img] tag
    without dimensions. *)
Definition img_tag_findings (file : path) (content : str) : list Finding :=
  flat_map
    (λ '(start, m),
       let img_tag := group0 m in
       let has_dimensions :=
         (contains (txt "width=") img_tag && contains (txt "height=") img_tag)
         || contains (txt "aspect-ratio") img_tag in
       if negb has_dimensions && negb (contains (txt "Image") img_tag) then
         let line_num := count_char nl (take start content) + 1 in
         [image_cls file line_num]
       else [])
    (finditer true img_pattern content).

Definition hero_patterns : list str :=
  [txt "hero"; txt "banner"; txt "header-image"; txt "main-image"; txt "lcp"].

(** The loop over [hero_patterns], left at the first finding. *)
Fixpoint priority_findings (file : path) (content : str)
    (patterns : list str) : list Finding :=
  match patterns with
  | [] => []
  | pattern :: rest =>
      if contains pattern (lower content)
         && negb (contains (txt "fetchpriority") content)
      then [image_priority file]
      else priority_findings file content rest
  end.

(** The body of the loop of [analyze_images] over the [*.astro] files, for
    the file [src_path / rel] with the text [content]. *)
Definition astro_file_findings (rel : path) (content : str) : list Finding :=
  let file := path_join (txt "src") rel in
  img_tag_findings file content
  ++ (if contains (txt "<img") content
         && negb (contains (txt "loading=") content)
      then [image_loading file] else [])
  ++ priority_findings file content hero_patterns.

Definition image_suffixes : list str :=
  [txt ".jpg"; txt ".jpeg"; txt ".png"; txt ".gif"].

(** The loop of [analyze_images] over [public_path.rglob("*")]. *)
Definition public_findings (public_files : list path) : list Finding :=
  flat_map
    (λ rel,
       if bool_decide (lower (path_suffix rel) ∈ image_suffixes)
       then [image_format (path_join (txt "public") rel)] else [])
    public_files.

(** The file loop: a file that cannot be read raises, which ends the
    analyzer. *)
Fixpoint astro_findings (project : path) (astro_files : list path)
    (w : world) : error + list Finding :=
  match astro_files with
  | [] => inr []
  | rel :: rest =>
      match read_text (path_join (path_join project (txt "src")) rel) w with
      | inl e => inl e
      | inr content =>
          match astro_findings project rest w with
          | inl e => inl e
          | inr fs => inr (astro_file_findings rel content ++ fs)
          end
      end
  end.

(** [analyze_images], given what [src_path.rglob("*.astro")] yields and,
    when [public/] exists, what [public_path.rglob("*")] yields. *)
Definition analyze_images (project : path) (astro_files : list path)
    (public_files : option (list path)) (w : world) : error + list Finding :=
  match astro_findings project astro_files w with
  | inl e => inl e
  | inr fs => inr (fs ++ public_findings (default [] public_files))
  end.

Record Summary := MkSummary {
  total : nat;
  high : nat; medium : nat; low : nat;  (** [by_severity] *)
  safe : nat; risky : nat;              (** [by_risk] *)
  auto_fixable_count : nat              (** [auto_fixable] *)
}.

Record AnalysisReport := MkReport {
  project_path : path;
  findings : list Finding;
  summary : option Summary   (** [None] is the empty dictionary *)
}.

(** [len([f for f in findings if p(f)])] *)
Definition len_where (p : Finding → bool) (fs : list Finding) : nat :=
  length (List.filter p fs).

Definition make_summary (fs : list Finding) : Summary :=
  MkSummary (length fs)
    (len_where (λ f, bool_decide (severity f = txt "high")) fs)
    (len_where (λ f, bool_decide (severity f = txt "medium")) fs)
    (len_where (λ f, bool_decide (severity f = txt "low")) fs)
    (len_where (λ f, bool_decide (risk f = txt "safe")) fs)
    (len_where (λ f, bool_decide (risk f = txt "risky")) fs)
    (len_where auto_fixable fs).

(** An analyzer: it returns its findings or raises. *)
Definition analyzer := path → world → error + list Finding.

(** The loop of [analyze_project] over the analyzers: the findings of an
    analyzer that raises are dropped with a warning. *)
Definition run_analyzers (analyzers : list analyzer) (p : path) (w : world)
  : list Finding :=
  foldl (λ found a,
           match a p w with
           | inr fs => found ++ fs
           | inl _ => found
           end)
        [] analyzers.

(** [analyze_project], for the list [analyzers] it runs. *)
Definition analyze_project (analyzers : list analyzer) (p : path)
    (w : world) : AnalysisReport :=
  let report := MkReport p [] None in
  let found := findings report ++ run_analyzers analyzers p w in
  MkReport p found (Some (make_summary found)).

(** ** Loops over the files of a scan *)

(** A loop over files below [src] that reads each file and gathers what
    [body] yields for it; a file that cannot be read raises. *)
Fixpoint for_files {A} (project : path) (body : path → str → list A)
    (rels : list path) (w : world) : error + list A :=
  match rels with
  | [] => inr []
  | rel :: rest =>
      content ← read_text (path_join (path_join project (txt "src")) rel) w;
      more ← for_files project body rest w;
      mret (body rel content ++ more)
  end.

(** ** [analyze_fonts] *)

(** [font_face_pattern]: [@font-face], white space, an opening brace, any
    characters but a closing brace, [src:], white space, [url(], an optional
    quote, group 1 with one or more characters that are neither quotes, [)]
    nor white space, an optional quote, [)], any characters but a closing
    brace, a closing brace. *)
Definition font_face_pattern : regex :=
  cat [Str (txt "@font-face"); Star Space; Str (txt "{");
       Star (NoneOf ["}"%char]); Str (txt "src:"); Star Space;
       Str (txt "url("); Opt (One (OneOf quotes));
       Group 1 (Plus (NoneOfNorSpace [dq; sq; ")"%char]));
       Opt (One (OneOf quotes)); Str (txt ")");
       Star (NoneOf ["}"%char]); Str (txt "}")].

Definition font_external (file : path) : Finding :=
  MkFinding (txt "font_external") (txt "high") (txt "risky") file None
    (txt "Using Google Fonts (external dependency, extra DNS lookup)")
    (txt "Self-host fonts for better performance. Download from google-webfonts-helper or fontsource")
    false.

Definition font_preload : Finding :=
  MkFinding (txt "font_preload") (txt "high") (txt "safe")
    (txt "src/layouts/") None
    (txt "Fonts declared in CSS but not preloaded")
    (txt "Add <link rel='preload' href='/fonts/your-font.woff2' as='font' type='font/woff2' crossorigin> in layout <head>")
    true.

Definition font_display (file : path) : Finding :=
  MkFinding (txt "font_display") (txt "medium") (txt "safe") file None
    (txt "@font-face without font-display property")
    (txt "Add font-display: swap (or optional) to prevent FOIT")
    true.

(** The body of the first loop: the urls of the fonts a style sheet
    declares. *)
Definition font_urls (content : str) : list str :=
  map (λ '(_, m), default [] (group m 1))
      (finditer true font_face_pattern content).

(** The body of the loop over the [*.astro] files. *)
Definition google_fonts_findings (rel : path) (content : str)
  : list Finding :=
  if contains (txt "fonts.googleapis.com") content
     || contains (txt "fonts.gstatic.com") content
  then [font_external (path_join (txt "src") rel)] else [].

(** The loop over the layouts, left at the first one that preloads a
    font. *)
Fixpoint fonts_preloaded (project : path) (layout_files : list path)
    (w : world) : error + bool :=
  match layout_files with
  | [] => inr false
  | layout :: rest =>
      content ← read_text (path_join (path_join project (txt "src")) layout) w;
      if contains (txt "rel=" ++ [dq] ++ txt "preload" ++ [dq]) content
         && (contains (txt "as=" ++ [dq] ++ txt "font" ++ [dq]) content
             || contains (txt "as='font'") content)
      then inr true
      else fonts_preloaded project rest w
  end.

(** The body of the last loop, over the style sheets again. *)
Definition font_display_findings (rel : path) (content : str)
  : list Finding :=
  if contains (txt "@font-face") content
     && negb (contains (txt "font-display") content)
  then [font_display (path_join (txt "src") rel)] else [].

(** [analyze_fonts], given what the [rglob] calls yield: the style sheets
    ([*.css], then [*.scss]), the [*.astro] files and the layouts (those in
    a [layouts] directory, then those named [Layout*.astro]). *)
Definition analyze_fonts (project : path)
    (css_files astro_files layout_files : list path) (w : world)
  : error + list Finding :=
  font_files ← for_files project (λ _ content, font_urls content) css_files w;
  external ← for_files project google_fonts_findings astro_files w;
  preloaded ← fonts_preloaded project layout_files w;
  display ← for_files project font_display_findings css_files w;
  mret (external
        ++ (if bool_decide (font_files ≠ []) && negb preloaded
            then [font_preload] else [])
        ++ display).

(** ** [analyze_prefetch] *)

Definition prefetch_config (file : path) : Finding :=
  MkFinding (txt "prefetch_config") (txt "medium") (txt "safe") file None
    (txt "No prefetch configuration found")
    (txt "Enable Astro's built-in prefetch: prefetch: { defaultStrategy: 'viewport' }")
    true.

(** [analyze_prefetch], given what [project_path.glob("astro.config.*")]
    yields, as names in the project directory. *)
Definition analyze_prefetch (project : path) (config_files : list path)
    (w : world) : error + list Finding :=
  match config_files with
  | [] => inr []
  | config :: _ =>
      config_content ← read_text (path_join project config) w;
      mret (if negb (contains (txt "prefetch") config_content)
            then [prefetch_config config] else [])
  end.

(** ** [analyze_preconnect] *)

Definition lowercase : list ascii := txt "abcdefghijklmnopqrstuvwxyz".
Definition uppercase : list ascii := txt "ABCDEFGHIJKLMNOPQRSTUVWXYZ".
Definition digits : list ascii := txt "0123456789".

(** [origin_pattern]: [http] or [https], [://], a letter or digit, letters,
    digits and hyphens, a dot, two or more letters. *)
Definition origin_pattern : regex :=
  cat [Str (txt "http"); Opt (Str (txt "s")); Str (txt "://");
       One (OneOf (lowercase ++ uppercase ++ digits));
       Star (OneOf (lowercase ++ uppercase ++ digits ++ ["-"%char]));
       Str (txt ".");
       One (OneOf (lowercase ++ uppercase));
       Plus (OneOf (lowercase ++ uppercase))].

Definition index_error : error := txt "list index out of range".

(** [origin.split('/')[0] + '//' + origin.split('/')[2]] *)
Definition scheme_and_host (origin : str) : error + str :=
  match split "/" origin with
  | scheme :: _ :: host :: _ => inr (scheme ++ txt "//" ++ host)
  | _ => inl index_error
  end.

(** The loop over the matches in one file. *)
Fixpoint add_origins (third_party_origins : gset str)
    (matches : list (nat * mobj)) : error + gset str :=
  match matches with
  | [] => inr third_party_origins
  | (_, m) :: rest =>
      let origin := group0 m in
      if negb (contains (txt "localhost") origin)
         && negb (contains (txt "127.0.0.1") origin)
      then
        o ← scheme_and_host origin;
        add_origins ({[o]} ∪ third_party_origins) rest
      else add_origins third_party_origins rest
  end.

(** The loop over the [*.astro] files. *)
Fixpoint collect_origins (project : path) (astro_files : list path)
    (w : world) (third_party_origins : gset str) : error + gset str :=
  match astro_files with
  | [] => inr third_party_origins
  | rel :: rest =>
      content ← read_text (path_join (path_join project (txt "src")) rel) w;
      origins ← add_origins third_party_origins
                  (finditer false origin_pattern content);
      collect_origins project rest w origins
  end.

(** The loop over the layouts. *)
Fixpoint collect_preconnected (project : path) (layout_files : list path)
    (w : world) (third_party_origins preconnected : gset str)
  : error + gset str :=
  match layout_files with
  | [] => inr preconnected
  | layout :: rest =>
      content ← read_text (path_join (path_join project (txt "src")) layout) w;
      collect_preconnected project rest w third_party_origins
        (if contains (txt "rel=" ++ [dq] ++ txt "preconnect" ++ [dq]) content
            || contains (txt "rel='preconnect'") content
         then filter (λ origin, contains origin content = true)
                third_party_origins ∪ preconnected
         else preconnected)
  end.

Definition preconnect (origins : list str) : Finding :=
  MkFinding (txt "preconnect") (txt "medium") (txt "safe")
    (txt "src/layouts/") None
    (txt "Third-party origins without preconnect: " ++ join (txt ", ") origins)
    (txt "Add <link rel='preconnect' href='ORIGIN'> for external resources")
    true.

Section Preconnect.
(** The order in which Python iterates over a set of strings; it depends on
    the hashes of the run. *)
Variable set_order : gset str → list str.

Definition analyze_preconnect (project : path)
    (astro_files layout_files : list path) (w : world)
  : error + list Finding :=
  third_party_origins ← collect_origins project astro_files w ∅;
  preconnected ←
    collect_preconnected project layout_files w third_party_origins ∅;
  let missing_preconnect := third_party_origins ∖ preconnected in
  mret (if decide (missing_preconnect ≠ ∅)
        then [preconnect (take 3 (set_order missing_preconnect))] else []).
End Preconnect.

(** ** [analyze_scripts] *)

(** [script_pattern]: as the pattern of [add_defer_to_external_scripts]. *)
Definition script_pattern : regex :=
  cat [Str (txt "<script"); Star (NoneOf [">"%char]); Str (txt "src=");
       One (OneOf quotes); Str (txt "http"); Opt (Str (txt "s"));
       Str (txt "://"); Plus (NoneOf quotes); One (OneOf quotes);
       Star (NoneOf [">"%char]); Str (txt ">")].

Definition script_blocking (file : path) (line_num : nat) : Finding :=
  MkFinding (txt "script_blocking") (txt "high") (txt "risky") file
    (Some line_num)
    (txt "Third-party script without defer/async (render-blocking)")
    (txt "Add defer or async attribute, or load on interaction")
    true.

Definition script_tracking (file : path) : Finding :=
  MkFinding (txt "script_tracking") (txt "medium") (txt "risky") file None
    (txt "Tracking/analytics script loaded immediately")
    (txt "Delay non-critical scripts with setTimeout or load on user interaction")
    false.

(** The loop over the script tags: one finding for each tag without
    [defer] and [async]. *)
Definition script_tag_findings (file : path) (content : str)
  : list Finding :=
  flat_map
    (λ '(start, m),
       let script_tag := group0 m in
       if negb (contains (txt "defer") script_tag)
          && negb (contains (txt "async") script_tag)
       then
         let line_num := count_char nl (take start content) + 1 in
         [script_blocking file line_num]
       else [])
    (finditer true script_pattern content).

Definition tracking_patterns : list str :=
  [txt "analytics"; txt "gtag"; txt "gtm"; txt "facebook"; txt "pixel";
   txt "hotjar"; txt "intercom"; txt "crisp"; txt "drift"].

(** The loop over [tracking_patterns], left at the first finding. *)
Fixpoint tracking_findings (file : path) (content : str)
    (patterns : list str) : list Finding :=
  match patterns with
  | [] => []
  | pattern :: rest =>
      if contains pattern (lower content)
         && negb (contains (txt "setTimeout") content)
         && negb (contains (txt "requestIdleCallback") content)
      then
        if contains (txt "<script") content
           && contains pattern (lower content)
        then [script_tracking file]
        else tracking_findings file content rest
      else tracking_findings file content rest
  end.

(** The body of the file loop of [analyze_scripts]. *)
Definition script_file_findings (rel : path) (content : str)
  : list Finding :=
  let file := path_join (txt "src") rel in
  script_tag_findings file content
  ++ tracking_findings file content tracking_patterns.

Definition analyze_scripts (project : path) (astro_files : list path)
    (w : world) : error + list Finding :=
  for_files project script_file_findings astro_files w.

(** ** [analyze_css] *)

Definition css_content_visibility : Finding :=
  MkFinding (txt "css_content_visibility") (txt "low") (txt "risky")
    (txt "Global CSS") None
    (txt "Not using content-visibility: auto for off-screen content")
    (txt "Add content-visibility: auto to below-fold sections for paint performance")
    false.

(** The loop over the style sheets, left at the first one that mentions
    [content-visibility]. *)
Fixpoint has_content_visibility (project : path) (css_files : list path)
    (w : world) : error + bool :=
  match css_files with
  | [] => inr false
  | css_file :: rest =>
      content ←
        read_text (path_join (path_join project (txt "src")) css_file) w;
      if contains (txt "content-visibility") content then inr true
      else has_content_visibility project rest w
  end.

Definition analyze_css (project : path) (css_files : list path) (w : world)
  : error + list Finding :=
  has ← has_content_visibility project css_files w;
  mret (if negb has then [css_content_visibility] else []).

(** ** [analyze_astro_config] *)

Definition config_image (file : path) : Finding :=
  MkFinding (txt "config_image") (txt "medium") (txt "safe") file None
    (txt "No explicit image optimization configuration")
    (txt "Configure image service for automatic optimization: image: { service: sharpImageService() }")
    true.

Definition config_compress (file : path) : Finding :=
  MkFinding (txt "config_compress") (txt "low") (txt "safe") file None
    (txt "HTML compression not explicitly enabled")
    (txt "Astro compresses HTML by default, but verify compressHTML: true in config")
    true.

Definition analyze_astro_config (project : path) (config_files : list path)
    (w : world) : error + list Finding :=
  match config_files with
  | [] => inr []
  | config :: _ =>
      config_content ← read_text (path_join project config) w;
      mret ((if negb (contains (txt "image:") config_content)
                && negb (contains (txt "astro:assets") config_content)
             then [config_image config] else [])
            ++ (if negb (contains (txt "compress") config_content)
                   && negb (contains (txt "compressHTML") config_content)
                then [config_compress config] else []))
  end.

(** ** The analyzers of [analyze_project] *)

(** What the [rglob] and [glob] calls of the analyzers yield: paths below
    [src], below [public] ([None]: there is no such directory), and names
    in the project directory. *)
Record scan := Scan {
  astro_files : list path;      (** [src_path.rglob("*.astro")] *)
  css_files : list path;        (** [src_path.rglob("*.css")] *)
  scss_files : list path;       (** [src_path.rglob("*.scss")] *)
  layouts_in_dir : list path;   (** [src_path.rglob("**/layouts/*.astro")] *)
  layouts_by_name : list path;  (** [src_path.rglob("Layout*.astro")] *)
  public_files : option (list path);
  config_files : list path      (** [project_path.glob("astro.config.*")] *)
}.

(** The list [analyzers] of [analyze_project]. *)
Definition analyzers (set_order : gset str → list str) (sc : scan)
  : list analyzer :=
  [λ p w, analyze_images p (astro_files sc) (public_files sc) w;
   λ p w, analyze_fonts p (css_files sc ++ scss_files sc) (astro_files sc)
            (layouts_in_dir sc ++ layouts_by_name sc) w;
   λ p w, analyze_prefetch p (config_files sc) w;
   λ p w, analyze_preconnect set_order p (astro_files sc)
            (layouts_in_dir sc ++ layouts_by_name sc) w;
   λ p w, analyze_scripts p (astro_files sc) w;
   λ p w, analyze_css p (css_files sc ++ scss_files sc) w;
   λ p w, analyze_astro_config p (config_files sc) w].

End Analyze.

(* ===================================================================== *)
(** * [detect_js_patterns.py] *)
(* ===================================================================== *)

Module DetectJs.

Record JsToHtmlCssFinding := MkJsFinding {
  pattern : str;
  severity : str;
  file : path;
  line : option nat;
  evidence : str;
  html_css_solution : str;
  explanation : str;
  example_before : str;
  example_after : str
}.

Definition key (f : JsToHtmlCssFinding) : str * path := (pattern f, file f).

(** The de-duplication loop of [analyze_project]: the state is [seen] and
    [unique_findings]. *)
Definition dedup_step (st : gset (str * path) * list JsToHtmlCssFinding)
    (f : JsToHtmlCssFinding) : gset (str * path) * list JsToHtmlCssFinding :=
  let '(seen, unique_findings) := st in
  if decide (key f ∈ seen) then st
  else ({[key f]} ∪ seen, unique_findings ++ [f]).

Definition deduplicate (all_findings : list JsToHtmlCssFinding)
  : list JsToHtmlCssFinding :=
  snd (foldl dedup_step (∅, []) all_findings).

Record Summary := MkSummary {
  total : nat;
  high : nat; medium : nat; low : nat;
  by_pattern : list (str * nat)   (** in insertion order *)
}.

(** [d[k] = d.get(k, 0) + 1] on a dictionary kept in insertion order. *)
Fixpoint bump (k : str) (d : list (str * nat)) : list (str * nat) :=
  match d with
  | [] => [(k, 1)]
  | (k', n) :: d' => if decide (k' = k) then (k', n + 1) :: d'
                     else (k', n) :: bump k d'
  end.

Record Report := MkReport {
  findings : list JsToHtmlCssFinding;
  summary : Summary;
  patterns_detected : list str
}.

(** [analyze_project] from the point where the two scanning loops have
    gathered [all_findings]. *)
Definition analyze_project (all_findings : list JsToHtmlCssFinding)
  : Report :=
  let unique_findings := deduplicate all_findings in
  let count sev :=
    length (List.filter (λ f, bool_decide (severity f = txt sev))
              unique_findings) in
  let by_pattern :=
    foldl (λ d f, bump (pattern f) d) [] unique_findings in
  MkReport unique_findings
    (MkSummary (length unique_findings) (count "high") (count "medium")
       (count "low") by_pattern)
    (map fst by_pattern).

(** ** [analyze_file] and the scan of [analyze_project] *)

(** The line of the first match and the evidence shown for it: the line is
    stripped and cut after 100 characters, with an ellipsis when something
    was cut. *)
Definition line_and_evidence (content : str) (start : nat) : nat * str :=
  let line_num := count_char nl (take start content) + 1 in
  let lines := split nl content in
  let evidence_line :=
    if decide (line_num ≤ length lines)
    then strip (default [] (lines !! (line_num - 1))) else [] in
  (line_num,
   take 100 evidence_line
   ++ (if decide (100 < length evidence_line) then txt "..." else [])).

Section Patterns.
(** The regular expressions of [PATTERNS] use more of the syntax of [re]
    than [regex] covers.  [starts js_pattern content] stands for the start
    offsets of the matches that
    [re.finditer(js_pattern, content, re.IGNORECASE)] yields. *)
Variable js_regex : Type.
Variable starts : js_regex → str → list nat.

(** An entry of [PATTERNS]. *)
Record pattern_def := PatternDef {
  name : str;
  description : str;
  js_patterns : list js_regex;
  def_severity : str;
  solution : str;
  def_explanation : str;
  before : str;
  after : str
}.

Variable PATTERNS : list pattern_def.

(** The loop over the [js_patterns] of an entry, left at the first pattern
    with a match: the start of its first match. *)
Fixpoint first_hit (patterns : list js_regex) (content : str) : option nat :=
  match patterns with
  | [] => None
  | js_pattern :: rest =>
      match starts js_pattern content with
      | start :: _ => Some start
      | [] => first_hit rest content
      end
  end.

(** [analyze_file] for the file [src_path / rel]: a file that cannot be
    read has no findings. *)
Definition analyze_file (project rel : path) (w : world)
  : list JsToHtmlCssFinding :=
  match read_text (path_join (path_join project (txt "src")) rel) w with
  | inl _ => []
  | inr content =>
      flat_map
        (λ pattern_def,
           match first_hit (js_patterns pattern_def) content with
           | Some start =>
               let '(line_num, evidence) := line_and_evidence content start in
               [MkJsFinding (name pattern_def) (def_severity pattern_def)
                  (path_join (txt "src") rel) (Some line_num) evidence
                  (solution pattern_def) (def_explanation pattern_def)
                  (before pattern_def) (after pattern_def)]
           | None => []
           end)
        PATTERNS
  end.

Definition extensions : list str :=
  [txt ".js"; txt ".ts"; txt ".jsx"; txt ".tsx"; txt ".astro"; txt ".vue";
   txt ".svelte"].

(** The two scanning loops of [analyze_project]; [rglob pattern] is what
    [src_path.rglob(pattern)] yields, as paths below [src_path]. *)
Definition gather (project : path) (rglob : str → list path) (w : world)
  : list JsToHtmlCssFinding :=
  flat_map
    (λ ext,
       flat_map
         (λ rel,
            let file := path_join (path_join project (txt "src")) rel in
            if contains (txt "node_modules") file || contains (txt "dist") file
            then []
            else analyze_file project rel w)
         (rglob (txt "*" ++ ext)))
    extensions
  ++ flat_map (λ rel, analyze_file project rel w) (rglob (txt "*.html")).

(** [analyze_project] as a whole. *)
Definition analyze_project_at (project : path) (rglob : str → list path)
    (w : world) : Report :=
  analyze_project (gather project rglob w).
End Patterns.

Arguments PatternDef {js_regex}.
Arguments name {js_regex}.
Arguments description {js_regex}.
Arguments js_patterns {js_regex}.
Arguments def_severity {js_regex}.
Arguments solution {js_regex}.
Arguments def_explanation {js_regex}.
Arguments before {js_regex}.
Arguments after {js_regex}.
Arguments first_hit {js_regex}.
Arguments analyze_file {js_regex}.
Arguments gather {js_regex}.
Arguments analyze_project_at {js_regex}.

End DetectJs.

(* ===================================================================== *)
(** * [generate_preloads.py] *)
(* ===================================================================== *)

Module Preloads.

Record PreloadDirective := MkPreload {
  href : str;
  as_type : str;
  type_attr : option str;
  crossorigin : bool;
  scope : str;
  source_file : path;
  reason : str
}.

(** [font_face_pattern]: [@font-face], white space, an opening brace,
    group 1 with any characters but a closing brace, a closing brace. *)
Definition font_face_pattern : regex :=
  cat [Str (txt "@font-face"); Star Space; Str (txt "{");
       Group 1 (Star (NoneOf ["}"%char])); Str (txt "}")].

(** [url_pattern]: [url(], an optional quote, group 1 with one or more
    characters that are neither quotes, [)] nor white space, a dot and
    one of [woff], [woff2], [ttf], [otf], [eot]; an optional quote,
    [)]. *)
Definition url_pattern : regex :=
  cat [Str (txt "url("); Opt (One (OneOf quotes));
       Group 1 (cat [Plus (NoneOfNorSpace [dq; sq; ")"%char]);
                     Str (txt ".");
                     alts [cat [Str (txt "woff"); Opt (Str (txt "2"))];
                           Str (txt "ttf"); Str (txt "otf");
                           Str (txt "eot")]]);
       Opt (One (OneOf quotes)); Str (txt ")")].

(** [re.findall] for a pattern with one group: the texts of group 1. *)
Definition findall1 (r : regex) (s : str) : list str :=
  map (λ '(_, m), default [] (group m 1)) (finditer true r s).

(** [p.parent] *)
Definition path_parent (p : path) : path :=
  reverse (drop 1 (drop (length (path_name p)) (reverse p))).

(** [p.relative_to(base)]; [None] is the [ValueError]. *)
Definition relative_to (p base : path) : option path :=
  if decide (p = base) then Some (txt ".")
  else if startswith (base ++ txt "/") p
  then Some (drop (length base + 1) p) else None.

Section Extract.
(** [Path.resolve]: the absolute, normalised path, which depends on the
    working directory and the links of the file system. *)
Variable resolve : path → path.

(** The [href] of a font [url]. *)
Definition font_href (url : str) (css_file_path project_path : path)
  : str :=
  if startswith (txt "/") url then url
  else if startswith (txt "http") url then url
  else
    let css_dir := path_parent css_file_path in
    let resolved := resolve (path_join css_dir url) in
    match relative_to resolved (path_join project_path (txt "public")) with
    | Some rel => txt "/" ++ rel
    | None =>
        match relative_to resolved (path_join project_path (txt "src")) with
        | Some rel => txt "/" ++ rel
        | None => url
        end
    end.

Definition font_type_attr (url : str) : option str :=
  if contains (txt ".woff2") (lower url) then Some (txt "font/woff2")
  else if contains (txt ".woff") (lower url) then Some (txt "font/woff")
  else if contains (txt ".ttf") (lower url) then Some (txt "font/ttf")
  else None.

Definition font_reason : str :=
  txt "Font declared in CSS - preloading prevents FOIT/FOUT".

(** The inner loop, over the urls of one [@font-face] block.  The
    [source_file] is [css_file_path.relative_to(project_path)], which
    raises when the file is not below the project. *)
Fixpoint url_preloads (urls : list str) (css_file_path project_path : path)
  : option (list PreloadDirective) :=
  match urls with
  | [] => Some []
  | url :: rest =>
      let href := font_href url css_file_path project_path in
      let type_attr := font_type_attr url in
      source ← relative_to css_file_path project_path;
      more ← url_preloads rest css_file_path project_path;
      Some (MkPreload href (txt "font") type_attr true (txt "layout")
              source font_reason :: more)
  end.

(** The outer loop, over the [@font-face] blocks. *)
Fixpoint face_preloads (faces : list str) (css_file_path project_path : path)
  : option (list PreloadDirective) :=
  match faces with
  | [] => Some []
  | face_content :: rest =>
      let url_matches := findall1 url_pattern face_content in
      these ← url_preloads url_matches css_file_path project_path;
      more ← face_preloads rest css_file_path project_path;
      Some (these ++ more)
  end.

(** [extract_fonts_from_css]; [None] when it raises. *)
Definition extract_fonts_from_css (css_content : str)
    (css_file_path project_path : path) : option (list PreloadDirective) :=
  face_preloads (findall1 font_face_pattern css_content)
    css_file_path project_path.
End Extract.

(** The [<link>] tag of a directive. *)
Definition link_tag (p : PreloadDirective) : str :=
  let attrs :=
    [txt "rel=" ++ [dq] ++ txt "preload" ++ [dq];
     txt "href=" ++ [dq] ++ href p ++ [dq];
     txt "as=" ++ [dq] ++ as_type p ++ [dq]] in
  let attrs :=
    match type_attr p with
    | Some (c :: t) => attrs ++ [txt "type=" ++ [dq] ++ (c :: t) ++ [dq]]
    | _ => attrs
    end in
  let attrs := if crossorigin p then attrs ++ [txt "crossorigin"] else attrs in
  txt "<link " ++ join (txt " ") attrs ++ txt ">".

(** The state of the loop of [generate_preload_html]. *)
Record html_state := HtmlState {
  seen : gset str;
  layout_preloads : list str;
  page_preloads : list str
}.

Definition html_step (st : html_state) (p : PreloadDirective) : html_state :=
  if decide (href p ∈ seen st) then st
  else
    let seen' := {[href p]} ∪ seen st in
    let tag := link_tag p in
    if decide (scope p = txt "layout")
    then HtmlState seen' (layout_preloads st ++ [tag]) (page_preloads st)
    else HtmlState seen' (layout_preloads st) (page_preloads st ++ [tag]).

(** The dictionary [generate_preload_html] returns. *)
Record html := Html { layout : str; page : str }.

Definition generate_preload_html (preloads : list PreloadDirective) : html :=
  let st := foldl html_step (HtmlState ∅ [] []) preloads in
  Html (join [nl] (layout_preloads st)) (join [nl] (page_preloads st)).

(** ** [extract_critical_images_from_css] *)

Definition critical_selectors : list str :=
  [txt "hero"; txt "banner"; txt "header"; txt "masthead"; txt "jumbotron";
   txt "above-fold"; txt "splash"].

(** [rule_pattern]: group 1 with one or more characters other than an
    opening brace; an opening brace; group 2 with any characters but a
    closing brace, [background], an optional [-image], a colon, white space,
    [url(], an optional quote, group 3 with one or more characters that are
    neither quotes, [)] nor white space, an optional quote, [)], any
    characters but a closing brace; a closing brace. *)
Definition rule_pattern : regex :=
  cat [Group 1 (Plus (NoneOf ["{"%char]));
       Str (txt "{");
       Group 2 (cat [Star (NoneOf ["}"%char]); Str (txt "background");
                     Opt (Str (txt "-image")); Str (txt ":"); Star Space;
                     Str (txt "url("); Opt (One (OneOf quotes));
                     Group 3 (Plus (NoneOfNorSpace [dq; sq; ")"%char]));
                     Opt (One (OneOf quotes)); Str (txt ")");
                     Star (NoneOf ["}"%char])]);
       Str (txt "}")].

(** The [href] of an image [url]. *)
Definition image_href (url : str) : str :=
  if startswith (txt "/") url then url
  else if startswith (txt "http") url then url
  else txt "/" ++ url.

Definition image_reason (selector : str) : str :=
  txt "Critical background image in CSS selector: " ++ take 50 (strip selector).

(** The loop over the rules with a background image. *)
Fixpoint critical_preloads (matches : list (nat * mobj))
    (css_file_path project_path : path) : option (list PreloadDirective) :=
  match matches with
  | [] => Some []
  | (_, m) :: rest =>
      let selector := lower (default [] (group m 1)) in
      let url := default [] (group m 3) in
      let is_critical := any_in critical_selectors selector in
      if is_critical && negb (startswith (txt "data:") url) then
        let href := image_href url in
        source ← relative_to css_file_path project_path;
        more ← critical_preloads rest css_file_path project_path;
        Some (MkPreload href (txt "image") None false
                (if contains (txt "header") selector
                 then txt "layout" else txt "page")
                source (image_reason selector) :: more)
      else critical_preloads rest css_file_path project_path
  end.

(** [extract_critical_images_from_css]; [None] when it raises. *)
Definition extract_critical_images_from_css (css_content : str)
    (css_file_path project_path : path) : option (list PreloadDirective) :=
  critical_preloads (finditer true rule_pattern css_content)
    css_file_path project_path.

(** ** [analyze_page_specific_resources] *)

(** An attribute [name] with a quoted value that holds one of [hero],
    [banner] and [featured]. *)
Definition hero_attribute (name : str) : regex :=
  cat [Str name; One (OneOf quotes); Star (NoneOf quotes);
       alts [Str (txt "hero"); Str (txt "banner"); Str (txt "featured")];
       Star (NoneOf quotes); One (OneOf quotes)].

(** [hero_img_pattern]: [<img], any characters but [>], such a [class] or
    [id] attribute, any characters but [>], [src=], a quote, group 1 with
    one or more characters other than quotes, a quote, any characters but
    [>], and [>]. *)
Definition hero_img_pattern : regex :=
  cat [Str (txt "<img"); Star (NoneOf [">"%char]);
       Alt (hero_attribute (txt "class=")) (hero_attribute (txt "id="));
       Star (NoneOf [">"%char]); Str (txt "src="); One (OneOf quotes);
       Group 1 (Plus (NoneOf quotes)); One (OneOf quotes);
       Star (NoneOf [">"%char]); Str (txt ">")].

Definition page_reason : str := txt "Hero/banner image on this page".

(** The loop over the hero images of a page. *)
Fixpoint hero_image_preloads (matches : list (nat * mobj))
    (astro_file project_path : path) : option (list PreloadDirective) :=
  match matches with
  | [] => Some []
  | (_, m) :: rest =>
      let src := default [] (group m 1) in
      if negb (startswith (txt "data:") src) then
        source ← relative_to astro_file project_path;
        more ← hero_image_preloads rest astro_file project_path;
        Some (MkPreload (if startswith (txt "/") src then src
                         else txt "/" ++ src)
                (txt "image") None false (txt "page") source page_reason
              :: more)
      else hero_image_preloads rest astro_file project_path
  end.

(** [analyze_page_specific_resources]; [None] when it raises. *)
Definition analyze_page_specific_resources (astro_file project_path : path)
    (w : world) : option (list PreloadDirective) :=
  match read_text astro_file w with
  | inl _ => None
  | inr content =>
      hero_image_preloads (finditer true hero_img_pattern content)
        astro_file project_path
  end.

(** ** [analyze_project] *)

Record Summary := MkSummary {
  total_preloads : nat;
  layout_scope : nat;
  page_scope : nat;
  fonts : nat;
  images : nat
}.

(** The dictionary [analyze_project] returns; [page_specific] in the order
    of insertion. *)
Record Report := MkReport {
  preloads : list PreloadDirective;
  page_specific : list (path * list PreloadDirective);
  generated_html : html;
  summary : Summary
}.

(** [d[k] = v] on a dictionary kept in insertion order. *)
Fixpoint dict_set {V} (k : path) (v : V) (d : list (path * V))
  : list (path * V) :=
  match d with
  | [] => [(k, v)]
  | (k', v') :: d' => if decide (k' = k) then (k', v) :: d'
                      else (k', v') :: dict_set k v d'
  end.

Section AnalyzeProject.
Variable resolve : path → path.
(** The resolved project path. *)
Variable project : path.

(** The body of the loop over the style sheets, for the file
    [src_path / rel]: what was gathered before an exception stays. *)
Definition css_step (w : world) (all_preloads : list PreloadDirective)
    (rel : path) : list PreloadDirective :=
  let css_file := path_join (path_join project (txt "src")) rel in
  match read_text css_file w with
  | inl _ => all_preloads
  | inr content =>
      match extract_fonts_from_css resolve content css_file project with
      | None => all_preloads
      | Some found =>
          let all_preloads := all_preloads ++ found in
          match extract_critical_images_from_css content css_file project with
          | None => all_preloads
          | Some found => all_preloads ++ found
          end
      end
  end.

(** The body of the loop over the pages, for the file
    [src_path / 'pages' / rel]. *)
Definition page_step (w : world)
    (page_specific : list (path * list PreloadDirective)) (rel : path)
  : list (path * list PreloadDirective) :=
  let page_file :=
    path_join (path_join (path_join project (txt "src")) (txt "pages")) rel in
  match analyze_page_specific_resources page_file project w with
  | None => page_specific
  | Some [] => page_specific
  | Some (p :: ps) =>
      match relative_to page_file project with
      | None => page_specific
      | Some key => dict_set key (p :: ps) page_specific
      end
  end.

(** [analyze_project], given what the [rglob] calls yield: the style sheets
    ([*.css], then [*.scss]) below [src_path], and the pages below
    [src_path / 'pages'] ([None]: there is no such directory). *)
Definition analyze_project (css_files : list path)
    (page_files : option (list path)) (w : world) : Report :=
  let all_preloads := foldl (css_step w) [] css_files in
  let page_specific := foldl (page_step w) [] (default [] page_files) in
  let html := generate_preload_html all_preloads in
  MkReport all_preloads page_specific html
    (MkSummary (length all_preloads)
       (length (List.filter (λ p, bool_decide (scope p = txt "layout"))
                  all_preloads))
       (length (List.filter (λ p, bool_decide (scope p = txt "page"))
                  all_preloads))
       (length (List.filter (λ p, bool_decide (as_type p = txt "font"))
                  all_preloads))
       (length (List.filter (λ p, bool_decide (as_type p = txt "image"))
                  all_preloads))).
End AnalyzeProject.

End Preloads.

(* ===================================================================== *)
(** * Notions used by the properties *)
(* ===================================================================== *)

(** [grows t (out, ch)]: either nothing was logged and the text is [t], or
    something was logged and the text is longer than [t]. *)
Definition grows {C} (t : str) (res : str * list C) : Prop :=
  (snd res = [] ∧ fst res = t) ∨ (snd res ≠ [] ∧ length t < length (fst res)).

(** The patterns without a capture group. *)
Fixpoint group_free (r : regex) : bool :=
  match r with
  | Eps | One _ | Str _ | Star _ | Plus _ => true
  | Seq r1 r2 | Alt r1 r2 => group_free r1 && group_free r2
  | Opt r1 => group_free r1
  | Group _ _ => false
  end.

(** The five ways [optimize_file] ends, with the result and the world it
    leaves. *)
Inductive optimize_outcome (f bd : path) (risky : bool) (w : world)
  : transform_result * world → Prop :=
| Unreadable e :
    read_text f w = inl e →
    optimize_outcome f bd risky w (TransformResult f [] None (Some e), w)
| Unchanged original :
    read_text f w = inr original →
    apply_rules (lower (path_suffix f)) risky original = (original, []) →
    optimize_outcome f bd risky w (TransformResult f [] None None, w)
| BackupFailed original content ch e w1 :
    read_text f w = inr original →
    apply_rules (lower (path_suffix f)) risky original = (content, ch) →
    content ≠ original → ch ≠ [] →
    backup_file f bd w = (inl e, w1) →
    optimize_outcome f bd risky w (TransformResult f [] None (Some e), w1)
| WriteFailed original content ch b e w1 :
    read_text f w = inr original →
    apply_rules (lower (path_suffix f)) risky original = (content, ch) →
    content ≠ original → ch ≠ [] →
    backup_file f bd w = (inr b, w1) →
    fault w (OpWrite f) = Some e →
    optimize_outcome f bd risky w
      (TransformResult f [] (Some b) (Some e), tear f w1)
| Written original content ch b w1 :
    read_text f w = inr original →
    apply_rules (lower (path_suffix f)) risky original = (content, ch) →
    content ≠ original → ch ≠ [] →
    backup_file f bd w = (inr b, w1) →
    fault w (OpWrite f) = None →
    optimize_outcome f bd risky w
      (TransformResult f ch (Some b) None,
       set_files (<[f := content]> (files w1)) w1).

(** The number of positions of [hay] at which [needle] starts. *)
Fixpoint occurrences (needle hay : str) : nat :=
  (if startswith needle hay then 1 else 0) +
  match hay with
  | [] => 0
  | _ :: hay' => occurrences needle hay'
  end.

(** The count of the specification: one pass over the findings that adds
    one for each finding with the attribute. *)
Definition count_where {A} (p : A → bool) (l : list A) : nat :=
  foldl (λ n x, if p x then S n else n) 0 l.

(** The directives that are the first with their [href], given the hrefs
    [seen] so far. *)
Fixpoint first_by_href (seen : list str) (ps : list Preloads.PreloadDirective)
  : list Preloads.PreloadDirective :=
  match ps with
  | [] => []
  | p :: ps' =>
      if decide (Preloads.href p ∈ seen) then first_by_href seen ps'
      else p :: first_by_href (Preloads.href p :: seen) ps'
  end.

(** The directives of scope [layout]. *)
Definition is_layout (p : Preloads.PreloadDirective) : bool :=
  bool_decide (Preloads.scope p = txt "layout").

(** The number of findings in [fs] of the rule [ty] for the file [file]. *)
Definition findings_of (ty : str) (file : path) (fs : list Analyze.Finding)
  : nat :=
  length (List.filter
            (λ f, bool_decide (Analyze.type f = ty)
                  && bool_decide (Analyze.file f = file)) fs).

(** The number of findings in [fs] with the key [k]. *)
Definition js_findings_of (k : str * path)
    (fs : list DetectJs.JsToHtmlCssFinding) : nat :=
  length (List.filter (λ f, bool_decide (DetectJs.key f = k)) fs).

(** A character no other character folds to. *)
Definition unfolded (t : ascii) : Prop := ∀ c, lower_char c = t → c = t.

(** The openings of an image tag: [<img] in any case. *)
Definition img_opening (pfx : str) : Prop := lower pfx = txt "<img".

(** The openings of a font rule: [@font-face] in any case, white space, and
    the opening brace. *)
Definition font_face_opening (pfx : str) : Prop :=
  ∃ h ws, pfx = h ++ ws ++ txt "{" ∧ lower h = txt "@font-face"
          ∧ Forall (λ c, in_class true Space c = true) ws.

(** What [optimize_project] keeps while it goes through the files. *)
Definition totals_agree (results : project_results) : Prop :=
  pr_total_changes results =
    sum_list (map (λ e, length (me_changes e)) (pr_files_modified results))
  ∧ Forall (λ e, me_changes e ≠ [] ∧ is_Some (me_backup e))
           (pr_files_modified results)
  ∧ map me_file (pr_files_modified results)
      `sublist_of` pr_files_processed results.

(** A finding with one of the three severities and one of the two risks
    the summary counts. *)
Definition graded (f : Analyze.Finding) : Prop :=
  Analyze.severity f ∈ [txt "high"; txt "medium"; txt "low"]
  ∧ Analyze.risk f ∈ [txt "safe"; txt "risky"].

(** A directive as the summary of [generate_preloads.py] counts it: of
    scope [layout] or [page], and a font or an image. *)
Definition counted (p : Preloads.PreloadDirective) : Prop :=
  (Preloads.scope p = txt "layout" ∨ Preloads.scope p = txt "page")
  ∧ (Preloads.as_type p = txt "font" ∨ Preloads.as_type p = txt "image").

(** The text the rules that are not risky make of [content], for a file
    with the lower-cased suffix [suffix]: the hero rule, the lazy rule and
    the decoding rule, in this order, for a page; the font rule for a style
    sheet. *)
Definition safe_text (suffix : str) (content : str) : str :=
  if decide (suffix = txt ".astro") then
    fst (add_decoding_async_to_images
           (fst (add_loading_lazy_to_images
                   (fst (add_fetchpriority_to_hero_images content)))))
  else if bool_decide (suffix ∈ [txt ".css"; txt ".scss"]) then
    fst (add_font_display_swap content)
  else content.

(** The text all rules make of it: on a page the risky rule comes last. *)
Definition risky_text (suffix : str) (content : str) : str :=
  if decide (suffix = txt ".astro") then
    fst (add_defer_to_external_scripts (safe_text suffix content))
  else safe_text suffix content.

(** The rules that report every offending tag of a file. *)
Definition per_tag_rules : list str :=
  [txt "image_cls"; txt "script_blocking"].

(** Findings of the rules [rules], with at most one finding for a file and
    a rule that is not reported per tag. *)
Definition once_per_file (rules : list str) (fs : list Analyze.Finding)
  : Prop :=
  Forall (λ f, Analyze.type f ∈ rules) fs
  ∧ ∀ ty file, ty ∉ per_tag_rules → findings_of ty file fs ≤ 1.

(* ===================================================================== *)
(** * Example inputs *)
(* ===================================================================== *)

(** Nothing fails, and a failed write leaves its target as it was. *)
Definition no_fault : op → option error := λ _, None.
Definition no_torn : path → option str := λ _, None.

(** The tag of the scenario: an image with a source and nothing else. *)
Definition img_tag : str :=
  txt "<img src=" ++ [dq] ++ txt "/a.png" ++ [dq] ++ txt ">".

(** The tag of the scenario after the safe rules. *)
Definition img_tag_fixed : str :=
  txt "<img src=" ++ [dq] ++ txt "/a.png" ++ [dq]
  ++ loading_attr ++ decoding_attr ++ txt ">".

(** A project, a page of it, and a clock that stands still. *)
Definition site : path := txt "/site".
Definition index_astro : path := txt "pages/index.astro".
Definition noon : nat → str := λ _, txt "20240101_120000".

(** One page with the tag, nothing fails. *)
Definition scenario_world : world :=
  World {[ path_join (src_path site) index_astro := img_tag ]}
    noon 0 no_fault no_torn.

Definition permission_denied : error := txt "[Errno 13] Permission denied".

(** The same page, not writable. *)
Definition readonly_world : world :=
  World {[ path_join (src_path site) index_astro := img_tag ]}
    noon 0
    (λ o, match o with
          | OpWrite _ => Some permission_denied
          | _ => None
          end)
    no_torn.

(** The same page, with a backup directory that cannot be created. *)
Definition no_backup_world : world :=
  World {[ path_join (src_path site) index_astro := img_tag ]}
    noon 0
    (λ o, match o with
          | OpMkdir _ => Some permission_denied
          | _ => None
          end)
    no_torn.

(** A style sheet with one font. *)
Definition font_css : str := txt "@font-face{src:url('/f.woff2')}".

(** A page with two images. *)
Definition two_img_page : str :=
  txt "<img src=" ++ [dq] ++ txt "/a.png" ++ [dq] ++ txt ">"
  ++ txt "<img src=" ++ [dq] ++ txt "/b.png" ++ [dq] ++ txt ">".

Definition two_img_world : world :=
  World {[ path_join (src_path site) index_astro := two_img_page ]}
    noon 0 no_fault no_torn.

(** Two pages with the same file name in two directories; the clock shows
    the same second at every call. *)
Definition page_a : path := txt "a/index.astro".
Definition page_b : path := txt "b/index.astro".

Definition img_tag_b : str :=
  txt "<img src=" ++ [dq] ++ txt "/b.png" ++ [dq] ++ txt ">".

Definition twin_world : world :=
  World {[ path_join (src_path site) page_a := img_tag;
           path_join (src_path site) page_b := img_tag_b ]}
    noon 0 no_fault no_torn.

Definition twin_backup : path :=
  txt "/site/.astro-optimizer-backups/index.astro.20240101_120000.bak".

(** An [id] attribute whose value holds a [>]. *)
Definition lcp_attr : str := txt "id=" ++ [dq] ++ txt "lcp>" ++ [dq].

(** An [Image] tag and two [img] tags with such attributes, before and
    after one and two applications of [add_fetchpriority_to_hero_images]. *)
Definition nested_hero_text : str :=
  txt "<Image " ++ lcp_attr ++ txt " <img " ++ lcp_attr
  ++ txt "fetchpriority<img " ++ lcp_attr ++ txt ">".

Definition nested_hero_once : str :=
  txt "<Image " ++ lcp_attr ++ txt " <img id=" ++ [dq] ++ txt "lcp"
  ++ fetchpriority_attr ++ txt ">" ++ [dq]
  ++ txt "fetchpriority<img " ++ lcp_attr ++ txt ">".

Definition nested_hero_twice : str :=
  txt "<Image " ++ lcp_attr ++ txt " <img id=" ++ [dq] ++ txt "lcp"
  ++ fetchpriority_attr ++ txt ">" ++ [dq]
  ++ txt "fetchpriority<img " ++ lcp_attr ++ fetchpriority_attr ++ txt ">".

(** A style sheet with one font, nothing fails. *)
Definition fonts_css : path := txt "styles/fonts.css".

Definition stylesheet_world : world :=
  World {[ path_join (src_path site) fonts_css := font_css ]}
    noon 0 no_fault no_torn.

(** An image marked as the hero of its page. *)
Definition hero_tag : str :=
  txt "<img class=" ++ [dq] ++ txt "hero" ++ [dq] ++ txt " src=" ++ [dq]
  ++ txt "/a.png" ++ [dq] ++ txt ">".

(** A project with a configuration that sets nothing. *)
Definition astro_config : path := txt "astro.config.mjs".

Definition config_world : world :=
  World {[ path_join site astro_config := txt "export default {};" ]}
    noon 0 no_fault no_torn.

(** A style sheet with a background image for the hero of a page. *)
Definition hero_css : str := txt ".hero{background:url(img/a.png)}".

(** A page with a hero image from another site. *)
Definition hero_page : str :=
  txt "<img class='hero' src='http://cdn.example/a.png'>".

Definition hero_page_world : world :=
  World {[ txt "/site/src/pages/index.astro" := hero_page ]}
    noon 0 no_fault no_torn.

(** A page with a script from another site, and the page after the risky
    rule. *)
Definition script_page : str :=
  txt "<script src=" ++ [dq] ++ txt "https://cdn.example.com/lib.js" ++ [dq]
  ++ txt "></script>".

Definition script_page_deferred : str :=
  txt "<script src=" ++ [dq] ++ txt "https://cdn.example.com/lib.js" ++ [dq]
  ++ txt " defer></script>".

Definition script_world : world :=
  World {[ path_join (src_path site) index_astro := script_page ]}
    noon 0 no_fault no_torn.

(** Two pages, and a backup of the first that is there already and cannot
    be overwritten: the copy to it fails. *)
Definition about_astro : path := txt "pages/about.astro".

Definition stale_backup : path :=
  txt "/site/.astro-optimizer-backups/index.astro.20240101_120000.bak".

Definition stale_backup_world : world :=
  World {[ path_join (src_path site) index_astro := img_tag;
           path_join (src_path site) about_astro := img_tag_b;
           stale_backup := txt "old" ]}
    noon 0
    (λ o, match o with
          | OpCopy _ dst =>
              if bool_decide (dst = stale_backup)
              then Some permission_denied else None
          | _ => None
          end)
    no_torn.

(** The second page after the safe rules. *)
Definition img_tag_b_fixed : str :=
  txt "<img src=" ++ [dq] ++ txt "/b.png" ++ [dq]
  ++ loading_attr ++ decoding_attr ++ txt ">".

(** A page with two scripts from another site. *)
Definition two_script_page : str :=
  txt "<script src=" ++ [dq] ++ txt "https://cdn.example.com/a.js" ++ [dq]
  ++ txt "></script>"
  ++ txt "<script src=" ++ [dq] ++ txt "https://cdn.example.com/b.js" ++ [dq]
  ++ txt "></script>".

Definition two_script_world : world :=
  World {[ path_join (src_path site) index_astro := two_script_page ]}
    noon 0 no_fault no_torn.

(** The scan of a project with one page and nothing else. *)
Definition one_page_scan : Analyze.scan :=
  Analyze.Scan [index_astro] [] [] [] [] None [].

(** The page of the scenario, in a project where no file can be read. *)
Definition unreadable_world : world :=
  World {[ path_join (src_path site) index_astro := img_tag ]}
    noon 0
    (λ o, match o with
          | OpRead _ => Some permission_denied
          | _ => None
          end)
    no_torn.

(* ===================================================================== *)
(** * The matcher and [re.sub]: general facts *)
(* ===================================================================== *)

Section ReFacts.
Variable ic : bool.

Lemma run_str_sound {R} (p s : str) (k : str → option R) x :
  run_str ic p s k = Some x →
  ∃ pre s', s = pre ++ s' ∧ length pre = length p ∧ k s' = Some x.
Proof.
  revert s. induction p as [|a p IH]; intros s H; simpl in H.
  - exists [], s. auto.
  - destruct s as [|b s]; [discriminate|].
    destruct (char_eqb ic a b); [|discriminate].
    destruct (IH _ H) as (pre & s' & -> & Hl & Hk).
    exists (b :: pre), s'. simpl. auto.
Qed.

Lemma run_star_sound {R} cl (s : str) (k : str → option R) x :
  run_star ic cl s k = Some x →
  ∃ pre s', s = pre ++ s' ∧ k s' = Some x.
Proof.
  induction s as [|c s IH]; simpl; intros H.
  - exists [], []. auto.
  - destruct (in_class ic cl c).
    + destruct (run_star ic cl s k) as [y|] eqn:E.
      * injection H as ->. destruct (IH eq_refl) as (pre & s' & -> & Hk).
        exists (c :: pre), s'. auto.
      * exists [], (c :: s). auto.
    + exists [], (c :: s). auto.
Qed.

(** A successful run ends in its continuation, on a suffix of the text. *)
Lemma run_sound {R} r (s : str) caps (k : str → captures → option R) x :
  run ic r s caps k = Some x →
  ∃ pre s' caps', s = pre ++ s' ∧ k s' caps' = Some x.
Proof.
  revert s caps k.
  induction r as [|cl|p|r1 IH1 r2 IH2|r1 IH1 r2 IH2|cl|cl|r1 IH1|n r1 IH1];
    intros s caps k H; simpl in H.
  - exists [], s, caps. auto.
  - destruct s as [|c s]; [discriminate|].
    destruct (in_class ic cl c); [|discriminate].
    exists [c], s, caps. auto.
  - destruct (run_str_sound _ _ _ _ H) as (pre & s' & -> & _ & Hk). eauto.
  - destruct (IH1 _ _ _ H) as (pre1 & s1 & caps1 & -> & H1).
    destruct (IH2 _ _ _ H1) as (pre2 & s2 & caps2 & -> & H2).
    exists (pre1 ++ pre2), s2, caps2. rewrite <- (assoc_L (++)). auto.
  - destruct (run ic r1 s caps k) as [y|] eqn:E.
    + injection H as ->. eauto.
    + eauto.
  - destruct (run_star_sound _ _ _ _ H) as (pre & s' & -> & Hk). eauto.
  - destruct s as [|c s]; [discriminate|].
    destruct (in_class ic cl c); [|discriminate].
    destruct (run_star_sound _ _ _ _ H) as (pre & s' & -> & Hk).
    exists (c :: pre), s', caps. auto.
  - destruct (run ic r1 s caps k) as [y|] eqn:E.
    + injection H as ->. eauto.
    + exists [], s, caps. auto.
  - destruct (IH1 _ _ _ H) as (pre & s' & caps' & -> & Hk). eauto.
Qed.

Lemma take_length_diff (pre s' : str) :
  take (length (pre ++ s') - length s') (pre ++ s') = pre.
Proof.
  rewrite length_app.
  replace (length pre + length s' - length s') with (length pre) by lia.
  apply take_app_length.
Qed.

(** The matched text is a prefix of the text searched. *)
Lemma match_here_prefix r (s : str) m :
  match_here ic r s = Some m → ∃ rest, s = group0 m ++ rest.
Proof.
  unfold match_here. intros H.
  destruct (run_sound _ _ _ _ _ H) as (pre & s' & caps' & -> & Hk).
  injection Hk as <-. simpl. rewrite take_length_diff. eauto.
Qed.

Section SubFacts.
Context {C : Type}.
Variable r : regex.
Variable repl : mobj → str * list C.

(** Skipping the rest of a match is scanning behind it. *)
Lemma sub_from_skip (n : nat) (s : str) :
  n ≤ length s → sub_from ic r repl n s = sub ic r repl (drop n s).
Proof.
  revert s. induction n as [|n IH]; intros s Hn.
  - rewrite drop_0. reflexivity.
  - destruct s as [|c s]; simpl in *; [lia|].
    apply IH. lia.
Qed.

(** No match at the head: the character is copied. *)
Lemma sub_cons_none c (s : str) :
  match_here ic r (c :: s) = None →
  sub ic r repl (c :: s) =
    (c :: fst (sub ic r repl s), snd (sub ic r repl s)).
Proof.
  intros H. unfold sub. simpl. rewrite H.
  destruct (sub_from ic r repl 0 s). reflexivity.
Qed.

(** A non-empty match at the head: it is replaced and the scan goes on
    behind it. *)
Lemma sub_match (s rest : str) m :
  match_here ic r s = Some m →
  group0 m ≠ [] →
  s = group0 m ++ rest →
  sub ic r repl s =
    (fst (repl m) ++ fst (sub ic r repl rest),
     snd (repl m) ++ snd (sub ic r repl rest)).
Proof.
  intros H Hne Hs. unfold sub at 1.
  destruct s as [|c s]; [by destruct (group0 m)|].
  simpl. rewrite H. destruct (repl m) as [out ch].
  destruct (group0 m) as [|c0 g] eqn:Eg; [done|].
  simpl. simpl in Hs. injection Hs as -> ->.
  rewrite sub_from_skip by (rewrite length_app; lia).
  rewrite drop_app_length.
  destruct (sub ic r repl rest). reflexivity.
Qed.

(** A text without any match is left as it is. *)
Lemma sub_nil :
  match_here ic r [] = None → sub ic r repl [] = ([], []).
Proof. intros H. unfold sub. simpl. by rewrite H. Qed.

(** A property of all logged changes. *)
Lemma sub_changes_Forall (P : C → Prop) :
  (∀ m, Forall P (snd (repl m))) →
  ∀ n (s : str), Forall P (snd (sub_from ic r repl n s)).
Proof.
  intros HP n s. revert n.
  induction s as [|c s IH]; intros [|n]; simpl; try done.
  - destruct (match_here ic r []) as [m|]; [|done].
    specialize (HP m). by destruct (repl m).
  - destruct (match_here ic r (c :: s)) as [m|].
    + specialize (HP m). destruct (repl m) as [out ch].
      destruct (length (group0 m)) as [|k].
      * specialize (IH 0). destruct (sub_from ic r repl 0 s).
        simpl in *. by apply Forall_app.
      * specialize (IH k). destruct (sub_from ic r repl k s).
        simpl in *. by apply Forall_app.
    + specialize (IH 0). by destruct (sub_from ic r repl 0 s).
Qed.
End SubFacts.
End ReFacts.

Lemma grows_app {C} (t1 t2 : str) (res1 res2 : str * list C) :
  grows t1 res1 → grows t2 res2 →
  grows (t1 ++ t2) (fst res1 ++ fst res2, snd res1 ++ snd res2).
Proof.
  unfold grows. simpl. rewrite !length_app.
  intros [[H1 H1']|[H1 H1']] [[H2 H2']|[H2 H2']].
  - left. rewrite H1, H2, H1', H2'. done.
  - right. rewrite H1, H1'. simpl. split; [done|lia].
  - right. rewrite H2'. split; [by destruct (snd res1)|lia].
  - right. split; [by destruct (snd res1)|lia].
Qed.

Lemma grows_compose {C} (t : str) (res1 res2 : str * list C) :
  grows t res1 → grows (fst res1) res2 →
  grows t (fst res2, snd res1 ++ snd res2).
Proof.
  unfold grows. intros [[H1 H1']|[H1 H1']] [[H2 H2']|[H2 H2']]; simpl.
  - left. rewrite H1, H2. split; [done|congruence].
  - right. rewrite H1. simpl. split; [done|]. by rewrite <- H1'.
  - right. split; [by destruct (snd res1)|]. by rewrite H2'.
  - right. split; [by destruct (snd res1)|]. lia.
Qed.

Lemma grows_changed {C} (t : str) (res : str * list C) :
  grows t res → (fst res ≠ t ↔ snd res ≠ []).
Proof.
  intros [[H1 H2]|[H1 H2]]; split; intros H; try done.
  intros E. rewrite E in H2. lia.
Qed.

Lemma grows_length {C} (t : str) (res : str * list C) :
  grows t res → length t ≤ length (fst res).
Proof. intros [[_ ->]|[_ H]]; lia. Qed.

Section SubGrows.
Context {C : Type}.
Variable ic : bool.
Variable r : regex.
Variable repl : mobj → str * list C.
Hypothesis repl_grows :
  ∀ (s : str) m, match_here ic r s = Some m → grows (group0 m) (repl m).

(** When every replacement only inserts, so does the substitution. *)
Lemma sub_grows (s : str) : grows s (sub ic r repl s).
Proof.
  remember (length s) as n eqn:Hn. revert s Hn.
  induction n as [n IH] using lt_wf_ind. intros s ->.
  destruct (match_here ic r s) as [m|] eqn:E.
  - destruct (match_here_prefix _ _ _ _ E) as [rest Hr].
    pose proof (repl_grows _ _ E) as Hg.
    destruct (group0 m) as [|c0 g] eqn:Eg.
    + (* an empty match *)
      simpl in Hr. subst rest. unfold sub.
      destruct s as [|c s]; simpl; rewrite E.
      * by destruct (repl m).
      * rewrite Eg. simpl.
        specialize (IH (length s) ltac:(simpl; lia) s eq_refl).
        unfold sub in IH.
        destruct (repl m) as [out ch].
        destruct (sub_from ic r repl 0 s) as [o2 c2].
        apply (grows_app [] (c :: s) (out, ch) (c :: o2, c2)); [done|].
        unfold grows in *. simpl in *.
        destruct IH as [[? ?]|[? ?]]; [left|right]; split; auto.
        -- congruence.
        -- lia.
    + rewrite (sub_match ic r repl s rest m E) by (rewrite ?Eg; done).
      rewrite Hr at 1.
      apply grows_app; [by destruct (repl m)|].
      apply (IH (length rest)); [|done].
      rewrite Hr, length_app. simpl. lia.
  - destruct s as [|c s].
    + rewrite sub_nil by done. by left.
    + rewrite sub_cons_none by done.
      specialize (IH (length s) ltac:(simpl; lia) s eq_refl).
      unfold grows in *. simpl.
      destruct IH as [[? ?]|[? ?]]; [left|right]; split; auto.
      * congruence.
      * lia.
Qed.
End SubGrows.

(** ** Patterns without groups, and the two groups of a hero pattern *)

(** A pattern without groups hands the captures on as they are. *)
Lemma run_group_free {R} ic r (s : str) caps
    (k : str → captures → option R) x :
  group_free r = true →
  run ic r s caps k = Some x →
  ∃ pre s', s = pre ++ s' ∧ k s' caps = Some x.
Proof.
  revert s caps k.
  induction r as [|cl|p|r1 IH1 r2 IH2|r1 IH1 r2 IH2|cl|cl|r1 IH1|n r1 IH1];
    intros s caps k Hgf H; simpl in H, Hgf.
  - exists [], s. auto.
  - destruct s as [|c s]; [discriminate|].
    destruct (in_class ic cl c); [|discriminate].
    exists [c], s. auto.
  - destruct (run_str_sound _ _ _ _ _ H) as (pre & s' & -> & _ & Hk). eauto.
  - apply andb_true_iff in Hgf as [G1 G2].
    destruct (IH1 _ _ _ G1 H) as (pre1 & s1 & -> & H1).
    destruct (IH2 _ _ _ G2 H1) as (pre2 & s2 & -> & H2).
    exists (pre1 ++ pre2), s2. rewrite <- (assoc_L (++)). auto.
  - apply andb_true_iff in Hgf as [G1 G2].
    destruct (run ic r1 s caps k) as [y|] eqn:E.
    + injection H as ->. eauto.
    + eauto.
  - destruct (run_star_sound _ _ _ _ _ H) as (pre & s' & -> & Hk). eauto.
  - destruct s as [|c s]; [discriminate|].
    destruct (in_class ic cl c); [|discriminate].
    destruct (run_star_sound _ _ _ _ _ H) as (pre & s' & -> & Hk).
    exists (c :: pre), s'. auto.
  - destruct (run ic r1 s caps k) as [y|] eqn:E.
    + injection H as ->. eauto.
    + exists [], s. auto.
  - discriminate.
Qed.

(** In a match of two groups in sequence, the groups make up the match. *)
Lemma two_groups ic A B (s : str) m :
  group_free A = true → group_free B = true →
  match_here ic (cat [Group 1 A; Group 2 B]) s = Some m →
  ∃ g1 g2, group0 m = g1 ++ g2 ∧ group m 1 = Some g1 ∧ group m 2 = Some g2.
Proof.
  intros GA GB. unfold match_here. simpl. intros H.
  apply run_group_free in H as (g1 & s1 & -> & H); [|done].
  apply run_group_free in H as (g2 & s2 & -> & H); [|done].
  injection H as <-. exists g1, g2. simpl.
  rewrite !take_length_diff. split; [|done].
  rewrite (assoc_L (++)). apply take_length_diff.
Qed.

Lemma hero_pattern_groups tg (s : str) m :
  match_here true (hero_pattern tg) s = Some m →
  ∃ g1 g2, group0 m = g1 ++ g2 ∧ group m 1 = Some g1 ∧ group m 2 = Some g2.
Proof. apply two_groups; reflexivity. Qed.

(** ** Every rule only inserts *)

Lemma length_drop_last n (t : str) : length (drop_last n t) = length t - n.
Proof. unfold drop_last. rewrite length_take. lia. Qed.

Lemma add_priority_grows desc (s : str) m :
  match_here true (hero_pattern (txt "<img")) s = Some m
  ∨ match_here true (hero_pattern (txt "<Image")) s = Some m →
  grows (group0 m) (add_priority desc m).
Proof.
  intros H.
  assert (∃ g1 g2, group0 m = g1 ++ g2 ∧ group m 1 = Some g1
                   ∧ group m 2 = Some g2) as (g1 & g2 & E0 & E1 & E2).
  { destruct H as [H|H]; eapply hero_pattern_groups; eauto. }
  unfold add_priority. rewrite E1, E2. simpl.
  destruct (contains _ _); simpl; [by left|].
  right. split; [done|]. simpl. rewrite E0, !length_app. simpl. lia.
Qed.

Lemma add_lazy_grows m : grows (group0 m) (add_lazy m).
Proof.
  unfold add_lazy.
  repeat (match goal with |- context [if ?b then _ else _] => destruct b end;
          try by left);
    right; (split; [done|]); simpl;
    rewrite !length_app, length_drop_last; simpl; lia.
Qed.

Lemma add_decoding_grows m : grows (group0 m) (add_decoding m).
Proof.
  unfold add_decoding.
  repeat (match goal with |- context [if ?b then _ else _] => destruct b end;
          try by left);
    right; (split; [done|]); simpl;
    rewrite !length_app, length_drop_last; simpl; lia.
Qed.

Lemma add_display_grows m : grows (group0 m) (add_display m).
Proof.
  unfold add_display. destruct (contains _ _); [by left|].
  right. split; [done|]. simpl.
  rewrite !length_app, length_drop_last. simpl. lia.
Qed.

Lemma add_defer_grows m : grows (group0 m) (add_defer m).
Proof.
  unfold add_defer. destruct (_ || _); [by left|].
  right. split; [done|]. simpl.
  rewrite !length_app, length_drop_last. simpl. lia.
Qed.

(** The two passes of [add_fetchpriority_to_hero_images]. *)
Lemma add_fetchpriority_unfold (content : str) :
  add_fetchpriority_to_hero_images content =
    let r1 := sub true (hero_pattern (txt "<img"))
                (add_priority (txt "hero/banner class")) content in
    let r2 := sub true (hero_pattern (txt "<Image"))
                (add_priority (txt "Astro Image component")) (fst r1) in
    (fst r2, snd r1 ++ snd r2).
Proof.
  unfold add_fetchpriority_to_hero_images, hero_patterns. cbn [foldl].
  destruct (sub true (hero_pattern (txt "<img")) _ content) as [c1 ch1].
  cbn [fst snd].
  destruct (sub true (hero_pattern (txt "<Image")) _ c1) as [c2 ch2].
  reflexivity.
Qed.

Lemma add_fetchpriority_grows (content : str) :
  grows content (add_fetchpriority_to_hero_images content).
Proof.
  rewrite add_fetchpriority_unfold. cbn zeta.
  apply grows_compose.
  - apply sub_grows. intros s m H. eapply add_priority_grows. eauto.
  - apply sub_grows. intros s m H. eapply add_priority_grows. eauto.
Qed.

Lemma add_loading_lazy_grows (content : str) :
  grows content (add_loading_lazy_to_images content).
Proof. apply sub_grows. intros _ m _. apply add_lazy_grows. Qed.

Lemma add_decoding_async_grows (content : str) :
  grows content (add_decoding_async_to_images content).
Proof. apply sub_grows. intros _ m _. apply add_decoding_grows. Qed.

Lemma add_font_display_grows (content : str) :
  grows content (add_font_display_swap content).
Proof. apply sub_grows. intros _ m _. apply add_display_grows. Qed.

Lemma add_defer_rule_grows (content : str) :
  grows content (add_defer_to_external_scripts content).
Proof. apply sub_grows. intros _ m _. apply add_defer_grows. Qed.

(** The rules of a file, in sequence, only insert. *)
Lemma apply_rules_grows suffix risky (content : str) :
  grows content (apply_rules suffix risky content).
Proof.
  unfold apply_rules.
  destruct (decide (suffix = txt ".astro")) as [_|_].
  - pose proof (add_fetchpriority_grows content) as H1.
    destruct (add_fetchpriority_to_hero_images content) as [c1 ch1].
    pose proof (add_loading_lazy_grows c1) as H2.
    destruct (add_loading_lazy_to_images c1) as [c2 ch2].
    pose proof (add_decoding_async_grows c2) as H3.
    destruct (add_decoding_async_to_images c2) as [c3 ch3].
    pose proof (grows_compose content (c1, ch1) (c2, ch2) H1 H2) as H12.
    pose proof (grows_compose content (c2, ch1 ++ ch2) (c3, ch3) H12 H3)
      as H123.
    destruct risky.
    + pose proof (add_defer_rule_grows c3) as H4.
      destruct (add_defer_to_external_scripts c3) as [c4 ch4].
      apply (grows_compose content (c3, (ch1 ++ ch2) ++ ch3) (c4, ch4));
        done.
    + done.
  - destruct (bool_decide _).
    + pose proof (add_font_display_grows content) as H1.
      by destruct (add_font_display_swap content).
    + by left.
Qed.

(* ===================================================================== *)
(** * Paths and backups: general facts *)
(* ===================================================================== *)

Lemma before_char_prefix c (s : str) :
  ∃ rest, s = before_char c s ++ rest
          ∧ (c ∈ s → ∃ rest', rest = c :: rest').
Proof.
  induction s as [|x s (rest & IH & IHc)]; simpl.
  - exists []. split; [done|]. intros H. by apply elem_of_nil in H.
  - destruct (decide (x = c)) as [->|Hne].
    + exists (c :: s). split; [done|]. eauto.
    + exists rest. split; [simpl; by f_equal|].
      intros H. apply elem_of_cons in H as [->|H]; [done|auto].
Qed.

(** The suffix of a path, when it has one, ends the path. *)
Lemma path_suffix_ends (p : path) :
  path_suffix p ≠ [] → ∃ pre, p = pre ++ path_suffix p.
Proof.
  unfold path_suffix.
  destruct (bool_decide ("."%char ∈ path_name p)) eqn:Hdot; simpl; [|done].
  destruct (0 <? _); simpl; [|done].
  destruct (0 <? _); [|done]. intros _.
  apply bool_decide_eq_true in Hdot.
  destruct (before_char_prefix "/" (reverse p)) as (r1 & E1 & _).
  destruct (before_char_prefix "." (reverse (path_name p))) as (r2 & E2 & Hc).
  destruct Hc as [r3 ->]; [by apply elem_of_reverse|].
  apply (f_equal reverse) in E1, E2.
  rewrite reverse_involutive, reverse_app in E1.
  rewrite reverse_involutive, reverse_app, reverse_cons in E2.
  fold (path_name p) in E1.
  exists (reverse r1 ++ reverse r3).
  rewrite E1 at 1. rewrite E2 at 1.
  by rewrite <- !(assoc_L (++)).
Qed.

Lemma last_lower (s : str) : last (lower s) = lower_char <$> last s.
Proof.
  induction s as [|c [|d s] IH]; [done..|].
  change (last (lower (c :: d :: s))) with (last (lower (d :: s))).
  by rewrite IH.
Qed.

(** A file the rules can change ends in [o] or [s], in either case. *)
Lemma rewritable_last suffix risky (content : str) (p : path) :
  suffix = lower (path_suffix p) →
  fst (apply_rules suffix risky content) ≠ content →
  ∃ c, last p = Some c ∧ (lower_char c = "o"%char ∨ lower_char c = "s"%char).
Proof.
  intros Hs Hne.
  assert (last suffix = Some "o"%char ∨ last suffix = Some "s"%char) as Hl.
  { unfold apply_rules in Hne.
    destruct (decide (suffix = txt ".astro")) as [->|_]; [by left|].
    destruct (bool_decide (suffix ∈ [txt ".css"; txt ".scss"])) eqn:E;
      [|done].
    apply bool_decide_eq_true in E.
    apply elem_of_cons in E as [->|E]; [by right|].
    apply elem_of_cons in E as [->|E]; [by right|].
    by apply elem_of_nil in E. }
  assert (path_suffix p ≠ []) as Hn.
  { intros E. rewrite E in Hs. subst suffix. by destruct Hl. }
  destruct (path_suffix_ends p Hn) as [pre Hp].
  rewrite Hs, last_lower in Hl.
  assert (last p = last (path_suffix p)) as ->.
  { rewrite Hp at 1. rewrite last_app.
    destruct (last (path_suffix p)) eqn:E; [done|].
    apply last_None in E. done. }
  destruct (last (path_suffix p)) as [c|]; simpl in Hl.
  - exists c. split; [done|]. destruct Hl as [H|H]; injection H; auto.
  - by destruct Hl.
Qed.

(** The path [backup_file] copies to ends in [k]. *)
Lemma backup_path_last (d name ts : str) :
  last (path_join d (name ++ txt "." ++ ts ++ txt ".bak")) = Some "k"%char.
Proof.
  unfold path_join. rewrite !(assoc_L (++)).
  change (txt ".bak") with (txt ".ba" ++ ["k"%char]).
  rewrite (assoc_L (++)). apply last_snoc.
Qed.

Lemma backup_path_fresh suffix risky (content : str) (p d ts : path) :
  suffix = lower (path_suffix p) →
  fst (apply_rules suffix risky content) ≠ content →
  path_join d (path_name p ++ txt "." ++ ts ++ txt ".bak") ≠ p.
Proof.
  intros Hs Hne E.
  destruct (rewritable_last _ _ _ _ Hs Hne) as (c & Hc & Hl).
  rewrite <- E, backup_path_last in Hc. injection Hc as <-.
  by destruct Hl.
Qed.

(** ** [backup_file] *)

Lemma backup_file_ok (f d : path) (w w1 : world) b :
  backup_file f d w = (inr b, w1) →
  ∃ c, files w !! f = Some c
       ∧ b = path_join d (path_name f ++ txt "." ++ now w (ticks w)
                            ++ txt ".bak")
       ∧ files w1 = <[b := c]> (files w)
       ∧ fault w1 = fault w ∧ torn w1 = torn w.
Proof.
  unfold backup_file, copy2, timestamp_now.
  destruct (fault w (OpMkdir d)); [done|]. simpl.
  destruct (files w !! f) as [c|]; [|done].
  destruct (fault w (OpCopy _ _)); [done|].
  intros H. injection H as <- <-. exists c. done.
Qed.

Lemma backup_file_failed (f d : path) (w w1 : world) e :
  backup_file f d w = (inl e, w1) →
  (∀ p, p ≠ path_join d (path_name f ++ txt "." ++ now w (ticks w)
                           ++ txt ".bak") →
        files w1 !! p = files w !! p).
Proof.
  unfold backup_file, copy2, timestamp_now, tear.
  destruct (fault w (OpMkdir d)); [by intros [= <- <-]|]. simpl.
  destruct (files w !! f) as [c|]; [|by intros [= <- <-]].
  destruct (fault w (OpCopy _ _)); [|done].
  destruct (torn w _); intros [= <- <-] p Hp; simpl; [|done].
  by rewrite lookup_insert_ne.
Qed.

(* ===================================================================== *)
(** * The ways [optimize_file] ends *)
(* ===================================================================== *)

Lemma optimize_file_outcome f bd risky w :
  optimize_outcome f bd risky w (optimize_file f bd risky w).
Proof.
  unfold optimize_file.
  destruct (read_text f w) as [e|original] eqn:Hread; [by constructor|].
  pose proof (apply_rules_grows (lower (path_suffix f)) risky original) as Hg.
  destruct (apply_rules _ risky original) as [content ch] eqn:Ha.
  destruct (decide (content ≠ original)) as [Hne|Heq].
  - assert (ch ≠ []) as Hch by (by apply (grows_changed _ _ Hg)).
    destruct (backup_file f bd w) as [[e|b] w1] eqn:Hb.
    + by econstructor.
    + destruct (backup_file_ok _ _ _ _ _ Hb) as (c & _ & _ & _ & Hf & _).
      unfold write_text. rewrite Hf.
      destruct (fault w (OpWrite f)) as [e|] eqn:Hw.
      * by econstructor.
      * by econstructor.
  - apply dec_stable in Heq. subst content.
    assert (ch = []) as ->.
    { destruct ch as [|c0 ch']; [done|].
      destruct (grows_changed _ _ Hg) as [_ H]. by destruct H. }
    by econstructor.
Qed.

Lemma read_text_ok (f : path) (w : world) c :
  read_text f w = inr c → files w !! f = Some c.
Proof.
  unfold read_text. destruct (fault w _); [done|].
  destruct (files w !! f); [|done]. by intros [= ->].
Qed.

(* ===================================================================== *)
(** * Backups and changes *)
(* ===================================================================== *)

(** C1, as stated, fails: when the page cannot be written, the result holds
    a backup and no changes. *)
Lemma backup_without_changes :
  let r := fst (optimize_file (path_join (src_path site) index_astro)
                  (backup_dir site) false readonly_world) in
  tr_backup r =
    Some (txt "/site/.astro-optimizer-backups/index.astro.20240101_120000.bak")
  ∧ tr_changes r = []
  ∧ tr_error r = Some permission_denied
  ∧ ¬ (is_Some (tr_backup r) ↔ tr_changes r ≠ []).
Proof.
  assert (fst (optimize_file (path_join (src_path site) index_astro)
                 (backup_dir site) false readonly_world) =
          TransformResult (path_join (src_path site) index_astro) []
            (Some (txt "/site/.astro-optimizer-backups/index.astro.20240101_120000.bak"))
            (Some permission_denied)) as E
    by (vm_compute; reflexivity).
  cbv zeta. rewrite E. simpl.
  split; [reflexivity|]. split; [reflexivity|]. split; [reflexivity|].
  intros [H _]. by destruct H.
Qed.

(** C1 (amended).  For every file [optimize_project] processes: when
    [optimize_file] returns without an error, its result has a backup if and
    only if it has changes; whenever it has changes it has a backup, no
    error, the backup file holds the original text, the file holds a
    different text, and the file is appended to [files_modified] with these
    changes and this backup; without changes the file is not appended, and
    without changes and error nothing on disk is touched. *)
Theorem backup_iff_changes_unless_error project risky results w rel :
  let f := path_join (src_path project) rel in
  let r := fst (optimize_file f (backup_dir project) risky w) in
  let w' := snd (optimize_file f (backup_dir project) risky w) in
  let results' := fst (process_file project risky (results, w) rel) in
  (tr_error r = None → (is_Some (tr_backup r) ↔ tr_changes r ≠ []))
  ∧ (tr_changes r ≠ [] →
       ∃ b original content,
         tr_backup r = Some b ∧ tr_error r = None
         ∧ files w !! f = Some original
         ∧ files w' !! b = Some original
         ∧ files w' !! f = Some content ∧ content ≠ original
         ∧ pr_files_modified results' =
             pr_files_modified results ++
               [ModifiedEntry (relative_to_project rel) (tr_changes r)
                  (Some b)])
  ∧ (tr_changes r = [] →
       pr_files_modified results' = pr_files_modified results)
  ∧ (tr_changes r = [] → tr_error r = None →
       tr_backup r = None ∧ w' = w).
Proof.
  intros f r w' results'.
  assert (pr_files_modified results' =
            pr_files_modified results ++
              match tr_changes r with
              | [] => []
              | _ :: _ => [ModifiedEntry (relative_to_project rel)
                             (tr_changes r) (tr_backup r)]
              end) as Hmod.
  { subst results' r f. unfold process_file.
    destruct (optimize_file _ _ risky w) as [r w1]. simpl.
    destruct (tr_changes r), (tr_error r) as [[|c e]|]; simpl;
      by rewrite ?app_nil_r. }
  subst r w'.
  destruct (optimize_file_outcome f (backup_dir project) risky w)
    as [e Hr|original Hr Ha|original content ch e w1 Hr Ha Hne Hch Hb
       |original content ch b e w1 Hr Ha Hne Hch Hb Hw
       |original content ch b w1 Hr Ha Hne Hch Hb Hw]; simpl in *.
  - split; [done|]. split; [done|]. split; [|done].
    intros _. by rewrite Hmod, app_nil_r.
  - split; [|split; [done|split]].
    + intros _. split; [by intros [? ?]|done].
    + intros _. by rewrite Hmod, app_nil_r.
    + done.
  - split; [done|]. split; [done|]. split; [|done].
    intros _. by rewrite Hmod, app_nil_r.
  - split; [done|]. split; [done|]. split; [|done].
    intros _. by rewrite Hmod, app_nil_r.
  - split; [done|]. split; [|by split]. intros _.
    destruct (backup_file_ok _ _ _ _ _ Hb) as (c & Hc & Eb & Hf & _).
    apply read_text_ok in Hr. rewrite Hr in Hc. injection Hc as <-.
    assert (b ≠ f) as Hbf.
    { rewrite Eb. eapply backup_path_fresh; [done|]. by rewrite Ha. }
    exists b, original, content. repeat split; try done.
    + rewrite lookup_insert_ne by done. rewrite Hf.
      by rewrite lookup_insert_eq.
    + by rewrite lookup_insert_eq.
    + rewrite Hmod. by destruct ch.
Qed.

(** The amended C1 at the page of the scenario. *)
Lemma backup_iff_changes_unless_error_witness :
  let f := path_join (src_path site) index_astro in
  let r := fst (optimize_file f (backup_dir site) false scenario_world) in
  tr_error r = None ∧ tr_changes r ≠ []
  ∧ (is_Some (tr_backup r) ↔ tr_changes r ≠ [])
  ∧ ∃ b original content,
      tr_backup r = Some b
      ∧ files scenario_world !! f = Some original
      ∧ files (snd (optimize_file f (backup_dir site) false scenario_world))
          !! b = Some original
      ∧ content ≠ original.
Proof.
  pose proof (backup_iff_changes_unless_error site false
                (ProjectResults site (backup_dir site) false [] [] 0 [])
                scenario_world index_astro) as (H1 & H2 & _).
  cbv zeta in *.
  assert (tr_error (fst (optimize_file (path_join (src_path site) index_astro)
                           (backup_dir site) false scenario_world)) = None)
    as He by (vm_compute; reflexivity).
  assert (tr_changes (fst (optimize_file (path_join (src_path site) index_astro)
                           (backup_dir site) false scenario_world)) ≠ [])
    as Hc by (vm_compute; discriminate).
  split; [exact He|]. split; [exact Hc|]. split; [exact (H1 He)|].
  destruct (H2 Hc) as (b & original & content & Hb & _ & Ho & Hb' & _ & Hn & _).
  exists b, original, content. auto.
Defined.

(* ===================================================================== *)
(** * A failing backup *)
(* ===================================================================== *)

Lemma process_file_processed project risky acc rel :
  pr_files_processed (fst (process_file project risky acc rel)) =
    pr_files_processed (fst acc) ++ [relative_to_project rel].
Proof.
  destruct acc as [results w]. unfold process_file.
  destruct (optimize_file _ _ risky w) as [r w1]. simpl.
  by destruct (tr_changes r), (tr_error r) as [[|c e]|].
Qed.

Lemma foldl_process_file_processed project risky rels acc :
  pr_files_processed (fst (foldl (process_file project risky) acc rels)) =
    pr_files_processed (fst acc) ++ map relative_to_project rels.
Proof.
  revert acc. induction rels as [|rel rels IH]; intros acc; simpl.
  - by rewrite app_nil_r.
  - rewrite IH, process_file_processed. by rewrite <- (assoc_L (++)).
Qed.

(** Every file the scan yields is processed, whatever fails on the way. *)
Lemma optimize_project_processes_all project risky astro css scss w :
  pr_files_processed
    (fst (optimize_project project risky astro css scss w)) =
  map relative_to_project (astro ++ css ++ scss).
Proof.
  unfold optimize_project.
  rewrite !foldl_process_file_processed. simpl. by rewrite !map_app, <- ?(assoc_L (++)).
Qed.

(* ===================================================================== *)
(** * Risk gating *)
(* ===================================================================== *)

Lemma sub_changes_all {C} ic r (repl : mobj → str * list C) (P : C → Prop)
    (s : str) :
  (∀ m, Forall P (snd (repl m))) → Forall P (snd (sub ic r repl s)).
Proof. intros H. by apply sub_changes_Forall. Qed.

Lemma add_priority_not_defer desc m :
  Forall (λ c, c ≠ defer_change) (snd (add_priority desc m)).
Proof.
  unfold add_priority. destruct (negb _); simpl; [|done].
  constructor; [|done]. intros E.
  apply (f_equal (take 7)) in E. vm_compute in E. discriminate.
Qed.

(** The safe rules never log the change of the risky rule. *)
Lemma safe_rules_not_defer suffix (content : str) :
  Forall (λ c, c ≠ defer_change) (snd (apply_rules suffix false content)).
Proof.
  unfold apply_rules.
  destruct (decide (suffix = txt ".astro")) as [_|_].
  - pose proof (add_fetchpriority_unfold content) as E1. cbv zeta in E1.
    destruct (add_fetchpriority_to_hero_images content) as [c1 ch1].
    assert (Forall (λ c, c ≠ defer_change) ch1) as H1.
    { injection E1 as _ ->. apply Forall_app. split;
        apply sub_changes_all; intros m; apply add_priority_not_defer. }
    assert (Forall (λ c, c ≠ defer_change)
              (snd (add_loading_lazy_to_images c1))) as H2.
    { apply sub_changes_all. intros m. unfold add_lazy.
      repeat (match goal with
              | |- context [if ?b then _ else _] => destruct b
              end; try done);
        (constructor; [|done]); intros E; vm_compute in E; discriminate. }
    destruct (add_loading_lazy_to_images c1) as [c2 ch2].
    assert (Forall (λ c, c ≠ defer_change)
              (snd (add_decoding_async_to_images c2))) as H3.
    { apply sub_changes_all. intros m. unfold add_decoding.
      repeat (match goal with
              | |- context [if ?b then _ else _] => destruct b
              end; try done);
        (constructor; [|done]); intros E; vm_compute in E; discriminate. }
    destruct (add_decoding_async_to_images c2) as [c3 ch3].
    simpl in *. by rewrite !Forall_app.
  - destruct (bool_decide _); [|done].
    assert (Forall (λ c, c ≠ defer_change)
              (snd (add_font_display_swap content))) as H.
    { apply sub_changes_all. intros m. unfold add_display.
      destruct (contains _ _); [done|].
      (constructor; [|done]); intros E; vm_compute in E; discriminate. }
    by destruct (add_font_display_swap content).
Qed.

(** The risky rule logs nothing but its own change. *)
Lemma defer_rule_changes (content : str) :
  Forall (λ c, c = defer_change)
    (snd (add_defer_to_external_scripts content)).
Proof.
  apply sub_changes_all. intros m. unfold add_defer.
  destruct (_ || _); [done|]. by constructor.
Qed.

(** With the flag on, the rules first do what they do with the flag off. *)
Lemma apply_rules_risky suffix (content : str) :
  ∃ extra,
    snd (apply_rules suffix true content) =
      snd (apply_rules suffix false content) ++ extra
    ∧ Forall (λ c, c = defer_change) extra
    ∧ grows (fst (apply_rules suffix false content))
        (fst (apply_rules suffix true content), extra).
Proof.
  unfold apply_rules.
  destruct (decide (suffix = txt ".astro")) as [_|_].
  - destruct (add_fetchpriority_to_hero_images content) as [c1 ch1].
    destruct (add_loading_lazy_to_images c1) as [c2 ch2].
    destruct (add_decoding_async_to_images c2) as [c3 ch3].
    pose proof (defer_rule_changes c3) as Hd.
    pose proof (add_defer_rule_grows c3) as Hg.
    destruct (add_defer_to_external_scripts c3) as [c4 ch4].
    exists ch4. done.
  - exists []. rewrite app_nil_r. split; [done|]. split; [done|]. by left.
Qed.

(* ===================================================================== *)
(** * The image scenario *)
(* ===================================================================== *)

(** C5.  For an [.astro] file that holds the tag [img_tag], in a world
    where nothing fails, [optimize_file] without the risky rules writes the
    tag with one [loading] attribute (and one [decoding] attribute) and logs
    exactly one change for the [loading] attribute (next to the one for
    [decoding]); run again on the result it logs no change, takes no backup
    and leaves the world as it is. *)
Theorem img_scenario f bd w :
  lower (path_suffix f) = txt ".astro" →
  files w !! f = Some img_tag →
  (∀ o, fault w o = None) →
  let run1 := optimize_file f bd false w in
  let run2 := optimize_file f bd false (snd run1) in
  tr_changes (fst run1) = [lazy_change; decoding_change]
  ∧ length (filter (λ c, c = lazy_change) (tr_changes (fst run1))) = 1
  ∧ files (snd run1) !! f = Some img_tag_fixed
  ∧ occurrences loading_attr img_tag = 0
  ∧ occurrences loading_attr img_tag_fixed = 1
  ∧ fst run2 = TransformResult f [] None None
  ∧ snd run2 = snd run1.
Proof.
  intros Hs Hf Hfault.
  assert (apply_rules (txt ".astro") false img_tag =
            (img_tag_fixed, [lazy_change; decoding_change])) as Ha
    by (vm_compute; reflexivity).
  assert (apply_rules (txt ".astro") false img_tag_fixed =
            (img_tag_fixed, [])) as Ha2
    by (vm_compute; reflexivity).
  assert (img_tag_fixed ≠ img_tag) as Hne by (vm_compute; discriminate).
  assert (optimize_file f bd false w =
            (TransformResult f [lazy_change; decoding_change]
               (Some (path_join bd (path_name f ++ txt "." ++ now w (ticks w)
                                      ++ txt ".bak")))
               None,
             World (<[f := img_tag_fixed]>
                      (<[path_join bd (path_name f ++ txt "."
                                         ++ now w (ticks w) ++ txt ".bak")
                         := img_tag]> (files w)))
               (now w) (S (ticks w)) (fault w) (torn w))) as E1.
  { unfold optimize_file, read_text. rewrite Hfault, Hf, Hs, Ha.
    destruct (decide (img_tag_fixed ≠ img_tag)); [|done].
    unfold backup_file, copy2, timestamp_now. simpl.
    rewrite !Hfault, Hf. unfold write_text. simpl. by rewrite Hfault. }
  cbv zeta. rewrite E1. simpl.
  split; [done|]. split; [by vm_compute|].
  split; [by rewrite lookup_insert_eq|].
  split; [by vm_compute|]. split; [by vm_compute|].
  unfold optimize_file, read_text. simpl.
  rewrite Hfault, lookup_insert_eq, Hs, Ha2.
  by destruct (decide (img_tag_fixed ≠ img_tag_fixed)).
Qed.

(** C5 at the page of the scenario. *)
Lemma img_scenario_witness :
  let f := path_join (src_path site) index_astro in
  let run1 := optimize_file f (backup_dir site) false scenario_world in
  tr_changes (fst run1) = [lazy_change; decoding_change]
  ∧ files (snd run1) !! f = Some img_tag_fixed
  ∧ fst (optimize_file f (backup_dir site) false (snd run1)) =
      TransformResult f [] None None.
Proof.
  pose proof (img_scenario (path_join (src_path site) index_astro)
                (backup_dir site) scenario_world) as H.
  cbv zeta in H.
  destruct H as (H1 & _ & H3 & _ & _ & H6 & _).
  - vm_compute. reflexivity.
  - vm_compute. reflexivity.
  - intros o. reflexivity.
  - split; [exact H1|]. split; [exact H3|exact H6].
Defined.

(* ===================================================================== *)
(** * The summary of [analyze.py] *)
(* ===================================================================== *)

Lemma foldl_count {A} (p : A → bool) (l : list A) n :
  foldl (λ n x, if p x then S n else n) n l = n + length (List.filter p l).
Proof.
  revert n. induction l as [|x l IH]; intros n; simpl; [lia|].
  rewrite IH. destruct (p x); simpl; lia.
Qed.

Lemma len_where_count p (fs : list Analyze.Finding) :
  Analyze.len_where p fs = count_where p fs.
Proof. unfold Analyze.len_where, count_where. by rewrite foldl_count. Qed.

(** C6.  The report of [analyze_project] has a summary, in which [total] is
    the number of findings, each severity bucket and each risk bucket the
    count of the findings with that severity or risk, and [auto_fixable] the
    count of the findings that are auto-fixable. *)
Theorem summary_counts_findings analyzers p w :
  let report := Analyze.analyze_project analyzers p w in
  ∃ s, Analyze.summary report = Some s
    ∧ Analyze.total s = length (Analyze.findings report)
    ∧ Analyze.high s =
        count_where (λ f, bool_decide (Analyze.severity f = txt "high"))
          (Analyze.findings report)
    ∧ Analyze.medium s =
        count_where (λ f, bool_decide (Analyze.severity f = txt "medium"))
          (Analyze.findings report)
    ∧ Analyze.low s =
        count_where (λ f, bool_decide (Analyze.severity f = txt "low"))
          (Analyze.findings report)
    ∧ Analyze.safe s =
        count_where (λ f, bool_decide (Analyze.risk f = txt "safe"))
          (Analyze.findings report)
    ∧ Analyze.risky s =
        count_where (λ f, bool_decide (Analyze.risk f = txt "risky"))
          (Analyze.findings report)
    ∧ Analyze.auto_fixable_count s =
        count_where Analyze.auto_fixable (Analyze.findings report).
Proof.
  cbv zeta. unfold Analyze.analyze_project. simpl.
  eexists. split; [reflexivity|]. simpl.
  by rewrite !len_where_count.
Qed.

(* ===================================================================== *)
(** * Preload markup *)
(* ===================================================================== *)

Lemma html_loop ps st (seen : list str) :
  (∀ h, h ∈ Preloads.seen st ↔ h ∈ seen) →
  let st' := foldl Preloads.html_step st ps in
  Preloads.layout_preloads st' =
    Preloads.layout_preloads st ++
      map Preloads.link_tag (List.filter is_layout (first_by_href seen ps))
  ∧ Preloads.page_preloads st' =
    Preloads.page_preloads st ++
      map Preloads.link_tag
        (List.filter (λ p, negb (is_layout p)) (first_by_href seen ps)).
Proof.
  revert st seen. induction ps as [|p ps IH]; intros st seen Hseen; simpl.
  - by rewrite !app_nil_r.
  - destruct (decide (Preloads.href p ∈ seen)) as [Hin|Hnin].
    + assert (Preloads.html_step st p = st) as ->.
      { unfold Preloads.html_step.
        destruct (decide (Preloads.href p ∈ Preloads.seen st)) as [_|Hn];
          [done|]. by destruct Hn; apply Hseen. }
      by apply IH.
    + set (seen' := {[Preloads.href p]} ∪ Preloads.seen st).
      assert (∀ h, h ∈ seen' ↔ h ∈ Preloads.href p :: seen) as Hseen'.
      { intros h. unfold seen'.
        rewrite elem_of_union, elem_of_singleton, elem_of_cons.
        by rewrite Hseen. }
      assert (Preloads.href p ∉ Preloads.seen st) as Hn
        by (by rewrite Hseen).
      destruct (decide (Preloads.scope p = txt "layout")) as [Hl|Hl].
      * assert (Preloads.html_step st p =
                  Preloads.HtmlState seen'
                    (Preloads.layout_preloads st ++ [Preloads.link_tag p])
                    (Preloads.page_preloads st)) as ->.
        { unfold Preloads.html_step.
          destruct (decide (Preloads.href p ∈ Preloads.seen st)); [done|].
          by destruct (decide (Preloads.scope p = txt "layout")). }
        assert (is_layout p = true) as Hil by (by apply bool_decide_eq_true_2).
        simpl. rewrite Hil. simpl.
        destruct (IH (Preloads.HtmlState seen'
                    (Preloads.layout_preloads st ++ [Preloads.link_tag p])
                    (Preloads.page_preloads st)) _ Hseen') as [E1 E2].
        rewrite E1, E2. simpl. by rewrite <- (assoc_L (++)).
      * assert (Preloads.html_step st p =
                  Preloads.HtmlState seen'
                    (Preloads.layout_preloads st)
                    (Preloads.page_preloads st ++ [Preloads.link_tag p]))
          as ->.
        { unfold Preloads.html_step.
          destruct (decide (Preloads.href p ∈ Preloads.seen st)); [done|].
          by destruct (decide (Preloads.scope p = txt "layout")). }
        assert (is_layout p = false) as Hil
          by (by apply bool_decide_eq_false_2).
        simpl. rewrite Hil. simpl.
        destruct (IH (Preloads.HtmlState seen'
                    (Preloads.layout_preloads st)
                    (Preloads.page_preloads st ++ [Preloads.link_tag p]))
                    _ Hseen') as [E1 E2].
        rewrite E1, E2. simpl. by rewrite <- (assoc_L (++)).
Qed.

Lemma first_by_href_spec seen ps :
  NoDup (map Preloads.href (first_by_href seen ps))
  ∧ (∀ p, p ∈ first_by_href seen ps → Preloads.href p ∉ seen)
  ∧ (∀ p, p ∈ first_by_href seen ps ↔
          ∃ i, ps !! i = Some p ∧ (Preloads.href p ∉ seen)
               ∧ ∀ j q, j < i → ps !! j = Some q →
                        Preloads.href q ≠ Preloads.href p).
Proof.
  revert seen. induction ps as [|p0 ps IH]; intros seen; simpl.
  - split; [constructor|]. split; [by intros p H; apply elem_of_nil in H|].
    intros p. split; [by intros H; apply elem_of_nil in H|].
    by intros (i & H & _).
  - destruct (decide (Preloads.href p0 ∈ seen)) as [Hin|Hnin].
    + destruct (IH seen) as (H1 & H2 & H3).
      split; [done|]. split; [done|]. intros p. rewrite H3. split.
      * intros (i & Hi & Hs & Hf). exists (S i). split; [done|].
        split; [done|]. intros [|j] q Hj Hq; simpl in Hq.
        -- injection Hq as <-. intros E. by rewrite E in Hin.
        -- apply (Hf j); [lia|done].
      * intros ([|i] & Hi & Hs & Hf); simpl in Hi.
        -- injection Hi as <-. done.
        -- exists i. split; [done|]. split; [done|].
           intros j q Hj Hq. apply (Hf (S j)); [lia|done].
    + destruct (IH (Preloads.href p0 :: seen)) as (H1 & H2 & H3).
      split; [|split].
      * simpl. constructor; [|done].
        intros Hin. apply list_elem_of_fmap in Hin as (q & Eq & Hq).
        apply H2 in Hq. rewrite <- Eq in Hq. apply Hq. by left.
      * intros p Hp. apply elem_of_cons in Hp as [->|Hp]; [done|].
        apply H2 in Hp. intros Hs. apply Hp. by right.
      * intros p. rewrite elem_of_cons, H3. split.
        -- intros [->|(i & Hi & Hs & Hf)].
           ++ exists 0. split; [done|]. split; [done|]. intros; lia.
           ++ exists (S i). split; [done|].
              split; [(intros ?; apply Hs; by right)|].
              intros [|j] q Hj Hq; simpl in Hq.
              ** injection Hq as <-. intros E. apply Hs. rewrite E. by left.
              ** apply (Hf j); [lia|done].
        -- intros ([|i] & Hi & Hs & Hf); simpl in Hi.
           ++ left. by injection Hi.
           ++ right. exists i. split; [done|]. split.
              ** intros Hc. apply elem_of_cons in Hc as [Hc|Hc]; [|done].
                 by apply (Hf 0 p0); [lia|done|].
              ** intros j q Hj Hq. apply (Hf (S j)); [lia|done].
Qed.

(** C9.  For every list of directives, the directives kept are those that
    are the first with their [href]: no two of them share an [href].  The
    [layout] markup is the tags of the kept directives of scope [layout],
    one per line and in order, and the [page] markup the tags of the other
    kept directives. *)
Theorem preload_html_first_by_href ps :
  let kept := first_by_href [] ps in
  NoDup (map Preloads.href kept)
  ∧ (∀ p, p ∈ kept ↔
          ∃ i, ps !! i = Some p
               ∧ ∀ j q, j < i → ps !! j = Some q →
                        Preloads.href q ≠ Preloads.href p)
  ∧ Preloads.layout (Preloads.generate_preload_html ps) =
      join [nl] (map Preloads.link_tag (List.filter is_layout kept))
  ∧ Preloads.page (Preloads.generate_preload_html ps) =
      join [nl] (map Preloads.link_tag
                   (List.filter (λ p, negb (is_layout p)) kept)).
Proof.
  cbv zeta. destruct (first_by_href_spec [] ps) as (H1 & _ & H3).
  split; [done|]. split.
  - intros p. rewrite H3. split.
    + intros (i & Hi & _ & Hf). eauto.
    + intros (i & Hi & Hf). exists i. split; [done|].
      split; [apply not_elem_of_nil|done].
  - unfold Preloads.generate_preload_html.
    destruct (html_loop ps (Preloads.HtmlState ∅ [] []) []) as [-> ->].
    + intros h. simpl. split; intros H.
      * by apply not_elem_of_empty in H.
      * by apply not_elem_of_nil in H.
    + done.
Qed.

(** C10.  Every directive [extract_fonts_from_css] returns is a font, with
    [crossorigin] set, of scope [layout]. *)
Theorem font_preloads_are_layout_fonts resolve css file project ps :
  Preloads.extract_fonts_from_css resolve css file project = Some ps →
  Forall (λ p, Preloads.as_type p = txt "font"
               ∧ Preloads.crossorigin p = true
               ∧ Preloads.scope p = txt "layout") ps.
Proof.
  unfold Preloads.extract_fonts_from_css.
  generalize (Preloads.findall1 Preloads.font_face_pattern css).
  intros faces. revert ps.
  induction faces as [|face faces IH]; intros ps; simpl.
  - by intros [= <-].
  - destruct (Preloads.url_preloads _ _ _ _) as [these|] eqn:Hu; [|done].
    simpl. destruct (Preloads.face_preloads _ _ _ _) as [more|]; [|done].
    simpl. intros [= <-]. apply Forall_app. split; [|by apply IH].
    clear IH. revert these Hu.
    generalize (Preloads.findall1 Preloads.url_pattern face). intros urls.
    induction urls as [|url urls IHu]; intros these; simpl.
    + by intros [= <-].
    + destruct (Preloads.relative_to file project); [|done]. simpl.
      destruct (Preloads.url_preloads _ _ _ _) as [more'|]; [|done].
      simpl. intros [= <-]. constructor; [done|]. by apply IHu.
Qed.

(** C10 at the style sheet of the font scenario. *)
Lemma font_preloads_are_layout_fonts_witness :
  Preloads.extract_fonts_from_css (λ p, p) font_css
    (txt "/site/src/styles/fonts.css") site =
    Some [Preloads.MkPreload (txt "/f.woff2") (txt "font")
            (Some (txt "font/woff2")) true (txt "layout")
            (txt "src/styles/fonts.css") Preloads.font_reason]
  ∧ Forall (λ p, Preloads.as_type p = txt "font"
                 ∧ Preloads.crossorigin p = true
                 ∧ Preloads.scope p = txt "layout")
      [Preloads.MkPreload (txt "/f.woff2") (txt "font")
         (Some (txt "font/woff2")) true (txt "layout")
         (txt "src/styles/fonts.css") Preloads.font_reason].
Proof.
  assert (Preloads.extract_fonts_from_css (λ p, p) font_css
            (txt "/site/src/styles/fonts.css") site =
          Some [Preloads.MkPreload (txt "/f.woff2") (txt "font")
                  (Some (txt "font/woff2")) true (txt "layout")
                  (txt "src/styles/fonts.css") Preloads.font_reason]) as E
    by (vm_compute; reflexivity).
  split; [exact E|].
  exact (font_preloads_are_layout_fonts _ _ _ _ _ E).
Defined.

(* ===================================================================== *)
(** * One finding per rule and file *)
(* ===================================================================== *)

(** C3, as stated, fails: two images without dimensions in one file give
    two findings of the rule [image_cls] for that file. *)
Lemma two_image_cls_findings :
  ∃ fs, Analyze.analyze_images site [index_astro] None two_img_world = inr fs
        ∧ findings_of (txt "image_cls") (txt "src/pages/index.astro") fs = 2.
Proof. eexists. split; vm_compute; reflexivity. Qed.

Lemma findings_of_app ty file fs1 fs2 :
  findings_of ty file (fs1 ++ fs2) =
    findings_of ty file fs1 + findings_of ty file fs2.
Proof.
  unfold findings_of. by rewrite List.filter_app, length_app.
Qed.

Lemma findings_of_none ty file fs :
  Forall (λ f, Analyze.type f ≠ ty ∨ Analyze.file f ≠ file) fs →
  findings_of ty file fs = 0.
Proof.
  unfold findings_of. induction 1 as [|f fs Hf _ IH]; simpl; [done|].
  destruct Hf as [Hf|Hf].
  - by rewrite (bool_decide_eq_false_2 _ Hf).
  - rewrite (bool_decide_eq_false_2 (_ = file) Hf).
    by rewrite andb_false_r.
Qed.

Lemma findings_of_le_length ty file fs :
  findings_of ty file fs ≤ length fs.
Proof.
  unfold findings_of. induction fs as [|f fs IH]; simpl; [lia|].
  destruct (_ && _); simpl; lia.
Qed.

Lemma img_tag_findings_shape file content :
  Forall (λ f, Analyze.type f = txt "image_cls" ∧ Analyze.file f = file)
    (Analyze.img_tag_findings file content).
Proof.
  unfold Analyze.img_tag_findings.
  induction (finditer true Analyze.img_pattern content) as [|[start m] l IH];
    simpl; [done|].
  destruct (negb _ && negb _); simpl; [|done]. by constructor.
Qed.

Lemma priority_findings_shape file content patterns :
  Analyze.priority_findings file content patterns = []
  ∨ Analyze.priority_findings file content patterns =
      [Analyze.image_priority file].
Proof.
  induction patterns as [|p ps IH]; simpl; [by left|].
  destruct (_ && _); [by right|done].
Qed.

(** The findings of one file: all for that file, and at most one for each
    rule but [image_cls]. *)
Lemma astro_file_findings_shape rel content :
  Forall (λ f, Analyze.file f = path_join (txt "src") rel
               ∧ Analyze.type f ≠ txt "image_format")
    (Analyze.astro_file_findings rel content)
  ∧ ∀ ty file, ty ≠ txt "image_cls" →
      findings_of ty file (Analyze.astro_file_findings rel content) ≤ 1.
Proof.
  unfold Analyze.astro_file_findings.
  pose proof (img_tag_findings_shape (path_join (txt "src") rel) content)
    as Himg.
  split.
  - rewrite !Forall_app. split; [|split].
    + eapply Forall_impl; [exact Himg|]. intros f [-> ->]. done.
    + destruct (_ && _); [|done]. by constructor.
    + destruct (priority_findings_shape (path_join (txt "src") rel) content
                  Analyze.hero_patterns) as [->| ->]; [done|].
      by constructor.
  - intros ty file Hty. rewrite !findings_of_app.
    rewrite (findings_of_none ty file (Analyze.img_tag_findings _ _)).
    2:{ eapply Forall_impl; [exact Himg|]. intros f [E _]. left.
        by rewrite E. }
    pose proof (priority_findings_shape (path_join (txt "src") rel) content
                  Analyze.hero_patterns) as Hp.
    destruct (decide (ty = txt "image_loading")) as [->|Hl].
    + rewrite (findings_of_none _ file (Analyze.priority_findings _ _ _)).
      2:{ destruct Hp as [->| ->]; [done|]. constructor; [|done].
          left. simpl. intros E. vm_compute in E. discriminate. }
      pose proof (findings_of_le_length (txt "image_loading") file
                    (if contains (txt "<img") content
                        && negb (contains (txt "loading=") content)
                     then [Analyze.image_loading (path_join (txt "src") rel)]
                     else [])) as Hle.
      destruct (_ && _); simpl in Hle; lia.
    + rewrite (findings_of_none ty file
                 (if contains (txt "<img") content
                     && negb (contains (txt "loading=") content)
                  then [Analyze.image_loading (path_join (txt "src") rel)]
                  else [])).
      2:{ destruct (_ && _); [|done]. constructor; [|done]. left.
          simpl. done. }
      pose proof (findings_of_le_length ty file
                    (Analyze.priority_findings (path_join (txt "src") rel)
                       content Analyze.hero_patterns)) as Hle.
      destruct Hp as [E|E]; rewrite E in *; simpl in Hle; lia.
Qed.

Lemma path_join_inj d (a b : path) : path_join d a = path_join d b → a = b.
Proof.
  unfold path_join. intros H.
  apply (inj (app d)) in H. by apply (inj (app (txt "/"))) in H.
Qed.

Lemma astro_findings_once project rels w fs :
  NoDup rels →
  Analyze.astro_findings project rels w = inr fs →
  Forall (λ f, (∃ rel, rel ∈ rels ∧ Analyze.file f = path_join (txt "src") rel)
               ∧ Analyze.type f ≠ txt "image_format") fs
  ∧ ∀ ty file, ty ≠ txt "image_cls" → findings_of ty file fs ≤ 1.
Proof.
  intros Hnd. revert fs.
  induction Hnd as [|rel rels Hnot Hnd IH]; intros fs; simpl.
  - intros [= <-]. split; [done|]. intros. unfold findings_of. simpl. lia.
  - destruct (read_text _ w) as [e|content]; [done|].
    destruct (Analyze.astro_findings project rels w) as [e|fs']; [done|].
    intros [= <-]. destruct (IH _ eq_refl) as [IH1 IH2].
    destruct (astro_file_findings_shape rel content) as [S1 S2].
    split.
    + apply Forall_app. split.
      * eapply Forall_impl; [exact S1|]. intros f [E Ht].
        split; [|done]. exists rel. split; [by left|done].
      * eapply Forall_impl; [exact IH1|]. intros f [(r & Hr & E) Ht].
        split; [|done]. exists r. split; [by right|done].
    + intros ty file Hty. rewrite findings_of_app.
      destruct (decide (file = path_join (txt "src") rel)) as [->|Hf].
      * rewrite (findings_of_none ty _ fs').
        -- specialize (S2 ty (path_join (txt "src") rel) Hty). lia.
        -- eapply Forall_impl; [exact IH1|]. intros f [(r & Hr & E) _].
           right. rewrite E. intros Ej. apply path_join_inj in Ej.
           by subst r.
      * rewrite (findings_of_none ty file (Analyze.astro_file_findings _ _)).
        -- specialize (IH2 ty file Hty). lia.
        -- eapply Forall_impl; [exact S1|]. intros f [E _]. right.
           by rewrite E.
Qed.

Lemma public_findings_once rels :
  NoDup rels →
  Forall (λ f, Analyze.type f = txt "image_format"
               ∧ ∃ rel, rel ∈ rels
                        ∧ Analyze.file f = path_join (txt "public") rel)
    (Analyze.public_findings rels)
  ∧ ∀ ty file, findings_of ty file (Analyze.public_findings rels) ≤ 1.
Proof.
  unfold Analyze.public_findings.
  induction 1 as [|rel rels Hnot Hnd [IH1 IH2]]; simpl.
  - split; [done|]. intros. unfold findings_of. simpl. lia.
  - assert (Forall (λ f, Analyze.type f = txt "image_format"
               ∧ ∃ r, r ∈ rel :: rels
                      ∧ Analyze.file f = path_join (txt "public") r)
              (flat_map
                 (λ rel0, if bool_decide (lower (path_suffix rel0)
                                            ∈ Analyze.image_suffixes)
                          then [Analyze.image_format
                                  (path_join (txt "public") rel0)]
                          else []) rels)) as IH1'.
    { eapply Forall_impl; [exact IH1|]. intros f [E (r & Hr & Ef)].
      split; [done|]. exists r. split; [by right|done]. }
    split.
    + apply Forall_app. split; [|exact IH1'].
      destruct (bool_decide _); [|done]. constructor; [|done].
      split; [done|]. exists rel. split; [by left|done].
    + intros ty file. rewrite findings_of_app.
      destruct (bool_decide (lower (path_suffix rel) ∈ _)).
      * destruct (decide (file = path_join (txt "public") rel)) as [->|Hf].
        -- rewrite (findings_of_none ty _ (flat_map _ rels)).
           ++ unfold findings_of. simpl.
              destruct (_ && _); simpl; lia.
           ++ eapply Forall_impl; [exact IH1|].
              intros f [_ (r & Hr & E)]. right. rewrite E.
              intros Ej. apply path_join_inj in Ej. by subst r.
        -- specialize (IH2 ty file). unfold findings_of in *. simpl.
           rewrite (bool_decide_eq_false_2 (_ = file)); [|by intros <-].
           rewrite andb_false_r. simpl. lia.
      * specialize (IH2 ty file). unfold findings_of in *. simpl. lia.
Qed.

Lemma dedup_loop all seen (uniq : list DetectJs.JsToHtmlCssFinding) :
  NoDup (map DetectJs.key uniq) →
  (∀ k, k ∈ seen ↔ k ∈ map DetectJs.key uniq) →
  NoDup (map DetectJs.key
           (snd (foldl DetectJs.dedup_step (seen, uniq) all))).
Proof.
  revert seen uniq. induction all as [|f all IH]; intros seen uniq Hnd Hs;
    simpl; [done|].
  destruct (decide (DetectJs.key f ∈ seen)) as [Hin|Hnin].
  - by apply IH.
  - apply IH.
    + rewrite map_app. simpl. apply NoDup_app. split; [done|].
      split; [|by apply NoDup_singleton].
      intros k Hk Hk'. apply list_elem_of_singleton in Hk'. subst k.
      apply Hnin. by apply Hs.
    + intros k. rewrite map_app, elem_of_union, elem_of_singleton,
        elem_of_app, Hs. simpl. rewrite list_elem_of_singleton. tauto.
Qed.

Lemma NoDup_key_once k (fs : list DetectJs.JsToHtmlCssFinding) :
  NoDup (map DetectJs.key fs) → js_findings_of k fs ≤ 1.
Proof.
  unfold js_findings_of.
  induction fs as [|f fs IH]; simpl; [lia|].
  intros Hnd. apply NoDup_cons in Hnd as [Hnot Hnd].
  destruct (bool_decide (DetectJs.key f = k)) eqn:E; simpl; [|by apply IH].
  apply bool_decide_eq_true in E. subst k.
  assert (List.filter (λ g, bool_decide (DetectJs.key g = DetectJs.key f)) fs
            = []) as ->; [|simpl; lia].
  clear IH Hnd. induction fs as [|g fs IH]; simpl; [done|].
  rewrite bool_decide_eq_false_2.
  - apply IH. intros H. apply Hnot. by right.
  - intros E. apply Hnot. rewrite <- E. by left.
Qed.

(* ===================================================================== *)
(** * Two backups within one second *)
(* ===================================================================== *)

(** C8 at two pages of the same name processed within one second: both
    entries of [files_modified] name the same backup file, which holds the
    original of the second page; the original of the first page is in no
    file any more. *)
Theorem same_second_backups_collide :
  let run := optimize_project site false [page_a; page_b] [] [] twin_world in
  map me_file (pr_files_modified (fst run)) =
    [txt "src/a/index.astro"; txt "src/b/index.astro"]
  ∧ map me_backup (pr_files_modified (fst run)) =
    [Some twin_backup; Some twin_backup]
  ∧ pr_errors (fst run) = []
  ∧ files (snd run) !! twin_backup = Some img_tag_b
  ∧ Forall (λ pc, snd pc ≠ img_tag) (map_to_list (files (snd run))).
Proof.
  cbv zeta.
  split; [vm_compute; reflexivity|]. split; [vm_compute; reflexivity|].
  split; [vm_compute; reflexivity|]. split; [vm_compute; reflexivity|].
  vm_compute. repeat constructor; discriminate.
Qed.

(* ===================================================================== *)
(** * Rules that are idempotent *)
(* ===================================================================== *)

(** ** Rules whose matches end at the first terminator

    The patterns of the image rules and of the font rule match an opening
    and then everything up to the first [>] (the first closing brace): what
    they match does not depend on the text behind the match. *)

Section Delimited.
Variable r : regex.
(** The terminator, the openings, and the folded first character of an
    opening. *)
Variable t : ascii.
Variable opening : str → Prop.
Variable c0 : ascii.
Variable cb : mobj → str * list change.

Hypothesis match_inv : ∀ (s : str) m,
  match_here true r s = Some m →
  ∃ pfx body rest, s = pfx ++ body ++ t :: rest ∧ opening pfx ∧ (t ∉ body)
                   ∧ m = Mobj (pfx ++ body ++ [t]) [].
Hypothesis match_intro : ∀ pfx body rest,
  opening pfx → t ∉ body →
  match_here true r (pfx ++ body ++ t :: rest) =
    Some (Mobj (pfx ++ body ++ [t]) []).
Hypothesis opening_head : ∀ pfx,
  opening pfx →
  ∃ c p, pfx = c :: p ∧ lower_char c = c0
         ∧ Forall (λ x, lower_char x ≠ c0) p.
(** The callback keeps the opening and the terminator, and leaves its own
    output alone. *)
Hypothesis cb_shape : ∀ pfx body,
  opening pfx → t ∉ body →
  ∃ body', fst (cb (Mobj (pfx ++ body ++ [t]) [])) = pfx ++ body' ++ [t]
           ∧ (t ∉ body')
           ∧ cb (Mobj (pfx ++ body' ++ [t]) []) = (pfx ++ body' ++ [t], []).

Lemma delimited_nil : sub true r cb [] = ([], []).
Proof.
  apply sub_nil. destruct (match_here true r []) as [m|] eqn:E; [|done].
  apply match_inv in E as (pfx & body & rest & E & _).
  by destruct pfx, body.
Qed.

Lemma delimited_match (s : str) m :
  match_here true r s = Some m →
  ∃ pfx body body' rest,
    s = pfx ++ body ++ t :: rest ∧ opening pfx ∧ (t ∉ body) ∧ (t ∉ body')
    ∧ cb (Mobj (pfx ++ body' ++ [t]) []) = (pfx ++ body' ++ [t], [])
    ∧ fst (sub true r cb s) =
        pfx ++ body' ++ t :: fst (sub true r cb rest).
Proof.
  intros E. destruct (match_inv _ _ E) as (pfx & body & rest & Hs & Ho & Hb & ->).
  destruct (cb_shape pfx body Ho Hb) as (body' & E1 & Hb' & E2).
  exists pfx, body, body', rest. repeat split; try done.
  rewrite (sub_match true r cb s rest _ E); simpl.
  - rewrite E1. by rewrite <- !(assoc_L (++)).
  - by destruct pfx, body.
  - rewrite Hs. by rewrite <- !(assoc_L (++)).
Qed.

(** The first character of a text survives, and a match starts with the
    first character of an opening. *)
Lemma delimited_head c (s : str) :
  ∃ o, fst (sub true r cb (c :: s)) = c :: o
       ∧ (lower_char c ≠ c0 → o = fst (sub true r cb s)).
Proof.
  destruct (match_here true r (c :: s)) as [m|] eqn:E.
  - destruct (delimited_match _ _ E)
      as (pfx & body & body' & rest & Hs & Ho & _ & _ & _ & ->).
    destruct (opening_head _ Ho) as (c' & p & -> & Hc & _).
    simpl in Hs. injection Hs as <- Hs. eexists. split; [done|].
    intros Hn. by destruct Hn.
  - rewrite sub_cons_none by done. eauto.
Qed.

(** Characters that open no match are copied. *)
Lemma delimited_copy p (u v : str) :
  Forall (λ x, lower_char x ≠ c0) p →
  fst (sub true r cb u) = p ++ v →
  ∃ u', u = p ++ u' ∧ fst (sub true r cb u') = v.
Proof.
  intros Hp. revert u. induction Hp as [|x p Hx Hp IH]; intros u E.
  - exists u. done.
  - destruct u as [|y u]; [by rewrite delimited_nil in E|].
    destruct (delimited_head y u) as (o & Eo & Hcopy).
    rewrite Eo in E. simpl in E. injection E as -> E.
    rewrite (Hcopy Hx) in E.
    destruct (IH _ E) as (u' & -> & Hu'). by exists u'.
Qed.

Lemma delimited_terminator (u : str) :
  t ∈ fst (sub true r cb u) → t ∈ u.
Proof.
  induction u as [|c u IH]; [by rewrite delimited_nil|].
  destruct (match_here true r (c :: u)) as [m|] eqn:E.
  - intros _. apply match_inv in E as (pfx & body & rest & -> & _).
    rewrite !elem_of_app. right. right. by left.
  - rewrite sub_cons_none by done. simpl.
    rewrite !elem_of_cons. intros [?|?]; auto.
Qed.

(** Applied to its own output, the rule changes and logs nothing. *)
Theorem delimited_idempotent (s : str) :
  sub true r cb (fst (sub true r cb s)) = (fst (sub true r cb s), []).
Proof.
  remember (length s) as n eqn:Hn. revert s Hn.
  induction n as [n IH] using lt_wf_ind. intros s ->.
  destruct (match_here true r s) as [m|] eqn:E.
  - destruct (delimited_match _ _ E)
      as (pfx & body & body' & rest & Hs & Ho & Hb & Hb' & Hcb & ->).
    assert (length rest < length s) as Hlen
      by (rewrite Hs, !length_app; simpl; lia).
    specialize (IH _ Hlen rest eq_refl).
    pose proof (match_intro pfx body' (fst (sub true r cb rest)) Ho Hb')
      as E'.
    rewrite (sub_match true r cb _ (fst (sub true r cb rest)) _ E'); simpl.
    + rewrite Hcb, IH. simpl. by rewrite <- !(assoc_L (++)).
    + by destruct pfx, body'.
    + by rewrite <- !(assoc_L (++)).
  - destruct s as [|c s]; [rewrite delimited_nil; simpl; by rewrite delimited_nil|].
    rewrite sub_cons_none by done. simpl.
    destruct (match_here true r (c :: fst (sub true r cb s))) as [m'|] eqn:E'.
    + exfalso.
      apply match_inv in E' as (pfx & body & rest & Hs & Ho & Hb & _).
      destruct (opening_head _ Ho) as (c' & p & -> & Hc & Hp).
      simpl in Hs. injection Hs as <- Hs.
      destruct (delimited_copy _ _ _ Hp Hs) as (u' & -> & Hu').
      assert (t ∈ u') as Hin.
      { apply delimited_terminator. rewrite Hu'.
        rewrite elem_of_app. right. by left. }
      apply list_elem_of_split_l in Hin as (b0 & r0 & -> & Hb0).
      pose proof (match_intro (c :: p) b0 r0 Ho Hb0) as Em.
      simpl in Em. rewrite <- ?(assoc_L (++)) in E. simpl in E.
      congruence.
    + rewrite sub_cons_none by done.
      rewrite (IH (length s) ltac:(simpl; lia) s eq_refl). done.
Qed.
End Delimited.

(** ** Characters, literals and runs under [re.IGNORECASE] *)

Lemma unfolded_gt : unfolded ">".
Proof. intros [[] [] [] [] [] [] [] []]; vm_compute; congruence. Qed.

Lemma unfolded_slash : unfolded "/".
Proof. intros [[] [] [] [] [] [] [] []]; vm_compute; congruence. Qed.

Lemma unfolded_lbrace : unfolded "{".
Proof. intros [[] [] [] [] [] [] [] []]; vm_compute; congruence. Qed.

Lemma unfolded_rbrace : unfolded "}".
Proof. intros [[] [] [] [] [] [] [] []]; vm_compute; congruence. Qed.

Lemma in_class_none_of t c :
  unfolded t → lower_char t = t →
  in_class true (NoneOf [t]) c = bool_decide (c ≠ t).
Proof.
  intros Ht Hl. simpl. unfold char_eqb, fold_case. rewrite Hl, orb_false_r.
  destruct (decide (c = t)) as [->|Hne].
  - rewrite Hl, bool_decide_eq_true_2 by done. simpl.
    by rewrite bool_decide_eq_false_2 by (intros H; by apply H).
  - rewrite (bool_decide_eq_true_2 (c ≠ t)) by done.
    rewrite bool_decide_eq_false_2; [done|].
    intros E. apply Hne. apply Ht. done.
Qed.

Lemma lower_app (a b : str) : lower (a ++ b) = lower a ++ lower b.
Proof. unfold lower. apply map_app. Qed.

Lemma lower_length (a : str) : length (lower a) = length a.
Proof. unfold lower. apply length_map. Qed.

Lemma run_str_ci {R} (p h u : str) (k : str → option R) :
  lower h = lower p → run_str true p (h ++ u) k = k u.
Proof.
  revert h. induction p as [|a p IH]; intros [|b h] E; try done; simpl in *.
  injection E as E1 E2. unfold char_eqb, fold_case.
  rewrite bool_decide_eq_true_2 by done. by apply IH.
Qed.

Lemma run_str_mismatch {R} a (p : str) b (s : str) (k : str → option R) :
  lower_char a ≠ lower_char b → run_str true (a :: p) (b :: s) k = None.
Proof.
  intros H. simpl. unfold char_eqb, fold_case.
  by rewrite bool_decide_eq_false_2.
Qed.

Lemma run_str_inv {R} (p s : str) (k : str → option R) x :
  run_str true p s k = Some x →
  ∃ h u, s = h ++ u ∧ lower h = lower p ∧ k u = Some x.
Proof.
  revert s. induction p as [|a p IH]; intros s H; simpl in H.
  - exists [], s. done.
  - destruct s as [|b s]; [done|].
    unfold char_eqb, fold_case in H.
    destruct (decide (lower_char a = lower_char b)) as [E|E].
    + rewrite bool_decide_eq_true_2 in H by done.
      destruct (IH _ H) as (h & u & -> & Hh & Hk).
      exists (b :: h), u. simpl. rewrite Hh, E. done.
    + by rewrite bool_decide_eq_false_2 in H.
Qed.

Lemma run_star_stop {R} cl (body : str) c (rest : str)
    (k : str → option R) x :
  Forall (λ b, in_class true cl b = true) body →
  in_class true cl c = false →
  k (c :: rest) = Some x →
  run_star true cl (body ++ c :: rest) k = Some x.
Proof.
  intros Hb Hc Hk. induction Hb as [|b body Hbc _ IH]; simpl.
  - by rewrite Hc.
  - by rewrite Hbc, IH.
Qed.

Lemma run_star_inv {R} cl (s : str) (k : str → option R) x :
  run_star true cl s k = Some x →
  ∃ pre u, s = pre ++ u ∧ Forall (λ b, in_class true cl b = true) pre
           ∧ k u = Some x.
Proof.
  induction s as [|c s IH]; simpl; intros H.
  - exists [], []. done.
  - destruct (in_class true cl c) eqn:Hc.
    + destruct (run_star true cl s k) as [y|] eqn:E.
      * injection H as ->. destruct (IH eq_refl) as (pre & u & -> & Hp & Hk).
        exists (c :: pre), u. split; [done|]. split; [by constructor|done].
      * exists [], (c :: s). done.
    + exists [], (c :: s). done.
Qed.

Lemma none_of_Forall t (body : str) :
  unfolded t → lower_char t = t →
  Forall (λ b, in_class true (NoneOf [t]) b = true) body ↔ t ∉ body.
Proof.
  intros Ht Hl. rewrite Forall_forall. split.
  - intros H Hin. specialize (H _ Hin).
    rewrite in_class_none_of in H by done.
    by apply bool_decide_eq_true in H.
  - intros H b Hb. rewrite in_class_none_of by done.
    apply bool_decide_eq_true. by intros ->.
Qed.

Lemma matched_text (pre rest s : str) :
  s = pre ++ rest → take (length s - length rest) s = pre.
Proof. intros ->. apply take_length_diff. Qed.

(** ** Text *)

Lemma startswith_app (p s : str) : startswith p (p ++ s) = true.
Proof.
  induction p as [|a p IH]; [done|]. simpl.
  by rewrite bool_decide_eq_true_2.
Qed.

Lemma contains_app_r (n a b : str) :
  contains n b = true → contains n (a ++ b) = true.
Proof.
  intros H. induction a as [|x a IH]; [done|]. simpl.
  by rewrite IH, orb_true_r.
Qed.

Lemma startswith_app_l (n a y : str) :
  startswith n a = true → startswith n (a ++ y) = true.
Proof.
  revert a. induction n as [|x n IH]; intros [|c a]; simpl; try done.
  intros H. apply andb_true_iff in H as [-> H]. simpl. by apply IH.
Qed.

Lemma contains_app_l (n a y : str) :
  contains n a = true → contains n (a ++ y) = true.
Proof.
  induction a as [|c a IH]; simpl.
  - destruct n; simpl; [intros _; by destruct y|done].
  - intros H. apply orb_true_iff in H as [H|H].
    + apply (startswith_app_l n (c :: a) y) in H. simpl in H.
      by rewrite H.
    + by rewrite IH, orb_true_r.
Qed.

Lemma contains_prefix (n b : str) : contains n (n ++ b) = true.
Proof. destruct n, b; simpl; by rewrite ?bool_decide_eq_true_2, ?startswith_app. Qed.

Lemma contains_mid (n a b : str) : contains n (a ++ n ++ b) = true.
Proof. apply contains_app_r, contains_prefix. Qed.

Lemma drop_last_app (l e : str) : drop_last (length e) (l ++ e) = l.
Proof.
  unfold drop_last. rewrite length_app.
  replace (length l + length e - length e) with (length l) by lia.
  apply take_app_length.
Qed.

Lemma drop_last_snoc (l : str) x : drop_last 1 (l ++ [x]) = l.
Proof. apply (drop_last_app l [x]). Qed.

Lemma drop_last_snoc2 (a b : str) x : drop_last 1 (a ++ b ++ [x]) = a ++ b.
Proof. rewrite (assoc_L (++)). apply drop_last_snoc. Qed.

Lemma endswith_snoc_inv a b (l : str) :
  endswith [a; b] (l ++ [b]) = true → ∃ l0, l = l0 ++ [a].
Proof.
  unfold endswith. rewrite reverse_app. simpl.
  rewrite bool_decide_eq_true_2 by done. simpl.
  destruct (reverse l) as [|x rl] eqn:E; [done|].
  rewrite andb_true_r. intros H. apply bool_decide_eq_true in H. subst x.
  exists (reverse rl). apply (inj reverse).
  by rewrite reverse_app, reverse_involutive.
Qed.

Lemma endswith_snoc c (l : str) : endswith [c] (l ++ [c]) = true.
Proof.
  unfold endswith. rewrite reverse_app. simpl.
  by rewrite bool_decide_eq_true_2.
Qed.

(** ** The image rules *)

Lemma img_match_inv (s : str) m :
  match_here true img_tag_pattern s = Some m →
  ∃ pfx body rest, s = pfx ++ body ++ ">"%char :: rest ∧ img_opening pfx
                   ∧ (">"%char ∉ body)
                   ∧ m = Mobj (pfx ++ body ++ [">"%char]) [].
Proof.
  unfold match_here, img_tag_pattern. cbn [cat foldr run]. intros H.
  apply run_str_inv in H as (pfx & s1 & -> & Hp & H).
  apply run_star_inv in H as (pre & s2 & -> & Hpre & H).
  apply none_of_Forall in Hpre; [|apply unfolded_gt|done].
  destruct (run_str true (txt "/") s2 _) as [y|] eqn:E1.
  - injection H as ->.
    apply run_str_inv in E1 as (h1 & s3 & -> & Hh1 & E1).
    apply run_str_inv in E1 as (h2 & s4 & -> & Hh2 & E1).
    destruct h1 as [|a [|? ?]]; try done.
    destruct h2 as [|b [|? ?]]; try done.
    injection Hh1 as Ha. injection Hh2 as Hb.
    apply unfolded_slash in Ha. apply unfolded_gt in Hb. subst a b.
    injection E1 as <-.
    exists pfx, (pre ++ ["/"%char]), s4.
    split; [by rewrite <- !(assoc_L (++))|]. split; [exact Hp|].
    split.
    + rewrite elem_of_app. intros [?|Hin]; [done|].
      apply list_elem_of_singleton in Hin. done.
    + f_equal. apply matched_text. by rewrite <- !(assoc_L (++)).
  - apply run_str_inv in H as (h2 & s4 & -> & Hh2 & H).
    destruct h2 as [|b [|? ?]]; try done.
    injection Hh2 as Hb. apply unfolded_gt in Hb. subst b.
    injection H as <-.
    exists pfx, pre, s4. split; [done|]. split; [exact Hp|]. split; [done|].
    f_equal. apply matched_text. by rewrite <- !(assoc_L (++)).
Qed.

Lemma img_match_intro pfx (body rest : str) :
  img_opening pfx → ">"%char ∉ body →
  match_here true img_tag_pattern (pfx ++ body ++ ">"%char :: rest) =
    Some (Mobj (pfx ++ body ++ [">"%char]) []).
Proof.
  intros Hp Hb. unfold match_here, img_tag_pattern. cbn [cat foldr run].
  rewrite run_str_ci by done.
  apply run_star_stop.
  - by apply none_of_Forall; [apply unfolded_gt|done|].
  - done.
  - change (txt "/") with ["/"%char].
    rewrite run_str_mismatch by (vm_compute; congruence).
    change (">"%char :: rest) with ([">"%char] ++ rest) at 1.
    rewrite run_str_ci by done. f_equal. f_equal.
    apply matched_text. by rewrite <- !(assoc_L (++)).
Qed.

Lemma img_opening_head pfx :
  img_opening pfx →
  ∃ c p, pfx = c :: p ∧ lower_char c = "<"%char
         ∧ Forall (λ x, lower_char x ≠ "<"%char) p.
Proof.
  unfold img_opening. intros H.
  destruct pfx as [|a [|b [|c [|d [|? ?]]]]]; try done.
  injection H as Ha Hb Hc Hd. exists a, [b; c; d]. split; [done|].
  split; [done|]. repeat constructor; congruence.
Qed.

Lemma img_opening_no_slash pfx l0 : img_opening pfx → pfx ≠ l0 ++ ["/"%char].
Proof.
  unfold img_opening. intros H E.
  assert (last (lower pfx) = Some "/"%char) as Hl.
  { rewrite last_lower, E, last_snoc. done. }
  rewrite H in Hl. done.
Qed.

(** The part of a tag in front of a closing [/>]. *)
Lemma self_closing_split pfx (body : str) :
  img_opening pfx →
  endswith (txt "/>") (pfx ++ body ++ [">"%char]) = true →
  ∃ b0, body = b0 ++ ["/"%char].
Proof.
  intros Hp H. rewrite (assoc_L (++)) in H.
  apply (endswith_snoc_inv "/" ">") in H as [l0 E].
  destruct body as [|x body _] using rev_ind.
  - rewrite app_nil_r in E. by apply img_opening_no_slash in E.
  - rewrite (assoc_L (++)) in E. apply app_inj_tail in E as [_ ->]. eauto.
Qed.

Section ImageRule.
(** The attribute a callback inserts, the name it looks for, and its
    change. *)
Variable attr : str.
Variable name : str.
Variable chg : change.
Variable cb : mobj → str * list change.

Hypothesis attr_has_name : contains name (lower attr) = true.
Hypothesis attr_no_gt : ">"%char ∉ attr.
(** The callback: a tag with the name, and possibly others, stays; every
    other tag gets the attribute in front of its closing. *)
Hypothesis cb_cases : ∀ m,
  cb m = (group0 m, [])
  ∨ (contains name (lower (group0 m)) = false
     ∧ if endswith (txt "/>") (group0 m)
       then cb m = (drop_last 2 (group0 m) ++ attr ++ txt " />", [chg])
       else endswith (txt ">") (group0 m) = true
            ∧ cb m = (drop_last 1 (group0 m) ++ attr ++ txt ">", [chg])).
Hypothesis cb_keeps : ∀ m,
  contains name (lower (group0 m)) = true → cb m = (group0 m, []).

Lemma image_cb_shape pfx (body : str) :
  img_opening pfx → ">"%char ∉ body →
  ∃ body',
    fst (cb (Mobj (pfx ++ body ++ [">"%char]) [])) = pfx ++ body' ++ [">"%char]
    ∧ (">"%char ∉ body')
    ∧ cb (Mobj (pfx ++ body' ++ [">"%char]) []) =
        (pfx ++ body' ++ [">"%char], []).
Proof.
  intros Hp Hb.
  destruct (cb_cases (Mobj (pfx ++ body ++ [">"%char]) [])) as [E|[Hn E]];
    simpl in *.
  - exists body. rewrite E. done.
  - destruct (endswith (txt "/>") (pfx ++ body ++ [">"%char])) eqn:Hend.
    + destruct (self_closing_split _ _ Hp Hend) as [b0 ->].
      exists (b0 ++ attr ++ txt " /"). rewrite E.
      replace (pfx ++ (b0 ++ ["/"%char]) ++ [">"%char])
        with ((pfx ++ b0) ++ txt "/>")
        by (by rewrite <- !(assoc_L (++))).
      rewrite (drop_last_app _ (txt "/>")). simpl.
      split; [by rewrite <- !(assoc_L (++))|]. split.
      * rewrite !elem_of_app. intros [Hin|[Hin|Hin]]; [|done|].
        -- apply Hb. rewrite elem_of_app. by left.
        -- vm_compute in Hin. repeat (apply elem_of_cons in Hin as [?|Hin];
             [done|]). by apply elem_of_nil in Hin.
      * apply cb_keeps. simpl. rewrite !lower_app.
        apply contains_app_r, contains_app_l, contains_app_r, contains_app_l.
        exact attr_has_name.
    + destruct E as [_ E]. exists (body ++ attr). rewrite E.
      rewrite drop_last_snoc2. simpl.
      split; [by rewrite <- !(assoc_L (++))|]. split.
      * rewrite elem_of_app. intros [?|?]; done.
      * apply cb_keeps. simpl. rewrite !lower_app.
        apply contains_app_r, contains_app_l, contains_app_r.
        exact attr_has_name.
Qed.
End ImageRule.

Lemma add_lazy_cases m :
  add_lazy m = (group0 m, [])
  ∨ (contains (txt "loading=") (lower (group0 m)) = false
     ∧ if endswith (txt "/>") (group0 m)
       then add_lazy m =
              (drop_last 2 (group0 m) ++ loading_attr ++ txt " />",
               [lazy_change])
       else endswith (txt ">") (group0 m) = true
            ∧ add_lazy m =
                (drop_last 1 (group0 m) ++ loading_attr ++ txt ">",
                 [lazy_change])).
Proof.
  unfold add_lazy.
  destruct (contains (txt "loading=") (lower (group0 m))); [by left|].
  destruct (any_in hero_indicators (lower (group0 m))); [by left|].
  destruct (endswith (txt "/>") (group0 m)); [by right|].
  destruct (endswith (txt ">") (group0 m)); [by right|by left].
Qed.

Lemma add_decoding_cases m :
  add_decoding m = (group0 m, [])
  ∨ (contains (txt "decoding=") (lower (group0 m)) = false
     ∧ if endswith (txt "/>") (group0 m)
       then add_decoding m =
              (drop_last 2 (group0 m) ++ decoding_attr ++ txt " />",
               [decoding_change])
       else endswith (txt ">") (group0 m) = true
            ∧ add_decoding m =
                (drop_last 1 (group0 m) ++ decoding_attr ++ txt ">",
                 [decoding_change])).
Proof.
  unfold add_decoding.
  destruct (contains (txt "decoding=") (lower (group0 m))); [by left|].
  destruct (endswith (txt "/>") (group0 m)); [by right|].
  destruct (endswith (txt ">") (group0 m)); [by right|by left].
Qed.

Lemma no_gt_in (s : str) :
  forallb (λ c, negb (bool_decide (c = ">"%char))) s = true → ">"%char ∉ s.
Proof.
  induction s as [|c s IH]; simpl; [intros _; apply not_elem_of_nil|].
  intros H. apply andb_true_iff in H as [Hc Hs].
  apply negb_true_iff, bool_decide_eq_false in Hc.
  rewrite elem_of_cons. intros [E|E]; [by subst c|by apply IH].
Qed.

(** X1.  [add_loading_lazy_to_images], applied to its own output, changes
    and logs nothing. *)
Theorem add_loading_lazy_idempotent (content : str) :
  add_loading_lazy_to_images (fst (add_loading_lazy_to_images content)) =
    (fst (add_loading_lazy_to_images content), []).
Proof.
  apply (delimited_idempotent img_tag_pattern ">" img_opening "<" add_lazy
           img_match_inv img_match_intro img_opening_head).
  apply (image_cb_shape loading_attr (txt "loading=") lazy_change).
  - by vm_compute.
  - apply no_gt_in. by vm_compute.
  - apply add_lazy_cases.
  - intros m H. unfold add_lazy. by rewrite H.
Qed.

(** X2.  [add_decoding_async_to_images], applied to its own output,
    changes and logs nothing. *)
Theorem add_decoding_async_idempotent (content : str) :
  add_decoding_async_to_images (fst (add_decoding_async_to_images content)) =
    (fst (add_decoding_async_to_images content), []).
Proof.
  apply (delimited_idempotent img_tag_pattern ">" img_opening "<" add_decoding
           img_match_inv img_match_intro img_opening_head).
  apply (image_cb_shape decoding_attr (txt "decoding=") decoding_change).
  - by vm_compute.
  - apply no_gt_in. by vm_compute.
  - apply add_decoding_cases.
  - intros m H. unfold add_decoding. by rewrite H.
Qed.

(** ** The font rule *)

Lemma font_match_inv (s : str) m :
  match_here true font_face_rule_pattern s = Some m →
  ∃ pfx body rest, s = pfx ++ body ++ "}"%char :: rest
                   ∧ font_face_opening pfx
                   ∧ ("}"%char ∉ body)
                   ∧ m = Mobj (pfx ++ body ++ ["}"%char]) [].
Proof.
  unfold match_here, font_face_rule_pattern. cbn [cat foldr run]. intros H.
  apply run_str_inv in H as (h & s1 & -> & Hh & H).
  apply run_star_inv in H as (ws & s2 & -> & Hws & H).
  apply run_str_inv in H as (o & s3 & -> & Ho & H).
  apply run_star_inv in H as (body & s4 & -> & Hbody & H).
  apply run_str_inv in H as (e & s5 & -> & He & H).
  apply none_of_Forall in Hbody; [|apply unfolded_rbrace|done].
  destruct o as [|a [|? ?]]; try done.
  destruct e as [|b [|? ?]]; try done.
  injection Ho as Ha. injection He as Hb.
  apply unfolded_lbrace in Ha. apply unfolded_rbrace in Hb. subst a b.
  injection H as <-.
  exists (h ++ ws ++ txt "{"), body, s5.
  split; [by rewrite <- !(assoc_L (++))|].
  split; [by exists h, ws|]. split; [done|].
  f_equal. apply matched_text. by rewrite <- !(assoc_L (++)).
Qed.

Lemma font_match_intro pfx (body rest : str) :
  font_face_opening pfx → "}"%char ∉ body →
  match_here true font_face_rule_pattern (pfx ++ body ++ "}"%char :: rest) =
    Some (Mobj (pfx ++ body ++ ["}"%char]) []).
Proof.
  intros (h & ws & -> & Hh & Hws) Hb.
  unfold match_here, font_face_rule_pattern. cbn [cat foldr run].
  rewrite <- !(assoc_L (++)).
  rewrite run_str_ci by done.
  apply run_star_stop; [done|done|].
  change ("{"%char :: body ++ "}"%char :: rest)
    with (txt "{" ++ body ++ "}"%char :: rest).
  rewrite run_str_ci by done.
  apply run_star_stop.
  - by apply none_of_Forall; [apply unfolded_rbrace|done|].
  - done.
  - change ("}"%char :: rest) with (txt "}" ++ rest).
    rewrite run_str_ci by done. f_equal. f_equal.
    apply matched_text. by rewrite <- !(assoc_L (++)).
Qed.

Lemma space_not_at c : in_class true Space c = true → lower_char c ≠ "@"%char.
Proof. revert c. intros [[] [] [] [] [] [] [] []]; vm_compute; congruence. Qed.

Lemma font_face_opening_head pfx :
  font_face_opening pfx →
  ∃ c p, pfx = c :: p ∧ lower_char c = "@"%char
         ∧ Forall (λ x, lower_char x ≠ "@"%char) p.
Proof.
  intros (h & ws & -> & Hh & Hws).
  destruct h as [|c h]; [done|]. injection Hh as Hc Hh.
  exists c, (h ++ ws ++ txt "{"). split; [done|]. split; [done|].
  rewrite !Forall_app. split; [|split].
  - assert (Forall (λ x, x ≠ "@"%char) (lower h)) as Hl.
    { rewrite Hh. repeat constructor; congruence. }
    clear Hh. induction h as [|x h IH]; [done|].
    simpl in Hl. apply Forall_cons in Hl as [Hx Hl].
    constructor; [done|by apply IH].
  - eapply Forall_impl; [exact Hws|]. intros x. apply space_not_at.
  - repeat constructor. vm_compute. congruence.
Qed.

Lemma font_cb_shape pfx (body : str) :
  font_face_opening pfx → "}"%char ∉ body →
  ∃ body',
    fst (add_display (Mobj (pfx ++ body ++ ["}"%char]) [])) =
      pfx ++ body' ++ ["}"%char]
    ∧ ("}"%char ∉ body')
    ∧ add_display (Mobj (pfx ++ body' ++ ["}"%char]) []) =
        (pfx ++ body' ++ ["}"%char], []).
Proof.
  intros Hp Hb. unfold add_display at 1. simpl.
  destruct (contains (txt "font-display")
              (lower (pfx ++ body ++ ["}"%char]))) eqn:Hc.
  - exists body. split; [done|]. split; [done|].
    unfold add_display. simpl. by rewrite Hc.
  - exists (body ++ [nl] ++ txt "  font-display: swap;" ++ [nl]).
    rewrite drop_last_snoc2. split; [|split].
    + simpl. unfold font_display_decl. by rewrite <- !(assoc_L (++)).
    + rewrite elem_of_app. intros [Hin|Hin]; [done|].
      vm_compute in Hin.
      repeat (apply elem_of_cons in Hin as [?|Hin]; [done|]).
      by apply elem_of_nil in Hin.
    + unfold add_display. simpl.
      rewrite !lower_app.
      rewrite (contains_app_r _ (lower pfx)); [done|].
      apply contains_app_l, contains_app_r.
      by vm_compute.
Qed.

(** X3.  [add_font_display_swap], applied to its own output, changes and
    logs nothing. *)
Theorem add_font_display_idempotent (content : str) :
  add_font_display_swap (fst (add_font_display_swap content)) =
    (fst (add_font_display_swap content), []).
Proof.
  apply (delimited_idempotent font_face_rule_pattern "}" font_face_opening
           "@" add_display font_match_inv font_match_intro
           font_face_opening_head font_cb_shape).
Qed.

(* ===================================================================== *)
(** * Applying the hero rule twice *)
(* ===================================================================== *)

(** C2 at [nested_hero_text]: the first application of
    [add_fetchpriority_to_hero_images] changes the [Image] tag, and the
    second application changes the text again and logs a change. *)
Theorem hero_rule_changes_its_own_output :
  add_fetchpriority_to_hero_images nested_hero_text =
    (nested_hero_once,
     [txt "Added fetchpriority='high' to Astro Image component"])
  ∧ add_fetchpriority_to_hero_images nested_hero_once =
    (nested_hero_twice,
     [txt "Added fetchpriority='high' to hero/banner class"])
  ∧ nested_hero_twice ≠ nested_hero_once.
Proof.
  split; [vm_compute; reflexivity|]. split; [vm_compute; reflexivity|].
  vm_compute. discriminate.
Qed.

(* ===================================================================== *)
(** * More on text and on the matcher *)
(* ===================================================================== *)

(** [needle in hay] holds exactly when [hay] splits around [needle]. *)
Lemma startswith_spec (p s : str) :
  startswith p s = true ↔ ∃ rest, s = p ++ rest.
Proof.
  revert s. induction p as [|a p IH]; intros s; simpl.
  - split; [eauto|done].
  - destruct s as [|b s]; simpl.
    + split; [done|]. by intros [? ?].
    + rewrite andb_true_iff, bool_decide_eq_true, IH. split.
      * intros [-> [rest ->]]. eauto.
      * intros [rest [= -> ->]]. eauto.
Qed.

Lemma contains_spec (n s : str) :
  contains n s = true ↔ ∃ a b, s = a ++ n ++ b.
Proof.
  induction s as [|c s IH]; simpl.
  - rewrite orb_false_r, startswith_spec. split.
    + intros [rest E]. exists [], rest. done.
    + intros (a & b & E). symmetry in E.
      apply app_eq_nil in E as [-> E]. apply app_eq_nil in E as [-> ->].
      by exists [].
  - rewrite orb_true_iff, startswith_spec, IH. split.
    + intros [[rest E]|(a & b & ->)].
      * exists [], rest. done.
      * exists (c :: a), b. done.
    + intros ([|x a] & b & E).
      * left. exists b. done.
      * right. injection E as -> ->. eauto.
Qed.

Lemma contains_false_spec (n s : str) :
  contains n s = false ↔ ∀ a b, s ≠ a ++ n ++ b.
Proof.
  rewrite <- not_true_iff_false, contains_spec. split.
  - intros H a b E. apply H. eauto.
  - intros H (a & b & E). by apply (H a b).
Qed.

(** An occurrence of a lower-case needle stays one under [lower]. *)
Lemma contains_lower (n s : str) :
  contains n s = true → contains (lower n) (lower s) = true.
Proof.
  rewrite !contains_spec. intros (a & b & ->).
  exists (lower a), (lower b). unfold lower. by rewrite !map_app.
Qed.

(** What holds a needle holds the beginning of the needle. *)
Lemma contains_shorter (n1 n2 s : str) :
  contains (n1 ++ n2) s = true → contains n1 s = true.
Proof.
  rewrite !contains_spec. intros (a & b & ->).
  exists a, (n2 ++ b). by rewrite <- (assoc_L (++)).
Qed.

Lemma contains_cons (n : str) c (s : str) :
  contains n s = true → contains n (c :: s) = true.
Proof. intros H. simpl. rewrite H. apply orb_true_r. Qed.

(** An occurrence does not reach over a character the needle lacks. *)
Lemma contains_app_sep (n a : str) t (b : str) :
  t ∉ n → contains n (a ++ t :: b) = true →
  contains n a = true ∨ contains n b = true.
Proof.
  intros Ht. rewrite !contains_spec. intros (u & v & E).
  apply app_eq_inv in E as [(k & -> & E)|(k & -> & E)].
  - (* the occurrence starts inside [a] *)
    apply app_eq_inv in E as [(k' & -> & E)|(k' & -> & E)].
    + destruct k' as [|x k']; simpl in E.
      * left. exists u, []. by rewrite !app_nil_r.
      * injection E as -> ->. destruct Ht.
        apply elem_of_app. right. left.
    + left. by exists u, k'.
  - (* the occurrence starts behind [a] *)
    destruct k as [|x k]; simpl in E.
    + destruct n as [|y n];
        [left; exists a, []; simpl; by rewrite app_nil_r|].
      injection E as -> E. destruct Ht. left.
    + injection E as -> ->. right. eauto.
Qed.

Section SubFinditer.
Context {C : Type}.
Variable ic : bool.
Variable r : regex.
Variable repl : mobj → str * list C.

(** [re.sub] calls its callback on the matches [re.finditer] yields, in
    their order. *)
Lemma sub_from_finditer n pos (s : str) :
  snd (sub_from ic r repl n s) =
    flat_map (λ pm, snd (repl pm.2)) (finditer_from ic r pos n s).
Proof.
  revert n pos. induction s as [|c s IH]; intros [|n] pos; simpl; try done.
  - destruct (match_here ic r []) as [m|]; [|done].
    simpl. destruct (repl m). simpl. by rewrite app_nil_r.
  - destruct (match_here ic r (c :: s)) as [m|].
    + destruct (repl m) as [out ch] eqn:E.
      destruct (length (group0 m)) as [|k]; simpl.
      * specialize (IH 0 (S pos)). destruct (sub_from ic r repl 0 s).
        simpl in *. by rewrite E, IH.
      * specialize (IH k (S pos)). rewrite Nat.sub_0_r.
        destruct (sub_from ic r repl k s). simpl in *. by rewrite E, IH.
    + specialize (IH 0 (S pos)). by destruct (sub_from ic r repl 0 s).
Qed.

Lemma sub_changes_finditer (s : str) :
  snd (sub ic r repl s) = flat_map (λ pm, snd (repl pm.2)) (finditer ic r s).
Proof. apply sub_from_finditer. Qed.

(** Every match [re.finditer] yields is a match at some place of the
    text. *)
Lemma finditer_from_matches n pos (s : str) :
  Forall (λ pm, ∃ s', match_here ic r s' = Some pm.2)
         (finditer_from ic r pos n s).
Proof.
  revert n pos. induction s as [|c s IH]; intros [|n] pos; simpl; try done.
  - destruct (match_here ic r []) as [m|] eqn:E; [|done].
    constructor; [|done]. eauto.
  - destruct (match_here ic r (c :: s)) as [m|] eqn:E; [|done].
    constructor; [eauto|done].
Qed.
End SubFinditer.

Lemma length_flat_map_le {A B1 B2} (f : A → list B1) (g : A → list B2)
    (P : A → Prop) (l : list A) :
  Forall P l → (∀ x, P x → length (f x) ≤ length (g x)) →
  length (flat_map f l) ≤ length (flat_map g l).
Proof.
  intros Hl H. induction Hl as [|x l Hx Hl IH]; simpl; [done|].
  rewrite !length_app. specialize (H x Hx). lia.
Qed.

(* ===================================================================== *)
(** * What the rewrite rules and the optimizer keep *)
(* ===================================================================== *)

(** X4.  The rules of a file only insert text: the list of changes is empty
    exactly when the text is returned as it was, the text never gets
    shorter, and with a change logged it gets longer.  This is what lets
    [optimize_file] test [content != original_content] where it means that
    there are changes. *)
Theorem rules_only_insert suffix risky (content : str) :
  let res := apply_rules suffix risky content in
  (snd res = [] ↔ fst res = content)
  ∧ length content ≤ length (fst res)
  ∧ (snd res ≠ [] → length content < length (fst res)).
Proof.
  intros res. pose proof (apply_rules_grows suffix risky content) as Hg.
  fold res in Hg. split; [|split].
  - destruct Hg as [[H1 H2]|[H1 H2]]; split; try done.
    intros E. rewrite E in H2. lia.
  - by apply grows_length.
  - intros Hne. destruct Hg as [[H1 H2]|[H1 H2]]; done.
Qed.

(** ** Where [optimize_file] and [optimize_project] write *)







(** ** A second run over a style sheet *)

Lemma stylesheet_rules suffix risky (content : str) :
  suffix ∈ [txt ".css"; txt ".scss"] →
  apply_rules suffix risky content =
    (fst (add_font_display_swap content), snd (add_font_display_swap content)).
Proof.
  intros Hs. unfold apply_rules.
  destruct (decide (suffix = txt ".astro")) as [->|_].
  { apply elem_of_cons in Hs as [Hs|Hs]; [discriminate|].
    apply list_elem_of_singleton in Hs. discriminate. }
  rewrite bool_decide_eq_true_2 by done.
  by destruct (add_font_display_swap content).
Qed.

(** X6.  After a run of [optimize_file] over a style sheet that ended
    without an error, a second run finds nothing to do: no changes, no
    backup, no error, and nothing on disk is touched. *)
Theorem stylesheet_second_run_is_noop f bd risky (w : world) :
  lower (path_suffix f) ∈ [txt ".css"; txt ".scss"] →
  tr_error (fst (optimize_file f bd risky w)) = None →
  optimize_file f bd risky (snd (optimize_file f bd risky w)) =
    (TransformResult f [] None None, snd (optimize_file f bd risky w)).
Proof.
  intros Hs.
  assert (∀ c w', read_text f w' = inr c →
            apply_rules (lower (path_suffix f)) risky c = (c, []) →
            optimize_file f bd risky w' =
              (TransformResult f [] None None, w')) as Hsame.
  { intros c w' Hr Ha. unfold optimize_file. rewrite Hr, Ha.
    by destruct (decide (c ≠ c)). }
  destruct (optimize_file_outcome f bd risky w)
    as [e Hr|original Hr Ha|original content ch e w1 Hr Ha Hne Hch Hbk
       |original content ch b e w1 Hr Ha Hne Hch Hbk Hw
       |original content ch b w1 Hr Ha Hne Hch Hbk Hw]; simpl; try done.
  - intros _. by apply (Hsame original).
  - intros _. apply (Hsame content).
    + destruct (backup_file_ok _ _ _ _ _ Hbk) as (c & _ & _ & _ & Hf & _).
      unfold read_text in *. simpl. rewrite Hf.
      destruct (fault w (OpRead f)); [done|].
      by rewrite lookup_insert_eq.
    + rewrite stylesheet_rules in Ha |- * by done.
      injection Ha as <- _.
      pose proof (delimited_idempotent font_face_rule_pattern "}"
                    font_face_opening "@" add_display font_match_inv
                    font_match_intro font_face_opening_head font_cb_shape
                    original) as Hi.
      fold (add_font_display_swap original) in Hi.
      fold (add_font_display_swap (fst (add_font_display_swap original)))
        in Hi.
      by rewrite Hi.
Qed.

(** X6 at the style sheet of the example: the first run adds the
    declaration, the second changes nothing. *)
Lemma stylesheet_second_run_is_noop_witness :
  let f := path_join (src_path site) fonts_css in
  let first := optimize_file f (backup_dir site) false stylesheet_world in
  tr_changes (fst first) = [font_display_change]
  ∧ optimize_file f (backup_dir site) false (snd first) =
      (TransformResult f [] None None, snd first).
Proof.
  cbv zeta. split; [vm_compute; reflexivity|].
  apply (stylesheet_second_run_is_noop
           (path_join (src_path site) fonts_css) (backup_dir site) false
           stylesheet_world).
  - vm_compute. left.
  - vm_compute. reflexivity.
Defined.

(** ** The totals of [optimize_project] *)

Lemma process_file_totals project risky results (w : world) rel :
  totals_agree results →
  totals_agree (fst (process_file project risky (results, w) rel)).
Proof.
  intros (Ht & Hm & Hs). unfold process_file.
  pose proof (optimize_file_outcome (path_join (src_path project) rel)
                (backup_dir project) risky w) as Ho.
  destruct (optimize_file _ _ risky w) as [r w1].
  assert (tr_changes r ≠ [] → is_Some (tr_backup r)) as Hb.
  { inversion Ho; subst; simpl; try done; eauto. }
  assert (∀ res,
            totals_agree
              (ProjectResults (pr_project_path res) (pr_backup_dir res)
                 (pr_include_risky res) (pr_files_processed res)
                 (pr_files_modified res) (pr_total_changes res)
                 (pr_errors res)) →
            totals_agree
              (fst (match tr_error r with
                    | Some (c :: e) =>
                        ProjectResults (pr_project_path res)
                          (pr_backup_dir res) (pr_include_risky res)
                          (pr_files_processed res) (pr_files_modified res)
                          (pr_total_changes res)
                          (pr_errors res ++ [(relative_to_project rel, c :: e)])
                    | _ => res
                    end, w1))) as Herr.
  { intros res H. by destruct (tr_error r) as [[|c e]|], res. }
  apply Herr. clear Herr.
  destruct (tr_changes r) as [|c ch] eqn:Ec; unfold totals_agree; simpl.
  - split; [done|]. split; [done|]. by apply sublist_inserts_r.
  - split; [|split].
    + rewrite map_app, sum_list_with_app. simpl. lia.
    + apply Forall_app. split; [done|].
      constructor; [|done]. simpl. split; [done|]. by apply Hb.
    + rewrite map_app. by apply sublist_app.
Qed.

Lemma foldl_process_file_totals project risky rels acc :
  totals_agree (fst acc) →
  totals_agree (fst (foldl (process_file project risky) acc rels)).
Proof.
  revert acc. induction rels as [|rel rels IH]; intros [results w] H;
    simpl; [done|].
  apply IH. by apply process_file_totals.
Qed.

(** X7.  In what [optimize_project] returns, [total_changes] is the sum of
    the lengths of the change lists in [files_modified]; every entry of
    [files_modified] has a change and a backup; and the files of
    [files_modified] come, in their order, from [files_processed]. *)
Theorem optimize_project_totals project risky astro css scss (w : world) :
  let results := fst (optimize_project project risky astro css scss w) in
  pr_total_changes results =
    sum_list (map (λ e, length (me_changes e)) (pr_files_modified results))
  ∧ Forall (λ e, me_changes e ≠ [] ∧ is_Some (me_backup e))
           (pr_files_modified results)
  ∧ map me_file (pr_files_modified results)
      `sublist_of` pr_files_processed results.
Proof.
  unfold optimize_project.
  apply foldl_process_file_totals, foldl_process_file_totals.
  unfold totals_agree. simpl. split; [done|]. split; [done|].
  apply sublist_nil_l.
Qed.

(* ===================================================================== *)
(** * The patterns of the optimizer and of the analyzers *)
(* ===================================================================== *)

(** ** The two image patterns *)

Lemma analyze_img_match_inv (s : str) m :
  match_here true Analyze.img_pattern s = Some m →
  ∃ pfx body rest, s = pfx ++ body ++ ">"%char :: rest ∧ img_opening pfx
                   ∧ (">"%char ∉ body)
                   ∧ m = Mobj (pfx ++ body ++ [">"%char]) [].
Proof.
  unfold match_here, Analyze.img_pattern. cbn [cat foldr run]. intros H.
  apply run_str_inv in H as (pfx & s1 & -> & Hp & H).
  apply run_star_inv in H as (pre & s2 & -> & Hpre & H).
  apply none_of_Forall in Hpre; [|apply unfolded_gt|done].
  apply run_str_inv in H as (h2 & s4 & -> & Hh2 & H).
  destruct h2 as [|b [|? ?]]; try done.
  injection Hh2 as Hb. apply unfolded_gt in Hb. subst b.
  injection H as <-.
  exists pfx, pre, s4. split; [done|]. split; [exact Hp|]. split; [done|].
  f_equal. apply matched_text. by rewrite <- !(assoc_L (++)).
Qed.

Lemma analyze_img_match_intro pfx (body rest : str) :
  img_opening pfx → ">"%char ∉ body →
  match_here true Analyze.img_pattern (pfx ++ body ++ ">"%char :: rest) =
    Some (Mobj (pfx ++ body ++ [">"%char]) []).
Proof.
  intros Hp Hb. unfold match_here, Analyze.img_pattern. cbn [cat foldr run].
  rewrite run_str_ci by done.
  apply run_star_stop.
  - by apply none_of_Forall; [apply unfolded_gt|done|].
  - done.
  - change (">"%char :: rest) with ([">"%char] ++ rest) at 1.
    rewrite run_str_ci by done. f_equal. f_equal.
    apply matched_text. by rewrite <- !(assoc_L (++)).
Qed.

(** At every place the two patterns match the same text. *)
Lemma img_patterns_match (s : str) :
  match_here true img_tag_pattern s = match_here true Analyze.img_pattern s.
Proof.
  destruct (match_here true img_tag_pattern s) as [m|] eqn:E1.
  - apply img_match_inv in E1 as (pfx & body & rest & -> & Hp & Hb & ->).
    symmetry. by apply analyze_img_match_intro.
  - destruct (match_here true Analyze.img_pattern s) as [m|] eqn:E2; [|done].
    apply analyze_img_match_inv in E2
      as (pfx & body & rest & -> & Hp & Hb & ->).
    by rewrite img_match_intro in E1.
Qed.

(** Patterns that match alike at every place have the same matches. *)
Lemma finditer_from_ext ic r1 r2 pos n (s : str) :
  (∀ s' : str, match_here ic r1 s' = match_here ic r2 s') →
  finditer_from ic r1 pos n s = finditer_from ic r2 pos n s.
Proof.
  intros H. revert pos n.
  induction s as [|c s IH]; intros pos [|n]; simpl; rewrite ?H; try done.
  destruct (match_here ic r2 (c :: s)); by rewrite IH.
Qed.

(** X8.  The pattern of the optimizer for image tags, with its optional
    slash in front of the closing [>], and the pattern of [analyze_images]
    without it find the same tags at the same places of every text: the
    slash is matched by the characters in front of it. *)
Theorem img_patterns_agree (content : str) :
  finditer true img_tag_pattern content =
    finditer true Analyze.img_pattern content.
Proof. apply finditer_from_ext, img_patterns_match. Qed.

(** ** External scripts *)

Lemma findings_of_all ty file fs :
  Forall (λ f, Analyze.type f = ty ∧ Analyze.file f = file) fs →
  findings_of ty file fs = length fs.
Proof.
  unfold findings_of. induction 1 as [|f fs [H1 H2] _ IH]; simpl; [done|].
  rewrite !bool_decide_eq_true_2 by done. simpl. by rewrite IH.
Qed.

Lemma script_tag_findings_shape file content :
  Forall (λ f, Analyze.type f = txt "script_blocking" ∧ Analyze.file f = file)
    (Analyze.script_tag_findings file content).
Proof.
  unfold Analyze.script_tag_findings.
  induction (finditer true Analyze.script_pattern content)
    as [|[start m] l IH]; simpl; [done|].
  destruct (negb _ && negb _); simpl; [|done]. by constructor.
Qed.

(** X9.  Every script tag [add_defer_to_external_scripts] rewrites is a tag
    [analyze_scripts] reports as [script_blocking]: the changes of the rule
    on a text are no more than the [script_blocking] findings for a file
    with that text.  (The analyzer looks for [defer] and [async] as
    written, the rule in any case, so the analyzer may report more.) *)
Theorem defer_changes_are_reported rel (content : str) :
  length (snd (add_defer_to_external_scripts content))
  ≤ findings_of (txt "script_blocking") (path_join (txt "src") rel)
      (Analyze.script_file_findings rel content).
Proof.
  unfold Analyze.script_file_findings. rewrite findings_of_app.
  rewrite (findings_of_all _ _ _ (script_tag_findings_shape _ content)).
  unfold add_defer_to_external_scripts. rewrite sub_changes_finditer.
  unfold Analyze.script_tag_findings.
  change Analyze.script_pattern with external_script_pattern.
  etrans; [|apply Nat.le_add_r].
  apply (length_flat_map_le _ _ (λ _, True)); [by apply Forall_true|].
  intros [start m] _. simpl. unfold add_defer.
  destruct (contains (txt "defer") (lower (group0 m))) eqn:E1; [simpl; lia|].
  destruct (contains (txt "async") (lower (group0 m))) eqn:E2; [simpl; lia|].
  destruct (contains (txt "defer") (group0 m)) eqn:E3.
  { apply contains_lower in E3. change (lower (txt "defer")) with (txt "defer")
      in E3. congruence. }
  destruct (contains (txt "async") (group0 m)) eqn:E4.
  { apply contains_lower in E4. change (lower (txt "async")) with (txt "async")
      in E4. congruence. }
  simpl. lia.
Qed.

(* ===================================================================== *)
(** * What a rewrite leaves for the analyzers *)
(* ===================================================================== *)

(** ** Text a substitution inserts, and text it keeps *)

Lemma contains_nil_inv (n : str) : contains n [] = true → n = [].
Proof. by destruct n. Qed.

Lemma contains_empty (s : str) : contains [] s = true.
Proof. by destruct s. Qed.

Section Inserted.
Context {C : Type}.
Variable ic : bool.
Variable r : regex.
Variable cb : mobj → str * list C.
Variable n : str.
Hypothesis cb_inserts :
  ∀ m, snd (cb m) ≠ [] → contains n (fst (cb m)) = true.

(** When every replacement that logs a change holds [n], a substitution
    that logs a change returns a text that holds [n]. *)
Lemma sub_inserted (s : str) :
  snd (sub ic r cb s) ≠ [] → contains n (fst (sub ic r cb s)) = true.
Proof.
  remember (length s) as k eqn:Hk. revert s Hk.
  induction k as [k IH] using lt_wf_ind. intros s ->.
  destruct (match_here ic r s) as [m|] eqn:E.
  - destruct (match_here_prefix _ _ _ _ E) as [rest Hr].
    pose proof (cb_inserts m) as Hm.
    destruct (group0 m) as [|c0 g] eqn:Eg.
    + (* an empty match *)
      simpl in Hr. subst rest. unfold sub.
      destruct s as [|c s]; simpl; rewrite E.
      * destruct (cb m). simpl in *. auto.
      * rewrite Eg. simpl.
        specialize (IH (length s) ltac:(simpl; lia) s eq_refl).
        unfold sub in IH.
        destruct (cb m) as [out ch].
        destruct (sub_from ic r cb 0 s) as [o2 c2]. simpl in *.
        intros Hne. destruct ch as [|x ch].
        -- apply contains_app_r, contains_cons, IH. done.
        -- apply contains_app_l, Hm. done.
    + rewrite (sub_match ic r cb s rest m E) by (rewrite ?Eg; done).
      simpl. intros Hne.
      destruct (snd (cb m)) as [|x ch] eqn:Ech.
      * apply contains_app_r. apply (IH (length rest)); [|done|done].
        rewrite Hr, length_app. simpl. lia.
      * apply contains_app_l, Hm. done.
  - destruct s as [|c s].
    + rewrite sub_nil by done. done.
    + rewrite sub_cons_none by done. simpl. intros Hne.
      apply contains_cons. by apply (IH (length s) ltac:(simpl; lia) s).
Qed.
End Inserted.

Section Keeps.
Context {C : Type}.
Variable r : regex.
Variable cb : mobj → str * list C.
(** The text looked for, the first and the last character of every match. *)
Variable n : str.
Variable x t : ascii.
Hypothesis n_no_x : x ∉ n.
Hypothesis n_no_t : t ∉ n.
Hypothesis match_shape :
  ∀ (s : str) m, match_here true r s = Some m →
    ∃ body, group0 m = x :: body ++ [t].
Hypothesis cb_keeps :
  ∀ (s : str) m, match_here true r s = Some m →
    contains n (drop_last 1 (group0 m)) = true →
    contains n (fst (cb m)) = true.

Lemma no_match_inside c (s : str) :
  c ∈ n → match_here true r (c :: s) = None.
Proof.
  intros Hc. destruct (match_here true r (c :: s)) as [m|] eqn:E; [|done].
  destruct (match_shape _ _ E) as [body Hg].
  destruct (match_here_prefix _ _ _ _ E) as [rest Hr].
  rewrite Hg in Hr. injection Hr as -> _. done.
Qed.

(** A stretch of characters of [n] is copied. *)
Lemma sub_copies (p s : str) :
  (∀ c, c ∈ p → c ∈ n) →
  sub true r cb (p ++ s) = (p ++ fst (sub true r cb s), snd (sub true r cb s)).
Proof.
  induction p as [|c p IH]; intros Hp; simpl.
  - by destruct (sub true r cb s).
  - rewrite sub_cons_none by (apply no_match_inside, Hp; left).
    rewrite IH; [done|]. intros c' Hc'. apply Hp. by right.
Qed.

(** A text that holds [n] holds it after the substitution: no occurrence
    reaches over the first or the last character of a match, and the
    replacement keeps the occurrences inside. *)
Lemma sub_keeps (s : str) :
  contains n s = true → contains n (fst (sub true r cb s)) = true.
Proof.
  remember (length s) as k eqn:Hk. revert s Hk.
  induction k as [k IH] using lt_wf_ind. intros s -> Hs.
  destruct (startswith n s) eqn:Hsw.
  { apply startswith_spec in Hsw as [rest ->].
    rewrite sub_copies by done. simpl. apply contains_prefix. }
  destruct s as [|c s].
  { change (contains n []) with (startswith n [] || false) in Hs.
    by rewrite Hsw in Hs. }
  change (contains n (c :: s)) with (startswith n (c :: s) || contains n s)
    in Hs.
  rewrite Hsw in Hs. simpl in Hs.
  destruct (match_here true r (c :: s)) as [m|] eqn:E.
  - destruct (match_shape _ _ E) as [body Hg].
    destruct (match_here_prefix _ _ _ _ E) as [rest Hr].
    rewrite (sub_match true r cb (c :: s) rest m E);
      [|by rewrite Hg|exact Hr].
    simpl.
    assert (contains n ((x :: body) ++ t :: rest) = true) as Hc.
    { assert (c :: s = (x :: body) ++ t :: rest) as Es.
      { rewrite Hr, Hg. simpl. by rewrite <- (assoc_L (++)). }
      rewrite <- Es. by apply contains_cons. }
    apply contains_app_sep in Hc as [Hc|Hc]; [| |done].
    + apply contains_app_l, (cb_keeps _ _ E).
      rewrite Hg.
      change (x :: body ++ [t]) with ((x :: body) ++ [t]).
      by rewrite drop_last_snoc.
    + apply contains_app_r. apply (IH (length rest)); [|done|done].
      rewrite Hr, Hg, length_app. simpl. lia.
  - rewrite sub_cons_none by done. simpl.
    apply contains_cons. by apply (IH (length s) ltac:(simpl; lia) s).
Qed.
End Keeps.

(** ** The shape of a tag *)

Lemma unfolded_lt : unfolded "<".
Proof. intros [[] [] [] [] [] [] [] []]; vm_compute; congruence. Qed.

(** A pattern that ends in a literal ends its match with that literal. *)
Lemma run_cat_last {R} (rs : list regex) (q s : str) caps
    (k : str → captures → option R) y :
  run true (cat (rs ++ [Str q])) s caps k = Some y →
  ∃ pre h s' caps', s = pre ++ h ++ s' ∧ lower h = lower q
                    ∧ k s' caps' = Some y.
Proof.
  revert s caps. induction rs as [|r1 rs IH]; intros s caps H.
  - cbn [app cat foldr run] in H.
    apply run_str_inv in H as (h & u & -> & Hh & H).
    exists [], h, u, caps. done.
  - change (cat ((r1 :: rs) ++ [Str q]))
      with (Seq r1 (cat (rs ++ [Str q]))) in H.
    cbn [run] in H.
    apply run_sound in H as (pre1 & s1 & caps1 & -> & H).
    apply IH in H as (pre & h & s' & caps' & -> & Hh & H).
    exists (pre1 ++ pre), h, s', caps'. by rewrite <- (assoc_L (++)).
Qed.

(** A pattern from [<] and more up to a closing [>] matches a text of that
    shape. *)
Lemma tag_shape (p : str) (rs : list regex) (s : str) m :
  match_here true (cat (Str ("<"%char :: p) :: rs ++ [Str (txt ">")])) s
    = Some m →
  ∃ body, group0 m = "<"%char :: body ++ [">"%char].
Proof.
  unfold match_here.
  change (cat (Str ("<"%char :: p) :: rs ++ [Str (txt ">")]))
    with (Seq (Str ("<"%char :: p)) (cat (rs ++ [Str (txt ">")]))).
  cbn [run]. intros H.
  apply run_str_inv in H as (h & u & -> & Hh & H).
  apply run_cat_last in H as (pre & g & s' & caps' & -> & Hg & H).
  injection H as <-. simpl.
  destruct h as [|a h]; [done|]. injection Hh as Ha Hh.
  apply unfolded_lt in Ha. subst a.
  destruct g as [|b [|? ?]]; try done. injection Hg as Hb.
  apply unfolded_gt in Hb. subst b.
  exists (h ++ pre).
  rewrite (matched_text ("<"%char :: (h ++ pre) ++ [">"%char]) s');
    [done|]. simpl. by rewrite <- !(assoc_L (++)).
Qed.

Lemma img_tag_shape (s : str) m :
  match_here true img_tag_pattern s = Some m →
  ∃ body, group0 m = "<"%char :: body ++ [">"%char].
Proof.
  intros H. apply img_match_inv in H as (pfx & body & rest & -> & Hp & _ & ->).
  apply img_opening_head in Hp as (c & p & -> & Hc & _).
  apply unfolded_lt in Hc. subst c. simpl.
  exists (p ++ body). by rewrite <- (assoc_L (++)).
Qed.

Lemma script_tag_shape (s : str) m :
  match_here true external_script_pattern s = Some m →
  ∃ body, group0 m = "<"%char :: body ++ [">"%char].
Proof.
  apply (tag_shape (txt "script")
           [Star (NoneOf [">"%char]); Str (txt "src=");
            One (OneOf quotes); Str (txt "http"); Opt (Str (txt "s"));
            Str (txt "://"); Plus (NoneOf quotes); One (OneOf quotes);
            Star (NoneOf [">"%char])]).
Qed.

(** ** The callbacks *)

Lemma tag_unsnoc (tag : str) :
  (∃ body, tag = "<"%char :: body ++ [">"%char]) →
  tag = drop_last 1 tag ++ [">"%char].
Proof.
  intros [body ->].
  change ("<"%char :: body ++ [">"%char])
    with (("<"%char :: body) ++ [">"%char]).
  by rewrite drop_last_snoc.
Qed.

(** An attribute put in front of the closing [>] or [/>] of a tag keeps
    every text of the tag that has no [/]. *)
Lemma insert_before_close_keeps (n tag attr : str) :
  "/"%char ∉ n →
  (∃ body, tag = "<"%char :: body ++ [">"%char]) →
  contains n (drop_last 1 tag) = true →
  contains n tag = true
  ∧ contains n (drop_last 1 tag ++ attr ++ txt ">") = true
  ∧ (endswith (txt "/>") tag = true →
     contains n (drop_last 2 tag ++ attr ++ txt " />") = true).
Proof.
  intros Hn Htag Hc. pose proof (tag_unsnoc tag Htag) as E.
  split; [|split].
  - rewrite E. by apply contains_app_l.
  - by apply contains_app_l.
  - intros He. rewrite E in He.
    apply (endswith_snoc_inv "/" ">") in He as [l0 El].
    assert (drop_last 2 tag = l0) as ->.
    { rewrite E, El, <- (assoc_L (++)).
      apply (drop_last_app l0 (txt "/>")). }
    rewrite El in Hc. apply contains_app_l.
    apply contains_app_sep in Hc as [Hc|Hc]; [done| |done].
    apply contains_nil_inv in Hc as ->. apply contains_empty.
Qed.

Lemma add_lazy_keeps (n : str) (s : str) m :
  "/"%char ∉ n →
  match_here true img_tag_pattern s = Some m →
  contains n (drop_last 1 (group0 m)) = true →
  contains n (fst (add_lazy m)) = true.
Proof.
  intros Hn Hm Hc.
  destruct (insert_before_close_keeps n (group0 m) loading_attr Hn
              (img_tag_shape _ _ Hm) Hc) as (H1 & H2 & H3).
  unfold add_lazy.
  destruct (contains (txt "loading=") _); [done|].
  destruct (any_in _ _); [done|].
  destruct (endswith (txt "/>") _); [by apply H3|].
  by destruct (endswith (txt ">") _).
Qed.

Lemma add_decoding_keeps (n : str) (s : str) m :
  "/"%char ∉ n →
  match_here true img_tag_pattern s = Some m →
  contains n (drop_last 1 (group0 m)) = true →
  contains n (fst (add_decoding m)) = true.
Proof.
  intros Hn Hm Hc.
  destruct (insert_before_close_keeps n (group0 m) decoding_attr Hn
              (img_tag_shape _ _ Hm) Hc) as (H1 & H2 & H3).
  unfold add_decoding.
  destruct (contains (txt "decoding=") _); [done|].
  destruct (endswith (txt "/>") _); [by apply H3|].
  by destruct (endswith (txt ">") _).
Qed.

Lemma add_defer_keeps (n : str) (s : str) m :
  "/"%char ∉ n →
  match_here true external_script_pattern s = Some m →
  contains n (drop_last 1 (group0 m)) = true →
  contains n (fst (add_defer m)) = true.
Proof.
  intros Hn Hm Hc.
  destruct (insert_before_close_keeps n (group0 m) (txt " defer") Hn
              (script_tag_shape _ _ Hm) Hc) as (H1 & H2 & _).
  unfold add_defer. by destruct (_ || _).
Qed.

(** The rules behind the hero rule keep a text without [<], [>] and [/]. *)
Lemma lazy_rule_keeps (n : str) (c1 : str) :
  "<"%char ∉ n → ">"%char ∉ n → "/"%char ∉ n →
  contains n c1 = true →
  contains n (fst (add_loading_lazy_to_images c1)) = true.
Proof.
  intros H1 H2 H3 Hc.
  apply (sub_keeps img_tag_pattern add_lazy n "<"%char ">"%char H1 H2
           img_tag_shape); [|done].
  intros s m. by apply add_lazy_keeps.
Qed.

Lemma tail_rules_keep (n : str) (risky : bool) (c2 : str) :
  "<"%char ∉ n → ">"%char ∉ n → "/"%char ∉ n →
  contains n c2 = true →
  let c3 := fst (add_decoding_async_to_images c2) in
  contains n (if risky then fst (add_defer_to_external_scripts c3) else c3)
    = true.
Proof.
  intros H1 H2 H3 Hc c3.
  assert (contains n c3 = true) as Hc3.
  { apply (sub_keeps img_tag_pattern add_decoding n "<"%char ">"%char H1 H2
             img_tag_shape); [|done]. intros s m. by apply add_decoding_keeps. }
  destruct risky; [|done].
  apply (sub_keeps external_script_pattern add_defer n "<"%char ">"%char H1 H2
           script_tag_shape); [|done].
  intros s m. by apply add_defer_keeps.
Qed.

Lemma not_in_text (c : ascii) (s : str) :
  forallb (λ x, negb (bool_decide (x = c))) s = true → c ∉ s.
Proof.
  induction s as [|x s IH]; simpl; [intros _; apply not_elem_of_nil|].
  intros H. apply andb_true_iff in H as [Hx Hs].
  apply negb_true_iff, bool_decide_eq_false in Hx.
  rewrite elem_of_cons. intros [E|E]; [by subst x|by apply IH].
Qed.

Lemma add_lazy_inserts m :
  snd (add_lazy m) ≠ [] → contains (txt "loading=") (fst (add_lazy m)) = true.
Proof.
  unfold add_lazy.
  destruct (contains (txt "loading=") _); [done|].
  destruct (any_in _ _); [done|].
  destruct (endswith (txt "/>") _); cbn [fst snd].
  { intros _. apply contains_app_r, contains_app_l. by vm_compute. }
  destruct (endswith (txt ">") _); cbn [fst snd]; [|done].
  intros _. apply contains_app_r, contains_app_l. by vm_compute.
Qed.

Lemma add_priority_inserts desc m :
  snd (add_priority desc m) ≠ [] →
  contains (txt "fetchpriority") (fst (add_priority desc m)) = true.
Proof.
  unfold add_priority. destruct (negb _); cbn [fst snd]; [|done].
  intros _. apply contains_app_r, contains_app_l. by vm_compute.
Qed.

Lemma add_display_inserts m :
  snd (add_display m) ≠ [] →
  contains (txt "font-display") (fst (add_display m)) = true.
Proof.
  unfold add_display. destruct (contains _ _); cbn [fst snd]; [done|].
  intros _. apply contains_app_r. by vm_compute.
Qed.

(** A change of the hero rule leaves [fetchpriority] in the text. *)
Lemma hero_rule_inserts (content : str) :
  snd (add_fetchpriority_to_hero_images content) ≠ [] →
  contains (txt "fetchpriority")
    (fst (add_fetchpriority_to_hero_images content)) = true.
Proof.
  rewrite add_fetchpriority_unfold. cbv zeta. simpl.
  set (r1 := sub true (hero_pattern (txt "<img"))
               (add_priority (txt "hero/banner class")) content).
  set (r2 := sub true (hero_pattern (txt "<Image"))
               (add_priority (txt "Astro Image component")) (fst r1)).
  intros Hne.
  destruct (snd r2) as [|c ch] eqn:E2.
  - assert (fst r2 = fst r1) as ->.
    { assert (grows (fst r1) r2) as [[_ H]|[H _]]; [|done|congruence].
      apply sub_grows. intros s m H. eapply add_priority_grows. eauto. }
    rewrite app_nil_r in Hne.
    by apply (sub_inserted true _ _ _ (add_priority_inserts _)).
  - apply (sub_inserted true _ _ _ (add_priority_inserts _)).
    fold r2. by rewrite E2.
Qed.

Lemma lazy_rule_changes (content : str) :
  Forall (λ c, c = lazy_change) (snd (add_loading_lazy_to_images content)).
Proof.
  apply sub_changes_all. intros m. unfold add_lazy.
  repeat (match goal with
          | |- context [if ?b then _ else _] => destruct b
          end; try done); by constructor.
Qed.

Lemma decoding_rule_changes (content : str) :
  Forall (λ c, c = decoding_change)
    (snd (add_decoding_async_to_images content)).
Proof.
  apply sub_changes_all. intros m. unfold add_decoding.
  repeat (match goal with
          | |- context [if ?b then _ else _] => destruct b
          end; try done); by constructor.
Qed.

Lemma hero_rule_changes (content : str) :
  Forall (λ c, startswith (txt "Added fetchpriority") c = true)
    (snd (add_fetchpriority_to_hero_images content)).
Proof.
  rewrite add_fetchpriority_unfold. cbv zeta. simpl.
  apply Forall_app. split; apply sub_changes_all; intros m;
    unfold add_priority; (destruct (negb _); simpl; [|done]);
    by constructor.
Qed.

(** The rules of an [.astro] file, one behind the other. *)
Lemma astro_rules risky (content : str) :
  let r1 := add_fetchpriority_to_hero_images content in
  let r2 := add_loading_lazy_to_images (fst r1) in
  let r3 := add_decoding_async_to_images (fst r2) in
  let r4 := add_defer_to_external_scripts (fst r3) in
  apply_rules (txt ".astro") risky content =
    (if risky then fst r4 else fst r3,
     ((snd r1 ++ snd r2) ++ snd r3) ++ (if risky then snd r4 else [])).
Proof.
  cbv zeta. unfold apply_rules.
  rewrite decide_True by done.
  destruct (add_fetchpriority_to_hero_images content) as [c1 ch1]. simpl.
  destruct (add_loading_lazy_to_images c1) as [c2 ch2]. simpl.
  destruct (add_decoding_async_to_images c2) as [c3 ch3]. simpl.
  destruct risky; [|by rewrite app_nil_r].
  by destruct (add_defer_to_external_scripts c3) as [c4 ch4].
Qed.

(** ** Findings that a rewrite resolves *)

(** X10.  When the rules of an [.astro] file log the change of
    [add_loading_lazy_to_images], the text they return holds [loading=],
    so [analyze_images] has no [image_loading] finding for a file with that
    text. *)
Theorem lazy_change_resolves_image_loading risky (content : str) rel :
  lazy_change ∈ snd (apply_rules (txt ".astro") risky content) →
  contains (txt "loading=") (fst (apply_rules (txt ".astro") risky content))
    = true
  ∧ Forall (λ f, Analyze.type f ≠ txt "image_loading")
      (Analyze.astro_file_findings rel
         (fst (apply_rules (txt ".astro") risky content))).
Proof.
  rewrite astro_rules. cbv zeta. simpl.
  set (r1 := add_fetchpriority_to_hero_images content).
  set (r2 := add_loading_lazy_to_images (fst r1)).
  set (r3 := add_decoding_async_to_images (fst r2)).
  intros Hin.
  assert (snd r2 ≠ []) as Hne.
  { rewrite !elem_of_app in Hin.
    destruct Hin as [[[Hin|Hin]|Hin]|Hin].
    - pose proof (hero_rule_changes content) as H.
      rewrite Forall_forall in H. apply H in Hin. by vm_compute in Hin.
    - intros E. rewrite E in Hin. by apply elem_of_nil in Hin.
    - pose proof (decoding_rule_changes (fst r2)) as H.
      rewrite Forall_forall in H. apply H in Hin. by vm_compute in Hin.
    - destruct risky; [|by apply elem_of_nil in Hin].
      pose proof (defer_rule_changes (fst r3)) as H.
      rewrite Forall_forall in H. apply H in Hin. by vm_compute in Hin. }
  assert (contains (txt "loading=") (fst r2) = true) as Hc2
    by apply (sub_inserted true _ _ _ add_lazy_inserts), Hne.
  pose proof (tail_rules_keep (txt "loading=") risky (fst r2)
                ltac:(by apply not_in_text) ltac:(by apply not_in_text)
                ltac:(by apply not_in_text) Hc2) as Hc.
  cbv zeta in Hc. fold r3 in Hc.
  split; [exact Hc|].
  unfold Analyze.astro_file_findings. rewrite Hc, andb_false_r.
  rewrite !Forall_app. split; [|split; [done|]].
  - eapply Forall_impl; [apply img_tag_findings_shape|].
    intros f [E _]. rewrite E. by vm_compute.
  - destruct (priority_findings_shape (path_join (txt "src") rel)
                (if risky then fst (add_defer_to_external_scripts (fst r3))
                 else fst r3) Analyze.hero_patterns) as [->| ->]; [done|].
    constructor; [|done]. by vm_compute.
Qed.

(** X10 at the tag of the scenario. *)
Lemma lazy_change_resolves_image_loading_witness :
  contains (txt "loading=") (fst (apply_rules (txt ".astro") false img_tag))
    = true
  ∧ Forall (λ f, Analyze.type f ≠ txt "image_loading")
      (Analyze.astro_file_findings index_astro
         (fst (apply_rules (txt ".astro") false img_tag))).
Proof.
  apply (lazy_change_resolves_image_loading false img_tag index_astro).
  vm_compute. left.
Defined.

(** X11.  When the rules of an [.astro] file log a change of
    [add_fetchpriority_to_hero_images], the text they return holds
    [fetchpriority], so [analyze_images] has no [image_priority] finding
    for a file with that text. *)
Theorem fetchpriority_change_resolves_image_priority risky (content : str)
    rel c :
  c ∈ snd (apply_rules (txt ".astro") risky content) →
  startswith (txt "Added fetchpriority") c = true →
  contains (txt "fetchpriority")
    (fst (apply_rules (txt ".astro") risky content)) = true
  ∧ Forall (λ f, Analyze.type f ≠ txt "image_priority")
      (Analyze.astro_file_findings rel
         (fst (apply_rules (txt ".astro") risky content))).
Proof.
  rewrite astro_rules. cbv zeta. simpl.
  set (r1 := add_fetchpriority_to_hero_images content).
  set (r2 := add_loading_lazy_to_images (fst r1)).
  set (r3 := add_decoding_async_to_images (fst r2)).
  intros Hin Hc.
  assert (snd r1 ≠ []) as Hne.
  { rewrite !elem_of_app in Hin.
    destruct Hin as [[[Hin|Hin]|Hin]|Hin].
    - intros E. rewrite E in Hin. by apply elem_of_nil in Hin.
    - pose proof (lazy_rule_changes (fst r1)) as H.
      rewrite Forall_forall in H. apply H in Hin. subst c.
      by vm_compute in Hc.
    - pose proof (decoding_rule_changes (fst r2)) as H.
      rewrite Forall_forall in H. apply H in Hin. subst c.
      by vm_compute in Hc.
    - destruct risky; [|by apply elem_of_nil in Hin].
      pose proof (defer_rule_changes (fst r3)) as H.
      rewrite Forall_forall in H. apply H in Hin. subst c.
      by vm_compute in Hc. }
  pose proof (hero_rule_inserts content Hne) as H1. fold r1 in H1.
  pose proof (lazy_rule_keeps (txt "fetchpriority") (fst r1)
                ltac:(by apply not_in_text) ltac:(by apply not_in_text)
                ltac:(by apply not_in_text) H1) as H2.
  fold r2 in H2.
  pose proof (tail_rules_keep (txt "fetchpriority") risky (fst r2)
                ltac:(by apply not_in_text) ltac:(by apply not_in_text)
                ltac:(by apply not_in_text) H2) as H3.
  cbv zeta in H3. fold r3 in H3.
  split; [exact H3|].
  unfold Analyze.astro_file_findings.
  rewrite !Forall_app. split; [|split].
  - eapply Forall_impl; [apply img_tag_findings_shape|].
    intros f [E _]. rewrite E. by vm_compute.
  - destruct (_ && _); [|done]. constructor; [|done]. by vm_compute.
  - assert (∀ file (text : str) patterns,
              contains (txt "fetchpriority") text = true →
              Analyze.priority_findings file text patterns = []) as Hp.
    { intros file text patterns Ht.
      induction patterns as [|p ps IH]; simpl; [done|].
      by rewrite Ht, andb_false_r. }
    by rewrite Hp.
Qed.

(** X11 at a hero image. *)
Lemma fetchpriority_change_resolves_image_priority_witness :
  contains (txt "fetchpriority")
    (fst (apply_rules (txt ".astro") false hero_tag)) = true
  ∧ Forall (λ f, Analyze.type f ≠ txt "image_priority")
      (Analyze.astro_file_findings index_astro
         (fst (apply_rules (txt ".astro") false hero_tag))).
Proof.
  apply (fetchpriority_change_resolves_image_priority false hero_tag
           index_astro (txt "Added fetchpriority='high' to hero/banner class")).
  - vm_compute. left.
  - vm_compute. reflexivity.
Defined.

(** X12.  When the rule of a style sheet logs a change, the text it
    returns holds [font-display], so [analyze_fonts] has no [font_display]
    finding for a file with that text. *)
Theorem font_display_change_resolves_finding suffix risky (content : str)
    rel :
  suffix ∈ [txt ".css"; txt ".scss"] →
  snd (apply_rules suffix risky content) ≠ [] →
  contains (txt "font-display") (fst (apply_rules suffix risky content))
    = true
  ∧ Analyze.font_display_findings rel
      (fst (apply_rules suffix risky content)) = [].
Proof.
  intros Hs. rewrite stylesheet_rules by done. simpl. intros Hne.
  pose proof (sub_inserted true font_face_rule_pattern add_display
                (txt "font-display") add_display_inserts content Hne) as Hc.
  split; [exact Hc|].
  unfold Analyze.font_display_findings.
  unfold add_font_display_swap. by rewrite Hc, andb_false_r.
Qed.

(** X12 at the style sheet of the example. *)
Lemma font_display_change_resolves_finding_witness :
  contains (txt "font-display") (fst (apply_rules (txt ".css") false font_css))
    = true
  ∧ Analyze.font_display_findings fonts_css
      (fst (apply_rules (txt ".css") false font_css)) = [].
Proof.
  apply (font_display_change_resolves_finding (txt ".css") false font_css
           fonts_css).
  - left.
  - vm_compute. discriminate.
Defined.

(* ===================================================================== *)
(** * The analyzers of [analyze.py] *)
(* ===================================================================== *)

(** ** [analyze_astro_config] *)

(** X13.  For a project with a configuration that can be read,
    [analyze_astro_config] reports [config_compress] exactly when
    [compress] does not occur in the configuration: its second test, for
    [compressHTML], never decides, since a text with [compressHTML] holds
    [compress]. *)
Theorem config_compress_iff_no_compress project config rest (w : world)
    (content : str) fs :
  read_text (path_join project config) w = inr content →
  Analyze.analyze_astro_config project (config :: rest) w = inr fs →
  (Analyze.config_compress config ∈ fs
   ↔ contains (txt "compress") content = false).
Proof.
  intros Hr. unfold Analyze.analyze_astro_config. rewrite Hr. simpl.
  intros [= <-]. rewrite elem_of_app.
  assert (Analyze.config_compress config ∉
            (if negb (contains (txt "image:") content)
                && negb (contains (txt "astro:assets") content)
             then [Analyze.config_image config] else [])) as Hno.
  { destruct (_ && _); [|apply not_elem_of_nil].
    intros H. apply list_elem_of_singleton in H. discriminate. }
  destruct (contains (txt "compress") content) eqn:E1; simpl.
  - split; [|done]. intros [H|H]; [done|]. by apply elem_of_nil in H.
  - destruct (contains (txt "compressHTML") content) eqn:E2.
    { apply (contains_shorter (txt "compress") (txt "HTML")) in E2.
      congruence. }
    simpl. split; [done|]. intros _. right. left.
Qed.

(** X13 at a configuration that sets nothing. *)
Lemma config_compress_iff_no_compress_witness :
  Analyze.config_compress astro_config
    ∈ [Analyze.config_image astro_config;
       Analyze.config_compress astro_config]
  ↔ contains (txt "compress") (txt "export default {};") = false.
Proof.
  apply (config_compress_iff_no_compress site astro_config [] config_world).
  - vm_compute. reflexivity.
  - vm_compute. reflexivity.
Defined.

(** ** [analyze_css] *)

(** X14.  [analyze_css] reports [css_content_visibility] for a project
    without style sheets; and it stops reading at the first style sheet
    that mentions [content-visibility]: with such a file, and the files in
    front of it readable, it reports nothing, whatever comes behind, be it
    a file that cannot be read. *)
Theorem analyze_css_stops_at_first_hit project (w : world) :
  Analyze.analyze_css project [] w = inr [Analyze.css_content_visibility]
  ∧ ∀ before hit after (content : str),
      Forall (λ rel, ∃ c : str,
                read_text (path_join (path_join project (txt "src")) rel) w
                  = inr c
                ∧ contains (txt "content-visibility") c = false) before →
      read_text (path_join (path_join project (txt "src")) hit) w
        = inr content →
      contains (txt "content-visibility") content = true →
      Analyze.analyze_css project (before ++ hit :: after) w = inr [].
Proof.
  split; [done|]. intros before hit after content Hb Hr Hc.
  unfold Analyze.analyze_css.
  assert (Analyze.has_content_visibility project (before ++ hit :: after) w
          = inr true) as ->; [|done].
  induction Hb as [|rel before (c & Hrc & Hcc) _ IH]; simpl.
  - rewrite Hr. simpl. by rewrite Hc.
  - rewrite Hrc. simpl. by rewrite Hcc.
Qed.

(** ** The report of [analyze_project] *)

Lemma foldl_analyzers (analyzers : list Analyze.analyzer) p (w : world)
    found :
  foldl (λ found a,
           match a p w with
           | inr fs => found ++ fs
           | inl _ => found
           end) found analyzers =
  found ++ flat_map (λ a, match a p w with
                          | inr fs => fs
                          | inl _ => []
                          end) analyzers.
Proof.
  revert found. induction analyzers as [|a l IH]; intros found; simpl.
  - by rewrite app_nil_r.
  - rewrite IH. destruct (a p w); [done|]. by rewrite (assoc_L (++)).
Qed.

(** ** Severities and risks *)

Lemma for_files_Forall {A} (P : A → Prop) project
    (body : path → str → list A) rels (w : world) xs :
  (∀ rel content, Forall P (body rel content)) →
  Analyze.for_files project body rels w = inr xs → Forall P xs.
Proof.
  intros Hb. revert xs. induction rels as [|rel rels IH]; intros xs; simpl.
  - by intros [= <-].
  - destruct (read_text _ w) as [e|content]; [done|]. simpl.
    destruct (Analyze.for_files project body rels w) as [e|more]; [done|].
    simpl. intros [= <-]. apply Forall_app. split; [apply Hb|by apply IH].
Qed.

Ltac solve_graded := split; vm_compute; repeat constructor.

Lemma analyze_images_graded p astro public_files (w : world) fs :
  Analyze.analyze_images p astro public_files w = inr fs → Forall graded fs.
Proof.
  unfold Analyze.analyze_images.
  destruct (Analyze.astro_findings p astro w) as [e|found] eqn:E; [done|].
  intros [= <-]. apply Forall_app. split.
  - revert found E. induction astro as [|rel astro IH]; intros found; simpl.
    + by intros [= <-].
    + destruct (read_text _ w) as [e|content]; [done|].
      destruct (Analyze.astro_findings p astro w) as [e|more]; [done|].
      intros [= <-]. apply Forall_app. split; [|by apply IH].
      unfold Analyze.astro_file_findings. rewrite !Forall_app.
      split; [|split].
      * unfold Analyze.img_tag_findings.
        induction (finditer true Analyze.img_pattern content)
          as [|[start m] l IHl]; simpl; [done|].
        destruct (negb _ && negb _); simpl; [|done].
        constructor; [solve_graded|done].
      * destruct (_ && _); [|done]. constructor; [solve_graded|done].
      * induction Analyze.hero_patterns as [|h hs IHh]; simpl; [done|].
        destruct (_ && _); [|done]. constructor; [solve_graded|done].
  - unfold Analyze.public_findings.
    induction (default [] public_files) as [|rel l IH]; simpl; [done|].
    destruct (bool_decide _); simpl; [|done]. constructor; [solve_graded|done].
Qed.

Lemma bind_inr {A B} (m : error + A) (f : A → error + B) y :
  m ≫= f = inr y → ∃ x, m = inr x ∧ f x = inr y.
Proof. destruct m as [e|x]; simpl; [done|]. eauto. Qed.

Lemma analyze_fonts_graded p css astro layouts (w : world) fs :
  Analyze.analyze_fonts p css astro layouts w = inr fs → Forall graded fs.
Proof.
  unfold Analyze.analyze_fonts. intros H.
  apply bind_inr in H as (fonts & _ & H).
  apply bind_inr in H as (external & E1 & H).
  apply bind_inr in H as (pre & _ & H).
  apply bind_inr in H as (display & E2 & H).
  injection H as <-. rewrite !Forall_app. split; [|split].
  - eapply for_files_Forall; [|exact E1].
    intros rel content. unfold Analyze.google_fonts_findings.
    destruct (_ || _); [|done]. constructor; [solve_graded|done].
  - destruct (_ && _); [|done]. constructor; [solve_graded|done].
  - eapply for_files_Forall; [|exact E2].
    intros rel content. unfold Analyze.font_display_findings.
    destruct (_ && _); [|done]. constructor; [solve_graded|done].
Qed.

Lemma analyze_prefetch_graded p configs (w : world) fs :
  Analyze.analyze_prefetch p configs w = inr fs → Forall graded fs.
Proof.
  unfold Analyze.analyze_prefetch. destruct configs as [|config _].
  - by intros [= <-].
  - intros H. apply bind_inr in H as (content & _ & H). injection H as <-.
    destruct (negb _); [|done]. constructor; [solve_graded|done].
Qed.

Lemma analyze_preconnect_graded set_order p astro layouts (w : world) fs :
  Analyze.analyze_preconnect set_order p astro layouts w = inr fs →
  Forall graded fs.
Proof.
  unfold Analyze.analyze_preconnect. intros H.
  apply bind_inr in H as (third & _ & H).
  apply bind_inr in H as (pre & _ & H). injection H as <-.
  destruct (decide _); [|done]. constructor; [solve_graded|done].
Qed.

Lemma analyze_scripts_graded p astro (w : world) fs :
  Analyze.analyze_scripts p astro w = inr fs → Forall graded fs.
Proof.
  unfold Analyze.analyze_scripts. apply for_files_Forall.
  intros rel content. unfold Analyze.script_file_findings.
  apply Forall_app. split.
  - unfold Analyze.script_tag_findings.
    induction (finditer true Analyze.script_pattern content)
      as [|[start m] l IH]; simpl; [done|].
    destruct (negb _ && negb _); simpl; [|done].
    constructor; [solve_graded|done].
  - induction Analyze.tracking_patterns as [|t ts IH]; simpl; [done|].
    destruct (_ && _ && _); [|done].
    destruct (_ && _); [|done]. constructor; [solve_graded|done].
Qed.

Lemma analyze_css_graded p css (w : world) fs :
  Analyze.analyze_css p css w = inr fs → Forall graded fs.
Proof.
  unfold Analyze.analyze_css. intros H.
  apply bind_inr in H as (has & _ & H). injection H as <-.
  destruct (negb _); [|done]. constructor; [solve_graded|done].
Qed.

Lemma analyze_astro_config_graded p configs (w : world) fs :
  Analyze.analyze_astro_config p configs w = inr fs → Forall graded fs.
Proof.
  unfold Analyze.analyze_astro_config. destruct configs as [|config _].
  - by intros [= <-].
  - intros H. apply bind_inr in H as (content & _ & H). injection H as <-.
    apply Forall_app. split.
    + destruct (_ && _); [|done]. constructor; [solve_graded|done].
    + destruct (_ && _); [|done]. constructor; [solve_graded|done].
Qed.

(** The counts of graded findings add up. *)
Lemma graded_counts fs :
  Forall graded fs →
  Analyze.len_where (λ f, bool_decide (Analyze.severity f = txt "high")) fs
  + Analyze.len_where (λ f, bool_decide (Analyze.severity f = txt "medium")) fs
  + Analyze.len_where (λ f, bool_decide (Analyze.severity f = txt "low")) fs
  = length fs
  ∧ Analyze.len_where (λ f, bool_decide (Analyze.risk f = txt "safe")) fs
    + Analyze.len_where (λ f, bool_decide (Analyze.risk f = txt "risky")) fs
    = length fs.
Proof.
  unfold Analyze.len_where.
  induction 1 as [|f fs [Hs Hr] _ [IH1 IH2]]; simpl; [done|].
  split.
  - repeat (apply elem_of_cons in Hs as [->|Hs]);
      [..|by apply elem_of_nil in Hs]; simpl; lia.
  - repeat (apply elem_of_cons in Hr as [->|Hr]);
      [..|by apply elem_of_nil in Hr]; simpl; lia.
Qed.

(** X15.  In the summary of [analyze_project], run with its seven
    analyzers, the counts by severity add up to the total, and so do the
    counts by risk: every finding an analyzer makes is high, medium or low,
    and safe or risky. *)
Theorem summary_partitions set_order sc p (w : world) :
  ∃ s, Analyze.summary
         (Analyze.analyze_project (Analyze.analyzers set_order sc) p w)
       = Some s
       ∧ Analyze.high s + Analyze.medium s + Analyze.low s = Analyze.total s
       ∧ Analyze.safe s + Analyze.risky s = Analyze.total s.
Proof.
  eexists. split; [reflexivity|]. simpl.
  apply graded_counts.
  unfold Analyze.run_analyzers. rewrite foldl_analyzers. simpl.
  unfold Analyze.analyzers.
  repeat match goal with
         | |- Forall graded (match ?a with inl _ => _ | inr _ => _ end ++ _) =>
             apply Forall_app; split;
             [destruct a as [e|fs] eqn:E; [done|]|]
         end; [..|done].
  - by eapply analyze_images_graded.
  - by eapply analyze_fonts_graded.
  - by eapply analyze_prefetch_graded.
  - by eapply analyze_preconnect_graded.
  - by eapply analyze_scripts_graded.
  - by eapply analyze_css_graded.
  - by eapply analyze_astro_config_graded.
Qed.

(** ** A page that cannot be read *)

Lemma for_files_unreadable {A} project (body : path → str → list A) rels
    (w : world) rel e :
  rel ∈ rels →
  read_text (path_join (path_join project (txt "src")) rel) w = inl e →
  ∃ e', Analyze.for_files project body rels w = inl e'.
Proof.
  intros Hin Hr. induction rels as [|r rels IH]; simpl.
  - by apply elem_of_nil in Hin.
  - destruct (decide (r = rel)) as [->|Hne].
    + rewrite Hr. simpl. eauto.
    + apply elem_of_cons in Hin as [->|Hin]; [done|].
      destruct (read_text (path_join (path_join project (txt "src")) r) w)
        as [e0|content]; simpl; [eauto|].
      destruct (IH Hin) as [e' ->]. simpl. eauto.
Qed.

Lemma astro_findings_unreadable project rels (w : world) rel e :
  rel ∈ rels →
  read_text (path_join (path_join project (txt "src")) rel) w = inl e →
  ∃ e', Analyze.astro_findings project rels w = inl e'.
Proof.
  intros Hin Hr. induction rels as [|r rels IH]; simpl.
  - by apply elem_of_nil in Hin.
  - destruct (decide (r = rel)) as [->|Hne].
    + rewrite Hr. eauto.
    + apply elem_of_cons in Hin as [->|Hin]; [done|].
      destruct (read_text (path_join (path_join project (txt "src")) r) w)
        as [e0|content]; [eauto|].
      destruct (IH Hin) as [e' ->]. eauto.
Qed.

Lemma collect_origins_unreadable project rels (w : world) rel e origins :
  rel ∈ rels →
  read_text (path_join (path_join project (txt "src")) rel) w = inl e →
  ∃ e', Analyze.collect_origins project rels w origins = inl e'.
Proof.
  intros Hin Hr. revert origins.
  induction rels as [|r rels IH]; intros origins; simpl.
  - by apply elem_of_nil in Hin.
  - destruct (decide (r = rel)) as [->|Hne].
    + rewrite Hr. simpl. eauto.
    + apply elem_of_cons in Hin as [->|Hin]; [done|].
      destruct (read_text (path_join (path_join project (txt "src")) r) w)
        as [e0|content]; simpl; [eauto|].
      destruct (Analyze.add_origins origins _) as [e0|origins'];
        simpl; [eauto|]. by apply IH.
Qed.

(** X16.  One page that cannot be read silences four of the seven
    analyzers for the whole project: [analyze_images], [analyze_fonts],
    [analyze_preconnect] and [analyze_scripts] raise, and [analyze_project]
    drops them with a warning.  The report then is what [analyze_prefetch],
    [analyze_css] and [analyze_astro_config] find, in this order, and holds
    no finding of an image, font, preconnect or script rule, for no file of
    the project. *)
Theorem unreadable_page_silences_page_analyzers set_order sc p (w : world)
    rel e :
  rel ∈ Analyze.astro_files sc →
  read_text (path_join (path_join p (txt "src")) rel) w = inl e →
  let found (res : error + list Analyze.Finding) :=
    match res with inr fs => fs | inl _ => [] end in
  let report :=
    Analyze.findings
      (Analyze.analyze_project (Analyze.analyzers set_order sc) p w) in
  report =
    found (Analyze.analyze_prefetch p (Analyze.config_files sc) w)
    ++ found (Analyze.analyze_css p
                (Analyze.css_files sc ++ Analyze.scss_files sc) w)
    ++ found (Analyze.analyze_astro_config p (Analyze.config_files sc) w)
  ∧ Forall (λ f, Analyze.type f
                   ∈ [txt "prefetch_config"; txt "css_content_visibility";
                      txt "config_image"; txt "config_compress"]) report.
Proof.
  intros Hin Hr found report.
  assert (report =
    found (Analyze.analyze_prefetch p (Analyze.config_files sc) w)
    ++ found (Analyze.analyze_css p
                (Analyze.css_files sc ++ Analyze.scss_files sc) w)
    ++ found (Analyze.analyze_astro_config p (Analyze.config_files sc) w))
    as E.
  { subst report. unfold Analyze.analyze_project, Analyze.run_analyzers.
    rewrite foldl_analyzers. cbn [Analyze.findings app].
    unfold Analyze.analyzers. cbn [flat_map].
    assert (∃ e', Analyze.analyze_images p (Analyze.astro_files sc)
                    (Analyze.public_files sc) w = inl e') as [e1 ->].
    { unfold Analyze.analyze_images.
      destruct (astro_findings_unreadable p _ w rel e Hin Hr) as [e' ->].
      eauto. }
    assert (∃ e', Analyze.analyze_fonts p
                    (Analyze.css_files sc ++ Analyze.scss_files sc)
                    (Analyze.astro_files sc)
                    (Analyze.layouts_in_dir sc ++ Analyze.layouts_by_name sc)
                    w = inl e') as [e2 ->].
    { unfold Analyze.analyze_fonts.
      destruct (Analyze.for_files p (λ _ content, Analyze.font_urls content)
                  _ w) as [e0|fonts]; simpl; [eauto|].
      destruct (for_files_unreadable p Analyze.google_fonts_findings _ w
                  rel e Hin Hr) as [e' ->]. simpl. eauto. }
    assert (∃ e', Analyze.analyze_preconnect set_order p
                    (Analyze.astro_files sc)
                    (Analyze.layouts_in_dir sc ++ Analyze.layouts_by_name sc)
                    w = inl e') as [e3 ->].
    { unfold Analyze.analyze_preconnect.
      destruct (collect_origins_unreadable p _ w rel e ∅ Hin Hr) as [e' ->].
      simpl. eauto. }
    assert (∃ e', Analyze.analyze_scripts p (Analyze.astro_files sc) w
                  = inl e') as [e4 ->].
    { unfold Analyze.analyze_scripts. by eapply for_files_unreadable. }
    cbn [app]. by rewrite app_nil_r. }
  split; [exact E|]. rewrite E. clear E. subst found. rewrite !Forall_app.
  split; [|split].
  - destruct (Analyze.analyze_prefetch _ _ w) as [e0|fs] eqn:Ef; [done|].
    unfold Analyze.analyze_prefetch in Ef.
    destruct (Analyze.config_files sc) as [|config configs].
    + by injection Ef as <-.
    + apply bind_inr in Ef as (content & Hread & H). injection H as <-.
      destruct (negb _); [|done]. constructor; [left|done].
  - destruct (Analyze.analyze_css _ _ w) as [e0|fs] eqn:Ef; [done|].
    unfold Analyze.analyze_css in Ef.
    apply bind_inr in Ef as (has & Hhas & H). injection H as <-.
    destruct (negb _); [|done]. constructor; [right; left|done].
  - destruct (Analyze.analyze_astro_config _ _ w) as [e0|fs] eqn:Ef; [done|].
    unfold Analyze.analyze_astro_config in Ef.
    destruct (Analyze.config_files sc) as [|config configs].
    + by injection Ef as <-.
    + apply bind_inr in Ef as (content & Hread & H). injection H as <-.
      apply Forall_app. split.
      * destruct (_ && _); [|done]. constructor; [|done].
        right. right. left.
      * destruct (_ && _); [|done]. constructor; [|done].
        right. right. right. left.
Qed.

(** X16 at the page of the scenario when it cannot be read: the report
    holds one finding, of [analyze_css], and none for the image of the
    page. *)
Lemma unreadable_page_silences_page_analyzers_witness :
  Analyze.findings
    (Analyze.analyze_project (Analyze.analyzers elements one_page_scan) site
       unreadable_world)
  = [Analyze.css_content_visibility].
Proof.
  destruct (unreadable_page_silences_page_analyzers elements one_page_scan
              site unreadable_world index_astro permission_denied)
    as [E _].
  - left.
  - vm_compute. reflexivity.
  - rewrite E. vm_compute. reflexivity.
Defined.

(* ===================================================================== *)
(** * The detector of [detect_js_patterns.py] *)
(* ===================================================================== *)

(** ** Lines and evidence *)

Lemma count_char_app c (a b : str) :
  count_char c (a ++ b) = count_char c a + count_char c b.
Proof. unfold count_char. by rewrite filter_app, length_app. Qed.

Lemma count_char_take c n (s : str) :
  count_char c (take n s) ≤ count_char c s.
Proof.
  rewrite <- (take_drop n s) at 2. rewrite count_char_app. lia.
Qed.

Lemma count_char_cons c x (s : str) :
  count_char c (x :: s) = (if decide (x = c) then 1 else 0) + count_char c s.
Proof.
  unfold count_char. rewrite filter_cons. by destruct (decide (x = c)).
Qed.

(** A text has one line more than it has line feeds. *)
Lemma split_length c (s : str) : length (split c s) = count_char c s + 1.
Proof.
  induction s as [|x s IH]; [done|].
  rewrite count_char_cons. simpl.
  destruct (decide (x = c)); simpl; [by rewrite IH|].
  destruct (split c s) as [|piece pieces]; simpl in *; lia.
Qed.

(** No piece holds the separator. *)
Lemma split_pieces c (s : str) : Forall (λ piece, c ∉ piece) (split c s).
Proof.
  induction s as [|x s IH]; simpl.
  - constructor; [apply not_elem_of_nil|done].
  - destruct (decide (x = c)) as [->|Hne].
    + constructor; [apply not_elem_of_nil|done].
    + destruct (split c s) as [|piece pieces].
      * constructor; [|done]. intros H.
        apply list_elem_of_singleton in H. done.
      * apply Forall_cons in IH as [H1 H2]. constructor; [|done].
        rewrite elem_of_cons. intros [?|?]; done.
Qed.

Lemma lstrip_suffix (s : str) : ∃ ws, s = ws ++ lstrip s.
Proof.
  induction s as [|c s [ws IH]]; simpl; [by exists []|].
  destruct (is_space c); [|by exists []].
  exists (c :: ws). simpl. by f_equal.
Qed.

(** Stripping takes characters away at both ends. *)
Lemma strip_inside (s : str) : ∃ a b, s = a ++ strip s ++ b.
Proof.
  unfold strip, rstrip.
  destruct (lstrip_suffix s) as [a Ha].
  destruct (lstrip_suffix (reverse (lstrip s))) as [b Hb].
  exists a, (reverse b). rewrite Ha at 1. f_equal.
  apply (f_equal reverse) in Hb.
  by rewrite reverse_involutive, reverse_app in Hb.
Qed.

(** X17.  The line [analyze_file] reports for a match is a line of the
    text, so its evidence is always taken from that line; the evidence has
    at most 103 characters, and no line feed. *)
Theorem evidence_is_one_short_line (content : str) (start : nat) :
  let line_num := fst (DetectJs.line_and_evidence content start) in
  let evidence := snd (DetectJs.line_and_evidence content start) in
  1 ≤ line_num ≤ length (split nl content)
  ∧ (∃ line, split nl content !! (line_num - 1) = Some line
             ∧ evidence =
                 take 100 (strip line)
                 ++ (if decide (100 < length (strip line))
                     then txt "..." else []))
  ∧ length evidence ≤ 103
  ∧ nl ∉ evidence.
Proof.
  cbv zeta. unfold DetectJs.line_and_evidence. cbn [fst snd].
  pose proof (count_char_take nl start content) as Hle.
  pose proof (split_length nl content) as Hlen.
  set (line_num := count_char nl (take start content) + 1) in *.
  assert (1 ≤ line_num ≤ length (split nl content)) as Hb
    by (subst line_num; lia).
  rewrite decide_True by lia.
  assert (line_num - 1 < length (split nl content)) as Hlt by lia.
  destruct (lookup_lt_is_Some_2 _ _ Hlt) as [line Hl].
  rewrite Hl. simpl.
  split; [done|]. split; [by exists line|]. split.
  - rewrite length_app, length_take.
    destruct (decide (100 < length (strip line)));
      [change (length (txt "...")) with 3
      |change (length (@nil ascii)) with 0]; lia.
  - assert (nl ∉ strip line) as Hs.
    { pose proof (split_pieces nl content) as Hp.
      rewrite Forall_forall in Hp.
      specialize (Hp line (list_elem_of_lookup_2 _ _ _ Hl)).
      destruct (strip_inside line) as (a & b & E).
      intros Hin. apply Hp. rewrite E, !elem_of_app. auto. }
    rewrite elem_of_app. intros [Hin|Hin].
    + apply Hs. rewrite <- (take_drop 100 (strip line)).
      apply elem_of_app. by left.
    + destruct (decide _); [|by apply elem_of_nil in Hin].
      vm_compute in Hin.
      repeat (apply elem_of_cons in Hin as [?|Hin]; [done|]).
      by apply elem_of_nil in Hin.
Qed.

(** ** [analyze_file] *)

(** X18.  [analyze_file] makes at most one finding for an entry of
    [PATTERNS], in the order of the entries, each for the file it was
    called for; for a file that cannot be read it makes none. *)
Theorem one_finding_per_entry {js_regex} (starts : js_regex → str → list nat)
    (PATTERNS : list (DetectJs.pattern_def js_regex)) project rel
    (w : world) :
  let findings := DetectJs.analyze_file starts PATTERNS project rel w in
  map DetectJs.pattern findings `sublist_of` map DetectJs.name PATTERNS
  ∧ Forall (λ f, DetectJs.file f = path_join (txt "src") rel) findings
  ∧ (∀ e, read_text (path_join (path_join project (txt "src")) rel) w
            = inl e → findings = []).
Proof.
  cbv zeta. unfold DetectJs.analyze_file.
  destruct (read_text _ w) as [e|content]; simpl.
  { split; [apply sublist_nil_l|]. done. }
  split; [|split; [|done]].
  - induction PATTERNS as [|pd pds IH]; simpl; [done|].
    destruct (DetectJs.first_hit starts _ content) as [start|]; simpl.
    + by apply sublist_skip.
    + by apply sublist_cons.
  - induction PATTERNS as [|pd pds IH]; simpl; [done|].
    destruct (DetectJs.first_hit starts _ content) as [start|]; simpl;
      [|done].
    by constructor.
Qed.

(** ** The counts by pattern *)

Lemma bump_sum k d :
  sum_list (map snd (DetectJs.bump k d)) = sum_list (map snd d) + 1.
Proof.
  induction d as [|[k' n] d IH]; simpl; [done|].
  destruct (decide (k' = k)); simpl; lia.
Qed.

Lemma bump_keys k d x :
  x ∈ map fst (DetectJs.bump k d) ↔ x = k ∨ x ∈ map fst d.
Proof.
  induction d as [|[k' n] d IH]; simpl.
  - rewrite list_elem_of_singleton. split; [auto|].
    intros [?|H]; [done|]. by apply elem_of_nil in H.
  - destruct (decide (k' = k)) as [->|Hne]; simpl.
    + rewrite elem_of_cons. tauto.
    + rewrite !elem_of_cons, IH. tauto.
Qed.

Lemma bump_NoDup k d :
  NoDup (map fst d) → NoDup (map fst (DetectJs.bump k d)).
Proof.
  induction d as [|[k' n] d IH]; simpl; intros Hd.
  - constructor; [apply not_elem_of_nil|constructor].
  - apply NoDup_cons in Hd as [Hk Hd].
    destruct (decide (k' = k)) as [->|Hne]; simpl.
    + by constructor.
    + constructor; [|by apply IH].
      rewrite bump_keys. intros [?|?]; done.
Qed.

Lemma bump_all fs d :
  let d' := foldl (λ d f, DetectJs.bump (DetectJs.pattern f) d) d fs in
  sum_list (map snd d') = sum_list (map snd d) + length fs
  ∧ (NoDup (map fst d) → NoDup (map fst d'))
  ∧ ∀ x, x ∈ map fst d' ↔ x ∈ map fst d ∨ x ∈ map DetectJs.pattern fs.
Proof.
  revert d. induction fs as [|f fs IH]; intros d; simpl.
  - split; [lia|]. split; [done|]. intros x. split; [auto|].
    intros [?|H]; [done|]. by apply elem_of_nil in H.
  - destruct (IH (DetectJs.bump (DetectJs.pattern f) d)) as (H1 & H2 & H3).
    cbv zeta in *. split; [rewrite H1, bump_sum; lia|]. split.
    + intros Hd. by apply H2, bump_NoDup.
    + intros x. rewrite H3, bump_keys, elem_of_cons. tauto.
Qed.

(** X19.  In the report of the detector the counts of [by_pattern] add up
    to [total]; [patterns_detected] names every pattern once; and it names
    exactly the patterns of the findings reported. *)
Theorem by_pattern_counts_every_finding all_findings :
  let report := DetectJs.analyze_project all_findings in
  sum_list (map snd (DetectJs.by_pattern (DetectJs.summary report)))
    = DetectJs.total (DetectJs.summary report)
  ∧ DetectJs.total (DetectJs.summary report)
    = length (DetectJs.findings report)
  ∧ NoDup (DetectJs.patterns_detected report)
  ∧ ∀ x, x ∈ DetectJs.patterns_detected report
         ↔ x ∈ map DetectJs.pattern (DetectJs.findings report).
Proof.
  cbv zeta. unfold DetectJs.analyze_project. simpl.
  destruct (bump_all (DetectJs.deduplicate all_findings) [])
    as (H1 & H2 & H3). cbv zeta in *. simpl in *.
  split; [done|]. split; [done|]. split; [apply H2; constructor|].
  intros x. rewrite H3. split; [|auto].
  intros [H|H]; [by apply elem_of_nil in H|done].
Qed.

(** ** The scan *)

Lemma flat_map_nil {A B} (f : A → list B) (l : list A) :
  (∀ x, f x = []) → flat_map f l = [].
Proof. intros H. induction l as [|x l IH]; simpl; [done|]. by rewrite H, IH. Qed.

(** X20.  The scan of the detector leaves out a file when [node_modules]
    or [dist] occurs anywhere in its full path.  So for a project whose own
    path holds one of the two, none of the files with the seven script
    extensions is analyzed: the findings are those of the [*.html] files
    alone. *)
Theorem dist_in_project_path_skips_scripts {js_regex}
    (starts : js_regex → str → list nat)
    (PATTERNS : list (DetectJs.pattern_def js_regex))
    (pre post : path) (rglob : str → list path) (w : world) :
  let html project :=
    flat_map (λ rel, DetectJs.analyze_file starts PATTERNS project rel w)
      (rglob (txt "*.html")) in
  DetectJs.gather starts PATTERNS (pre ++ txt "dist" ++ post) rglob w
    = html (pre ++ txt "dist" ++ post)
  ∧ DetectJs.gather starts PATTERNS (pre ++ txt "node_modules" ++ post)
      rglob w
    = html (pre ++ txt "node_modules" ++ post).
Proof.
  cbv zeta. unfold DetectJs.gather.
  assert (∀ n project rel,
            contains n project = true →
            contains n (path_join (path_join project (txt "src")) rel) = true)
    as Hc.
  { intros n project rel H. unfold path_join.
    by apply contains_app_l, contains_app_l. }
  split.
  - rewrite flat_map_nil; [done|]. intros ext. apply flat_map_nil.
    intros rel. rewrite (Hc (txt "dist")) by apply contains_mid.
    by rewrite orb_true_r.
  - rewrite flat_map_nil; [done|]. intros ext. apply flat_map_nil.
    intros rel. by rewrite (Hc (txt "node_modules")) by apply contains_mid.
Qed.

(* ===================================================================== *)
(** * The directives of [generate_preloads.py] *)
(* ===================================================================== *)

(** ** Background images *)

Lemma image_href_start (url : str) :
  startswith (txt "/") (Preloads.image_href url) = true
  ∨ startswith (txt "http") (Preloads.image_href url) = true.
Proof.
  unfold Preloads.image_href.
  destruct (startswith (txt "/") url) eqn:E1; [by left|].
  destruct (startswith (txt "http") url) eqn:E2; [by right|].
  by left.
Qed.

(** X21.  Every directive [extract_critical_images_from_css] returns is an
    image without [type] and [crossorigin], of scope [layout] or [page];
    its [href] starts with [/] or with [http], so it is never a [data:]
    URL; and its reason shows at most 50 characters of the selector. *)
Theorem critical_images_shape (css : str) file project ps :
  Preloads.extract_critical_images_from_css css file project = Some ps →
  Forall (λ p, Preloads.as_type p = txt "image"
               ∧ Preloads.type_attr p = None
               ∧ Preloads.crossorigin p = false
               ∧ (Preloads.scope p = txt "layout"
                  ∨ Preloads.scope p = txt "page")
               ∧ (startswith (txt "/") (Preloads.href p) = true
                  ∨ startswith (txt "http") (Preloads.href p) = true)
               ∧ startswith (txt "data:") (Preloads.href p) = false
               ∧ length (Preloads.reason p) ≤ 43 + 50) ps.
Proof.
  unfold Preloads.extract_critical_images_from_css.
  generalize (finditer true Preloads.rule_pattern css). intros ms. revert ps.
  induction ms as [|[start m] ms IH]; intros ps; simpl.
  - by intros [= <-].
  - destruct (_ && _); [|by apply IH].
    destruct (Preloads.relative_to file project) as [source|]; [|done].
    simpl.
    destruct (Preloads.critical_preloads ms file project) as [more|];
      [|done].
    simpl. intros [= <-]. constructor; [|by apply IH].
    cbn [Preloads.as_type Preloads.type_attr Preloads.crossorigin
         Preloads.scope Preloads.href Preloads.reason].
    split; [done|]. split; [done|]. split; [done|]. split.
    { destruct (contains _ _); auto. }
    pose proof (image_href_start (default [] (group m 3))) as Hh.
    split; [exact Hh|]. split.
    + destruct (Preloads.image_href _) as [|a [|b [|c [|d s]]]];
        destruct Hh as [Hh|Hh]; try done;
        simpl in Hh; rewrite ?andb_true_iff in Hh;
        repeat match goal with
               | H : _ ∧ _ |- _ => destruct H
               | H : bool_decide _ = true |- _ =>
                   apply bool_decide_eq_true in H; subst
               end; done.
    + unfold Preloads.image_reason. rewrite length_app, length_take.
      change (length (txt "Critical background image in CSS selector: "))
        with 43. lia.
Qed.

(** X21 at a style sheet with a hero image. *)
Lemma critical_images_shape_witness :
  Preloads.extract_critical_images_from_css hero_css
    (txt "/site/src/styles/hero.css") site =
    Some [Preloads.MkPreload (txt "/img/a.png") (txt "image") None false
            (txt "page") (txt "src/styles/hero.css")
            (txt "Critical background image in CSS selector: .hero")]
  ∧ Forall (λ p, Preloads.as_type p = txt "image"
                 ∧ Preloads.type_attr p = None
                 ∧ Preloads.crossorigin p = false
                 ∧ (Preloads.scope p = txt "layout"
                    ∨ Preloads.scope p = txt "page")
                 ∧ (startswith (txt "/") (Preloads.href p) = true
                    ∨ startswith (txt "http") (Preloads.href p) = true)
                 ∧ startswith (txt "data:") (Preloads.href p) = false
                 ∧ length (Preloads.reason p) ≤ 43 + 50)
      [Preloads.MkPreload (txt "/img/a.png") (txt "image") None false
         (txt "page") (txt "src/styles/hero.css")
         (txt "Critical background image in CSS selector: .hero")].
Proof.
  assert (Preloads.extract_critical_images_from_css hero_css
            (txt "/site/src/styles/hero.css") site =
          Some [Preloads.MkPreload (txt "/img/a.png") (txt "image") None false
                  (txt "page") (txt "src/styles/hero.css")
                  (txt "Critical background image in CSS selector: .hero")])
    as E by (vm_compute; reflexivity).
  split; [exact E|].
  exact (critical_images_shape _ _ _ _ E).
Defined.

(** ** The hero images of a page *)

Lemma page_href_starts (src : str) :
  startswith (txt "/") (if startswith (txt "/") src then src
                        else txt "/" ++ src) = true.
Proof. destruct (startswith (txt "/") src) eqn:E; [exact E|reflexivity]. Qed.

(** X22.  Every directive [analyze_page_specific_resources] returns is an
    image of scope [page] without [type] and [crossorigin], and its [href]
    starts with [/]: a source that does not start with [/] gets one in
    front, also when it is an absolute [http] URL. *)
Theorem page_images_shape file project (w : world) ps :
  Preloads.analyze_page_specific_resources file project w = Some ps →
  Forall (λ p, Preloads.as_type p = txt "image"
               ∧ Preloads.type_attr p = None
               ∧ Preloads.crossorigin p = false
               ∧ Preloads.scope p = txt "page"
               ∧ startswith (txt "/") (Preloads.href p) = true) ps.
Proof.
  unfold Preloads.analyze_page_specific_resources.
  destruct (read_text file w) as [e|content]; [done|].
  generalize (finditer true Preloads.hero_img_pattern content).
  intros ms. revert ps.
  induction ms as [|[start m] ms IH]; intros ps; cbn -[startswith].
  - by intros [= <-].
  - destruct (negb _); [|by apply IH].
    destruct (Preloads.relative_to file project) as [source|]; [|done].
    cbn -[startswith].
    destruct (Preloads.hero_image_preloads ms file project) as [more|];
      [|done].
    cbn -[startswith]. intros [= <-]. constructor; [|by apply IH].
    repeat (split; [done|]). apply page_href_starts.
Qed.

(** X22 at a page whose hero image comes from another site. *)
Lemma page_images_shape_witness :
  Preloads.analyze_page_specific_resources
    (txt "/site/src/pages/index.astro") site hero_page_world =
    Some [Preloads.MkPreload (txt "/http://cdn.example/a.png") (txt "image")
            None false (txt "page") (txt "src/pages/index.astro")
            Preloads.page_reason]
  ∧ Forall (λ p, Preloads.as_type p = txt "image"
                 ∧ Preloads.type_attr p = None
                 ∧ Preloads.crossorigin p = false
                 ∧ Preloads.scope p = txt "page"
                 ∧ startswith (txt "/") (Preloads.href p) = true)
      [Preloads.MkPreload (txt "/http://cdn.example/a.png") (txt "image")
         None false (txt "page") (txt "src/pages/index.astro")
         Preloads.page_reason].
Proof.
  assert (Preloads.analyze_page_specific_resources
            (txt "/site/src/pages/index.astro") site hero_page_world =
          Some [Preloads.MkPreload (txt "/http://cdn.example/a.png")
                  (txt "image") None false (txt "page")
                  (txt "src/pages/index.astro") Preloads.page_reason])
    as E by (vm_compute; reflexivity).
  split; [exact E|].
  exact (page_images_shape _ _ _ _ E).
Defined.

(** ** The summary *)

Lemma fonts_counted resolve (css : str) file project ps :
  Preloads.extract_fonts_from_css resolve css file project = Some ps →
  Forall counted ps.
Proof.
  unfold Preloads.extract_fonts_from_css.
  generalize (Preloads.findall1 Preloads.font_face_pattern css).
  intros faces. revert ps.
  induction faces as [|face faces IH]; intros ps; simpl.
  - by intros [= <-].
  - destruct (Preloads.url_preloads _ _ _ _) as [these|] eqn:Hu; [|done].
    simpl. destruct (Preloads.face_preloads _ _ _ _) as [more|]; [|done].
    simpl. intros [= <-]. apply Forall_app. split; [|by apply IH].
    clear IH. revert these Hu.
    generalize (Preloads.findall1 Preloads.url_pattern face). intros urls.
    induction urls as [|url urls IHu]; intros these; simpl.
    + by intros [= <-].
    + destruct (Preloads.relative_to file project); [|done]. simpl.
      destruct (Preloads.url_preloads _ _ _ _) as [more'|]; [|done].
      simpl. intros [= <-]. constructor; [|by apply IHu].
      split; simpl; auto.
Qed.

Lemma images_counted (css : str) file project ps :
  Preloads.extract_critical_images_from_css css file project = Some ps →
  Forall counted ps.
Proof.
  unfold Preloads.extract_critical_images_from_css.
  generalize (finditer true Preloads.rule_pattern css). intros ms. revert ps.
  induction ms as [|[start m] ms IH]; intros ps; simpl.
  - by intros [= <-].
  - destruct (_ && _); [|by apply IH].
    destruct (Preloads.relative_to file project) as [source|]; [|done].
    simpl.
    destruct (Preloads.critical_preloads ms file project) as [more|];
      [|done].
    simpl. intros [= <-]. constructor; [|by apply IH].
    split; simpl; [|auto]. destruct (contains _ _); auto.
Qed.

Lemma css_step_counted resolve project (w : world) all rel :
  Forall counted all →
  Forall counted (Preloads.css_step resolve project w all rel).
Proof.
  intros Ha. unfold Preloads.css_step.
  destruct (read_text _ w) as [e|content]; [done|].
  destruct (Preloads.extract_fonts_from_css _ _ _ _) as [found|] eqn:E1;
    [|done].
  apply fonts_counted in E1.
  destruct (Preloads.extract_critical_images_from_css _ _ _)
    as [found'|] eqn:E2.
  - apply images_counted in E2. by rewrite !Forall_app.
  - by rewrite Forall_app.
Qed.

Lemma counted_counts ps :
  Forall counted ps →
  length (List.filter (λ p, bool_decide (Preloads.scope p = txt "layout")) ps)
  + length (List.filter (λ p, bool_decide (Preloads.scope p = txt "page")) ps)
  = length ps
  ∧ length (List.filter (λ p, bool_decide (Preloads.as_type p = txt "font"))
              ps)
    + length (List.filter (λ p, bool_decide (Preloads.as_type p = txt "image"))
                ps)
    = length ps.
Proof.
  induction 1 as [|p ps [Hs Ht] _ [IH1 IH2]]; simpl; [done|].
  split.
  - destruct Hs as [-> | ->]; simpl; lia.
  - destruct Ht as [-> | ->]; simpl; lia.
Qed.

(** X23.  In the summary of [analyze_project] of [generate_preloads.py],
    [layout_scope] and [page_scope] add up to [total_preloads], and so do
    [fonts] and [images], whatever files cannot be read or make an
    extractor raise. *)
Theorem preload_summary_partitions resolve project css_files page_files
    (w : world) :
  let s := Preloads.summary
             (Preloads.analyze_project resolve project css_files page_files
                w) in
  Preloads.layout_scope s + Preloads.page_scope s = Preloads.total_preloads s
  ∧ Preloads.fonts s + Preloads.images s = Preloads.total_preloads s.
Proof.
  cbv zeta. unfold Preloads.analyze_project. simpl.
  apply counted_counts.
  assert (∀ all, Forall counted all →
                 Forall counted
                   (foldl (Preloads.css_step resolve project w) all
                      css_files)) as H.
  { induction css_files as [|rel rels IH]; intros all Ha; simpl; [done|].
    by apply IH, css_step_counted. }
  by apply H.
Qed.

(** ** Repeated resources *)

Lemma html_seen ps st h :
  h ∈ Preloads.seen (foldl Preloads.html_step st ps)
  ↔ h ∈ Preloads.seen st ∨ h ∈ map Preloads.href ps.
Proof.
  revert st. induction ps as [|p ps IH]; intros st; simpl.
  - split; [auto|]. intros [?|H]; [done|]. by apply elem_of_nil in H.
  - rewrite IH, elem_of_cons. unfold Preloads.html_step.
    destruct (decide (Preloads.href p ∈ Preloads.seen st)) as [Hin|Hn].
    + split; [tauto|]. intros [?|[->|?]]; auto.
    + destruct (decide (Preloads.scope p = txt "layout")); simpl;
        rewrite elem_of_union, elem_of_singleton; tauto.
Qed.

(** X24.  [generate_preload_html] renders a resource once: a directive
    whose [href] is that of a directive in front of it changes nothing in
    the markup, whatever its other fields say. *)
Theorem repeated_href_is_ignored ps p qs :
  Preloads.href p ∈ map Preloads.href ps →
  Preloads.generate_preload_html (ps ++ p :: qs) =
    Preloads.generate_preload_html (ps ++ qs).
Proof.
  intros Hin. unfold Preloads.generate_preload_html.
  rewrite !foldl_app. simpl.
  assert (Preloads.html_step
            (foldl Preloads.html_step (Preloads.HtmlState ∅ [] []) ps) p =
          foldl Preloads.html_step (Preloads.HtmlState ∅ [] []) ps) as ->;
    [|done].
  unfold Preloads.html_step. rewrite decide_True; [done|].
  apply html_seen. by right.
Qed.

(** X24 at a font that a second style sheet declares again, as a page
    resource. *)
Lemma repeated_href_is_ignored_witness :
  let font := Preloads.MkPreload (txt "/f.woff2") (txt "font")
                (Some (txt "font/woff2")) true (txt "layout")
                (txt "src/styles/fonts.css") Preloads.font_reason in
  let again := Preloads.MkPreload (txt "/f.woff2") (txt "font") None false
                 (txt "page") (txt "src/styles/more.css")
                 Preloads.font_reason in
  Preloads.generate_preload_html ([font] ++ again :: []) =
    Preloads.generate_preload_html ([font] ++ []).
Proof.
  cbv zeta. apply repeated_href_is_ignored. vm_compute. left.
Defined.

(* ===================================================================== *)
(** * De-duplication, and the origins of [analyze_preconnect] *)
(* ===================================================================== *)

(** ** [deduplicate] *)

Lemma dedup_sublist all seen (uniq : list DetectJs.JsToHtmlCssFinding) :
  ∃ kept, snd (foldl DetectJs.dedup_step (seen, uniq) all) = uniq ++ kept
          ∧ kept `sublist_of` all.
Proof.
  revert seen uniq. induction all as [|f all IH]; intros seen uniq; simpl.
  - exists []. by rewrite app_nil_r.
  - destruct (decide (DetectJs.key f ∈ seen)).
    + destruct (IH seen uniq) as (kept & -> & Hk).
      exists kept. split; [done|]. by apply sublist_cons.
    + destruct (IH ({[DetectJs.key f]} ∪ seen) (uniq ++ [f]))
        as (kept & -> & Hk).
      exists (f :: kept). rewrite <- (assoc_L (++)). split; [done|].
      by apply sublist_skip.
Qed.

Lemma dedup_keys all seen (uniq : list DetectJs.JsToHtmlCssFinding) k :
  (∀ k, k ∈ seen ↔ k ∈ map DetectJs.key uniq) →
  k ∈ map DetectJs.key uniq ∨ k ∈ map DetectJs.key all →
  k ∈ map DetectJs.key (snd (foldl DetectJs.dedup_step (seen, uniq) all)).
Proof.
  revert seen uniq. induction all as [|f all IH]; intros seen uniq Hs; simpl.
  - intros [?|H]; [done|]. by apply elem_of_nil in H.
  - rewrite elem_of_cons. intros Hk.
    destruct (decide (DetectJs.key f ∈ seen)) as [Hin|Hn].
    + apply IH; [done|]. destruct Hk as [?|[->|?]]; auto.
      left. by apply Hs.
    + apply IH.
      * intros k'. rewrite map_app, elem_of_union, elem_of_singleton,
          elem_of_app, Hs. simpl. rewrite list_elem_of_singleton. tauto.
      * rewrite map_app, elem_of_app. simpl.
        rewrite list_elem_of_singleton. tauto.
Qed.

Lemma dedup_distinct all seen (uniq : list DetectJs.JsToHtmlCssFinding) :
  NoDup (map DetectJs.key all) →
  (∀ f, f ∈ all → DetectJs.key f ∉ seen) →
  snd (foldl DetectJs.dedup_step (seen, uniq) all) = uniq ++ all.
Proof.
  revert seen uniq. induction all as [|f all IH]; intros seen uniq Hnd Hs;
    simpl.
  - by rewrite app_nil_r.
  - apply NoDup_cons in Hnd as [Hf Hnd].
    rewrite decide_False by (apply Hs; left).
    rewrite IH, <- (assoc_L (++)); [done|done|].
    intros g Hg. rewrite elem_of_union, elem_of_singleton.
    intros [E|Hin].
    + apply Hf. rewrite <- E. by apply list_elem_of_fmap_2.
    + apply (Hs g); [by right|done].
Qed.

(** X25.  The de-duplication of the detector only leaves findings out: what
    it returns are findings of its input in their order; every pattern and
    file of the input is still there; and a list it returned is returned
    as it is. *)
Theorem deduplicate_only_drops_repeats all :
  DetectJs.deduplicate all `sublist_of` all
  ∧ (∀ f, f ∈ all →
          DetectJs.key f ∈ map DetectJs.key (DetectJs.deduplicate all))
  ∧ DetectJs.deduplicate (DetectJs.deduplicate all) = DetectJs.deduplicate all.
Proof.
  unfold DetectJs.deduplicate.
  assert (∀ k : str * path,
            k ∈ (∅ : gset (str * path))
            ↔ k ∈ map DetectJs.key ([] : list DetectJs.JsToHtmlCssFinding))
    as Hs.
  { intros k. simpl. split; intros H.
    - by apply not_elem_of_empty in H.
    - by apply not_elem_of_nil in H. }
  split; [|split].
  - by destruct (dedup_sublist all ∅ []) as (kept & -> & Hk).
  - intros f Hf. apply dedup_keys; [done|]. right.
    by apply list_elem_of_fmap_2.
  - apply (dedup_distinct _ ∅ []).
    + apply dedup_loop; [constructor|done].
    + intros f _. apply not_elem_of_empty.
Qed.

(** ** The origins [analyze_preconnect] collects *)

Lemma run_str_exact {R} (p s : str) (k : str → option R) y :
  run_str false p s k = Some y → ∃ u, s = p ++ u ∧ k u = Some y.
Proof.
  revert s. induction p as [|a p IH]; intros s H; simpl in H.
  - by exists s.
  - destruct s as [|b s]; [done|].
    unfold char_eqb, fold_case in H.
    destruct (decide (a = b)) as [->|Hne].
    + rewrite bool_decide_eq_true_2 in H by done.
      destruct (IH _ H) as (u & -> & Hk). by exists u.
    + by rewrite bool_decide_eq_false_2 in H.
Qed.

Lemma run_star_inv_cs {R} cl (s : str) (k : str → option R) y :
  run_star false cl s k = Some y →
  ∃ pre u, s = pre ++ u ∧ Forall (λ b, in_class false cl b = true) pre
           ∧ k u = Some y.
Proof.
  induction s as [|c s IH]; simpl; intros H.
  - exists [], []. done.
  - destruct (in_class false cl c) eqn:Hc.
    + destruct (run_star false cl s k) as [z|] eqn:E.
      * injection H as ->. destruct (IH eq_refl) as (pre & u & -> & Hp & Hk).
        exists (c :: pre), u. split; [done|]. split; [by constructor|done].
      * exists [], (c :: s). done.
    + exists [], (c :: s). done.
Qed.

Lemma one_of_cs cs c : in_class false (OneOf cs) c = true → c ∈ cs.
Proof.
  simpl. induction cs as [|a cs IH]; simpl; [done|].
  unfold char_eqb, fold_case. rewrite orb_true_iff, bool_decide_eq_true.
  intros [->|H]; [left|right; auto].
Qed.

(** A piece without the separator is split into itself. *)
Lemma split_whole c (s : str) : c ∉ s → split c s = [s].
Proof.
  induction s as [|x s IH]; [done|]. intros H.
  apply not_elem_of_cons in H as [Hx Hs]. simpl.
  rewrite decide_False by done. by rewrite IH.
Qed.

Lemma count_char_none c (s : str) : c ∉ s → count_char c s = 0.
Proof.
  induction s as [|x s IH]; [done|]. intros H.
  apply not_elem_of_cons in H as [Hx Hs].
  rewrite count_char_cons, decide_False by done. by rewrite IH.
Qed.

Lemma contains_count c (n s : str) :
  contains n s = true → count_char c n ≤ count_char c s.
Proof.
  intros H. apply contains_spec in H as (a & b & ->).
  rewrite !count_char_app. lia.
Qed.

(** The text a match of [origin_pattern] covers. *)
Lemma origin_match_inv (s : str) m :
  match_here false Analyze.origin_pattern s = Some m →
  ∃ scheme host tld,
    group0 m = scheme ++ txt "://" ++ host ++ txt "." ++ tld
    ∧ (scheme = txt "http" ∨ scheme = txt "https")
    ∧ Forall (λ c, c ∈ Analyze.lowercase ++ Analyze.uppercase
                       ++ Analyze.digits ++ ["-"%char]) host
    ∧ Forall (λ c, c ∈ Analyze.lowercase ++ Analyze.uppercase) tld.
Proof.
  unfold match_here, Analyze.origin_pattern. cbn [cat foldr run]. intros H.
  apply run_str_exact in H as (s1 & -> & H).
  assert (∃ scheme s2,
            txt "http" ++ s1 = scheme ++ s2
            ∧ (scheme = txt "http" ∨ scheme = txt "https")
            ∧ run_str false (txt "://") s2
                (λ s' : str,
                   match s' with
                   | [] => None
                   | c :: s'0 =>
                       if in_class false
                            (OneOf (Analyze.lowercase ++ Analyze.uppercase
                                    ++ Analyze.digits)) c
                       then
                         run_star false
                           (OneOf (Analyze.lowercase ++ Analyze.uppercase
                                   ++ Analyze.digits ++ ["-"%char])) s'0
                           (λ s'1 : str,
                              run_str false (txt ".") s'1
                                (λ s'2 : str,
                                   match s'2 with
                                   | [] => None
                                   | c0 :: s'3 =>
                                       if in_class false
                                            (OneOf (Analyze.lowercase
                                                    ++ Analyze.uppercase)) c0
                                       then
                                         match s'3 with
                                         | [] => None
                                         | c1 :: s'4 =>
                                             if in_class false
                                                  (OneOf (Analyze.lowercase
                                                          ++ Analyze.uppercase))
                                                  c1
                                             then
                                               run_star false
                                                 (OneOf (Analyze.lowercase
                                                         ++ Analyze.uppercase))
                                                 s'4
                                                 (λ s'' : str,
                                                    Some
                                                      (Mobj
                                                         (take
                                                            (length
                                                               (txt "http"
                                                                ++ s1)
                                                             - length s'')
                                                            (txt "http" ++ s1))
                                                         []))
                                             else None
                                         end
                                       else None
                                   end))
                       else None
                   end) = Some m) as (scheme & s2 & Es & Hscheme & H').
  { destruct (run_str false (txt "s") s1 _) as [y|] eqn:E.
    - injection H as ->.
      apply run_str_exact in E as (s2 & -> & E).
      exists (txt "https"), s2. split; [done|]. split; [by right|done].
    - exists (txt "http"), s1. split; [done|]. split; [by left|done]. }
  clear H. rewrite Es in H'. clear Es s1.
  apply run_str_exact in H' as (s3 & -> & H).
  destruct s3 as [|c s4]; [done|].
  destruct (in_class false _ c) eqn:Hc; [|done].
  apply one_of_cs in Hc.
  apply run_star_inv_cs in H as (host & s5 & -> & Hhost & H).
  apply run_str_exact in H as (s6 & -> & H).
  destruct s6 as [|l1 s7]; [done|].
  destruct (in_class false _ l1) eqn:Hl1; [|done]. apply one_of_cs in Hl1.
  destruct s7 as [|l2 s8]; [done|].
  destruct (in_class false _ l2) eqn:Hl2; [|done]. apply one_of_cs in Hl2.
  apply run_star_inv_cs in H as (tld & s9 & -> & Htld & H).
  injection H as <-. cbn [group0].
  exists scheme, (c :: host), (l1 :: l2 :: tld). split; [|split; [done|split]].
  - apply matched_text. rewrite <- !(assoc_L (++)). by do 2 f_equal.
  - constructor.
    + rewrite !(assoc_L (++)). apply elem_of_app. left.
      by rewrite <- !(assoc_L (++)).
    + eapply Forall_impl; [exact Hhost|]. intros x. apply one_of_cs.
  - constructor; [done|]. constructor; [done|].
    eapply Forall_impl; [exact Htld|]. intros x. apply one_of_cs.
Qed.

Lemma Forall_not_in (cs : list ascii) (c : ascii) (s : str) :
  c ∉ cs → Forall (λ x, x ∈ cs) s → c ∉ s.
Proof.
  intros Hc Hs Hin. rewrite Forall_forall in Hs. apply Hc. by apply Hs.
Qed.

Lemma not_in_list (c : ascii) (s : list ascii) :
  forallb (λ x, negb (bool_decide (x = c))) s = true → c ∉ s.
Proof. apply not_in_text. Qed.

(** X26.  Every origin [analyze_preconnect] finds in a text is a scheme
    and a host of two labels: it has one dot, so the host of
    [https://fonts.googleapis.com] is cut to [fonts.googleapis];
    splitting it at [/] and joining the first and third piece gives it
    back, so that indexing never fails; and [127.0.0.1] never occurs in
    it. *)
Theorem origin_is_scheme_and_two_labels (content : str) :
  Forall (λ pm, Analyze.scheme_and_host (group0 pm.2) = inr (group0 pm.2)
                ∧ count_char "."%char (group0 pm.2) = 1
                ∧ contains (txt "127.0.0.1") (group0 pm.2) = false)
    (finditer false Analyze.origin_pattern content).
Proof.
  eapply Forall_impl; [apply finditer_from_matches|].
  intros [pos m] [s' H]. simpl in *.
  apply origin_match_inv in H
    as (scheme & host & tld & -> & Hscheme & Hhost & Htld).
  assert ("/"%char ∉ host ++ txt "." ++ tld) as Hslash.
  { rewrite !elem_of_app. intros [H|[H|H]].
    - revert H. eapply Forall_not_in; [|exact Hhost].
      apply not_in_list. by vm_compute.
    - revert H. apply not_in_list. by vm_compute.
    - revert H. eapply Forall_not_in; [|exact Htld].
      apply not_in_list. by vm_compute. }
  assert (count_char "."%char host = 0) as Hd1.
  { apply count_char_none. eapply Forall_not_in; [|exact Hhost].
    apply not_in_list. by vm_compute. }
  assert (count_char "."%char tld = 0) as Hd2.
  { apply count_char_none. eapply Forall_not_in; [|exact Htld].
    apply not_in_list. by vm_compute. }
  assert (count_char "."%char (scheme ++ txt "://" ++ host ++ txt "." ++ tld) = 1)
    as Hdots.
  { rewrite !count_char_app, Hd1, Hd2.
    by destruct Hscheme as [-> | ->]. }
  split; [|split; [exact Hdots|]].
  - unfold Analyze.scheme_and_host.
    destruct Hscheme as [-> | ->]; simpl; rewrite split_whole by done;
      by rewrite ?decide_False.
  - apply not_true_is_false. intros Hc.
    apply (contains_count "."%char) in Hc. rewrite Hdots in Hc.
    vm_compute in Hc. lia.
Qed.

(* ===================================================================== *)
(** * Risk gating: the text that is written *)
(* ===================================================================== *)

(** With the flag off the rules give the text of the safe rules, with the
    flag on the text of all rules. *)
Lemma apply_rules_text suffix (content : str) :
  fst (apply_rules suffix false content) = safe_text suffix content
  ∧ fst (apply_rules suffix true content) = risky_text suffix content.
Proof.
  unfold apply_rules, risky_text, safe_text.
  destruct (decide (suffix = txt ".astro")) as [_|_].
  - destruct (add_fetchpriority_to_hero_images content) as [c1 ch1].
    cbn [fst].
    destruct (add_loading_lazy_to_images c1) as [c2 ch2]. cbn [fst].
    destruct (add_decoding_async_to_images c2) as [c3 ch3]. cbn [fst].
    split; [done|]. by destruct (add_defer_to_external_scripts c3).
  - destruct (bool_decide _); [|done].
    by destruct (add_font_display_swap content).
Qed.

(** The text a run of [optimize_file] that ends without an error leaves in
    the file: what the rules make of the text it read. *)
Lemma optimize_file_text f bd risky (w : world) (original : str) :
  read_text f w = inr original →
  tr_error (fst (optimize_file f bd risky w)) = None →
  files (snd (optimize_file f bd risky w)) !! f =
    Some (fst (apply_rules (lower (path_suffix f)) risky original)).
Proof.
  intros Hr.
  destruct (optimize_file_outcome f bd risky w)
    as [e Hr'|original' Hr' Ha|original' content ch e w1 Hr' Ha Hne Hch Hb
       |original' content ch b e w1 Hr' Ha Hne Hch Hb Hw
       |original' content ch b w1 Hr' Ha Hne Hch Hb Hw]; simpl; try done;
    rewrite Hr in Hr'; injection Hr' as <-; intros _; rewrite Ha; simpl.
  - by apply read_text_ok.
  - by rewrite lookup_insert_eq.
Qed.

(** C4.  For every file and world.  With [include_risky] off no change is
    the one of [add_defer_to_external_scripts], and with it on the changes
    are those made with it off, in the same order, followed only by changes
    of [add_defer_to_external_scripts].  The text tells the same: a run
    with the flag off that ends without an error leaves in the file the
    text of the safe rules, applied in their order, and no other; a run
    with the flag on leaves what [add_defer_to_external_scripts] makes of
    that text, for a page, and the same text for a style sheet.  And a file
    the safe rules leave as it is, is not touched with the flag off,
    whatever the risky rule would do to it: no backup, no write, no
    change. *)
Theorem risky_only_adds_changes f bd w :
  let off := fst (optimize_file f bd false w) in
  let on := fst (optimize_file f bd true w) in
  (defer_change ∉ tr_changes off)
  ∧ (∃ extra, tr_changes on = tr_changes off ++ extra
              ∧ Forall (λ c, c = defer_change) extra)
  ∧ (∀ original : str,
       read_text f w = inr original →
       let safe := safe_text (lower (path_suffix f)) original in
       (tr_error off = None →
          files (snd (optimize_file f bd false w)) !! f = Some safe)
       ∧ (tr_error on = None →
            files (snd (optimize_file f bd true w)) !! f =
              Some (if decide (lower (path_suffix f) = txt ".astro")
                    then fst (add_defer_to_external_scripts safe)
                    else safe))
       ∧ (safe = original →
            optimize_file f bd false w = (TransformResult f [] None None, w))).
Proof.
  cbv zeta. split; [|split].
  - unfold optimize_file.
    destruct (read_text f w) as [e|original]; [apply not_elem_of_nil|].
    pose proof (safe_rules_not_defer (lower (path_suffix f)) original)
      as Hsafe.
    destruct (apply_rules _ false original) as [c0 ch0]. simpl in Hsafe.
    destruct (decide (c0 ≠ original)); [|apply not_elem_of_nil].
    destruct (backup_file f bd w) as [[e|b] w1]; [apply not_elem_of_nil|].
    destruct (write_text f c0 w1) as [[e|[]] w2]; [apply not_elem_of_nil|].
    simpl. intros Hin. rewrite Forall_forall in Hsafe.
    by apply (Hsafe _ Hin).
  - unfold optimize_file.
    destruct (read_text f w) as [e|original]; [by exists []|].
    pose proof (apply_rules_grows (lower (path_suffix f)) false original)
      as Hg0.
    destruct (apply_rules_risky (lower (path_suffix f)) original)
      as (extra & Hx & Hd & Hg).
    destruct (apply_rules _ false original) as [c0 ch0].
    destruct (apply_rules _ true original) as [c1 ch1].
    simpl in *. subst ch1.
    destruct (decide (c0 ≠ original)) as [Hne|Heq].
    + assert (c1 ≠ original) as Hne1.
      { intros ->. apply grows_length in Hg. simpl in Hg.
        destruct Hg0 as [[_ ?]|[_ Hl]]; simpl in *; [done|lia]. }
      destruct (decide (c1 ≠ original)); [|done].
      destruct (backup_file f bd w) as [[e|b] w1]; [by exists []|].
      unfold write_text.
      destruct (fault w1 (OpWrite f)); simpl; [by exists []|by exists extra].
    + apply dec_stable in Heq. subst c0.
      assert (ch0 = []) as ->.
      { destruct ch0 as [|x ch0]; [done|].
        destruct (grows_changed _ _ Hg0) as [_ H]. by destruct H. }
      simpl.
      destruct (decide (c1 ≠ original)); [|by exists []].
      destruct (backup_file f bd w) as [[e|b] w1]; [by exists []|].
      destruct (write_text f c1 w1) as [[e|[]] w2]; [by exists []|].
      by exists extra.
  - intros original Hr.
    destruct (apply_rules_text (lower (path_suffix f)) original) as [E0 E1].
    split; [|split].
    + intros He. rewrite (optimize_file_text _ _ _ _ _ Hr He). by rewrite E0.
    + intros He. rewrite (optimize_file_text _ _ _ _ _ Hr He). by rewrite E1.
    + intros Hs. unfold optimize_file. rewrite Hr.
      rewrite <- E0 in Hs.
      destruct (apply_rules _ false original) as [c0 ch0]. simpl in Hs.
      subst c0. destruct (decide (original ≠ original)); done.
Qed.

(** C4 at a page with one script from another site: with the flag off the
    page is left alone, with the flag on the tag is deferred. *)
Lemma risky_only_adds_changes_witness :
  let f := path_join (src_path site) index_astro in
  optimize_file f (backup_dir site) false script_world =
    (TransformResult f [] None None, script_world)
  ∧ files (snd (optimize_file f (backup_dir site) true script_world)) !! f =
      Some script_page_deferred
  ∧ tr_changes (fst (optimize_file f (backup_dir site) true script_world)) =
      [defer_change].
Proof.
  pose proof (risky_only_adds_changes
                (path_join (src_path site) index_astro) (backup_dir site)
                script_world) as (_ & _ & H).
  destruct (H script_page) as (_ & Hon & Hoff); [vm_compute; reflexivity|].
  split; [|split].
  - apply Hoff. vm_compute. reflexivity.
  - rewrite Hon; [|vm_compute; reflexivity]. vm_compute. reflexivity.
  - vm_compute. reflexivity.
Defined.

(* ===================================================================== *)
(** * A failing backup: the rest of the run *)
(* ===================================================================== *)

(** What [process_file] appends for a file. *)
Lemma process_file_appends project risky results (w : world) rel :
  let r := fst (optimize_file (path_join (src_path project) rel)
                  (backup_dir project) risky w) in
  let acc := process_file project risky (results, w) rel in
  pr_files_modified (fst acc) =
    pr_files_modified results ++
      match tr_changes r with
      | [] => []
      | _ :: _ => [ModifiedEntry (relative_to_project rel) (tr_changes r)
                     (tr_backup r)]
      end
  ∧ pr_errors (fst acc) =
      pr_errors results ++
        match tr_error r with
        | Some (c :: e) => [(relative_to_project rel, c :: e)]
        | _ => []
        end
  ∧ snd acc =
      snd (optimize_file (path_join (src_path project) rel)
             (backup_dir project) risky w).
Proof.
  cbv zeta. unfold process_file.
  destruct (optimize_file _ _ risky w) as [r w1]. simpl.
  destruct (tr_changes r), (tr_error r) as [[|c e]|]; simpl;
    by rewrite ?app_nil_r.
Qed.

(** Entries and errors are appended, never taken back. *)
Lemma foldl_process_file_keeps project risky rels acc :
  (∀ x, x ∈ pr_files_modified (fst acc) →
        x ∈ pr_files_modified
              (fst (foldl (process_file project risky) acc rels)))
  ∧ (∀ x, x ∈ pr_errors (fst acc) →
          x ∈ pr_errors (fst (foldl (process_file project risky) acc rels))).
Proof.
  revert acc. induction rels as [|rel rels IH]; intros [results w]; simpl;
    [by split|].
  destruct (process_file_appends project risky results w rel)
    as (Hm & He & _). cbv zeta in Hm, He.
  destruct (IH (process_file project risky (results, w) rel)) as [IH1 IH2].
  split; intros x Hx.
  - apply IH1. rewrite Hm. apply elem_of_app. by left.
  - apply IH2. rewrite He. apply elem_of_app. by left.
Qed.

(** [optimize_project] is one pass over the files of the three scans. *)
Lemma optimize_project_one_pass project risky astro css scss (w : world) :
  optimize_project project risky astro css scss w =
    foldl (process_file project risky)
      (ProjectResults project (backup_dir project) risky [] [] 0 [], w)
      (astro ++ css ++ scss).
Proof. unfold optimize_project. symmetry. apply foldl_app. Qed.

(** C7.  When the rules changed the text of a file and [backup_file] raises,
    [optimize_file] writes nothing to the file: it returns the error, no
    changes and no backup, and the file holds the text it held.  In
    [optimize_project] the file is listed as processed, not as modified, its
    error is recorded (when its text is not empty), and all files of the
    scan are processed.  And the run goes on: when the failure happens in a
    run of [optimize_project], after the files [before] and with the files
    [after] still to come, the error is in the errors of the run, and every
    file [g] behind the failed one is still put through [optimize_file], in
    the world the files between left, which began with the world the
    failure left (where the failed file holds its text): when that call
    changes [g], the file [g] holds the text the rules make of it, another
    text than before, and the run lists [g] in [files_modified] with these
    changes and this backup; when it fails, its error is in the errors of
    the run. *)
Theorem backup_failure_aborts_write project risky results w rel e w1 original :
  let f := path_join (src_path project) rel in
  read_text f w = inr original →
  fst (apply_rules (lower (path_suffix f)) risky original) ≠ original →
  backup_file f (backup_dir project) w = (inl e, w1) →
  optimize_file f (backup_dir project) risky w =
    (TransformResult f [] None (Some e), w1)
  ∧ files w1 !! f = Some original
  ∧ (let results' := fst (process_file project risky (results, w) rel) in
     pr_files_processed results' =
       pr_files_processed results ++ [relative_to_project rel]
     ∧ pr_files_modified results' = pr_files_modified results
     ∧ pr_errors results' =
         pr_errors results ++
           match e with
           | [] => []
           | _ :: _ => [(relative_to_project rel, e)]
           end)
  ∧ (∀ astro css scss,
       pr_files_processed
         (fst (optimize_project project risky astro css scss w)) =
       map relative_to_project (astro ++ css ++ scss))
  ∧ (∀ w0 astro css scss before after,
       astro ++ css ++ scss = before ++ rel :: after →
       foldl (process_file project risky)
         (ProjectResults project (backup_dir project) risky [] [] 0 [], w0)
         before = (results, w) →
       let final := optimize_project project risky astro css scss w0 in
       (e ≠ [] → (relative_to_project rel, e) ∈ pr_errors (fst final))
       ∧ ∀ mid g post,
           after = mid ++ g :: post →
           let st :=
             foldl (process_file project risky)
               (fst (process_file project risky (results, w) rel), w1) mid in
           let g_path := path_join (src_path project) g in
           let r :=
             optimize_file g_path (backup_dir project) risky (snd st) in
           (tr_changes (fst r) ≠ [] →
              ModifiedEntry (relative_to_project g) (tr_changes (fst r))
                (tr_backup (fst r)) ∈ pr_files_modified (fst final)
              ∧ ∃ old : str,
                  read_text g_path (snd st) = inr old
                  ∧ files (snd r) !! g_path =
                      Some (fst (apply_rules (lower (path_suffix g_path))
                                   risky old))
                  ∧ fst (apply_rules (lower (path_suffix g_path)) risky old)
                    ≠ old)
           ∧ (∀ c e', tr_error (fst r) = Some (c :: e') →
                (relative_to_project g, c :: e') ∈ pr_errors (fst final))).
Proof.
  intros f Hr Hne Hb.
  assert (optimize_file f (backup_dir project) risky w =
            (TransformResult f [] None (Some e), w1)) as Ho.
  { unfold optimize_file. rewrite Hr.
    destruct (apply_rules _ risky original) as [content ch].
    simpl in Hne. destruct (decide (content ≠ original)); [|done].
    by rewrite Hb. }
  destruct (process_file_appends project risky results w rel)
    as (Hm & He & Hw). cbv zeta in Hm, He, Hw. fold f in Hm, He, Hw.
  rewrite Ho in Hm, He, Hw.
  cbn [fst snd tr_changes tr_error] in Hm, He, Hw.
  rewrite app_nil_r in Hm.
  split; [exact Ho|]. split; [|split; [|split]].
  - rewrite (backup_file_failed _ _ _ _ _ Hb).
    + by apply read_text_ok.
    + intros E. symmetry in E. revert E.
      by eapply backup_path_fresh.
  - cbv zeta.
    split; [apply (process_file_processed project risky (results, w))|].
    split; [exact Hm|]. rewrite He. by destruct e.
  - intros. apply optimize_project_processes_all.
  - intros w0 astro css scss before after Hall Hbefore. cbv zeta.
    rewrite optimize_project_one_pass, Hall, foldl_app, Hbefore.
    cbn [foldl].
    assert (∀ l, foldl (process_file project risky)
                   (process_file project risky (results, w) rel) l =
                 foldl (process_file project risky)
                   (fst (process_file project risky (results, w) rel), w1) l)
      as Hp.
    { intros l. f_equal. rewrite <- Hw.
      by destruct (process_file project risky (results, w) rel). }
    split.
    + intros Hen.
      apply (foldl_process_file_keeps project risky after). rewrite He.
      apply elem_of_app. right. destruct e; [done|]. left.
    + intros mid g post ->. rewrite Hp, foldl_app. cbn [foldl].
      generalize (foldl (process_file project risky)
                    (fst (process_file project risky (results, w) rel), w1)
                    mid).
      intros [res ws]. cbn [snd].
      destruct (process_file_appends project risky res ws g)
        as (Hm' & He' & _). cbv zeta in Hm', He'.
      destruct (foldl_process_file_keeps project risky post
                  (process_file project risky (res, ws) g)) as [K1 K2].
      split.
      * intros Hch. split.
        -- apply K1. rewrite Hm'. apply elem_of_app. right.
           destruct (tr_changes _); [done|]. left.
        -- destruct (optimize_file_outcome
                       (path_join (src_path project) g)
                       (backup_dir project) risky ws)
             as [e0 Hr0|o0 Hr0 Ha0|o0 c0 ch0 e0 w2 Hr0 Ha0 Hne0 Hch0 Hb0
                |o0 c0 ch0 b0 e0 w2 Hr0 Ha0 Hne0 Hch0 Hb0 Hw0
                |o0 c0 ch0 b0 w2 Hr0 Ha0 Hne0 Hch0 Hb0 Hw0];
             simpl in Hch; try done.
           exists o0. rewrite Ha0. simpl. split; [done|].
           split; [by rewrite lookup_insert_eq|done].
      * intros c e' Herr. apply K2. rewrite He', Herr.
        apply elem_of_app. right. left.
Qed.

(** C7 at a run over two pages, where the copy of the first page to its
    backup fails: the first page holds its text when the run ends, with its
    error recorded, and the second page is rewritten and listed. *)
Lemma backup_failure_aborts_write_witness :
  let f := path_join (src_path site) index_astro in
  let g := path_join (src_path site) about_astro in
  let final :=
    optimize_project site false [index_astro; about_astro] [] []
      stale_backup_world in
  optimize_file f (backup_dir site) false stale_backup_world =
    (TransformResult f [] None (Some permission_denied),
     World (files stale_backup_world) noon 1 (fault stale_backup_world)
       no_torn)
  ∧ (relative_to_project index_astro, permission_denied)
      ∈ pr_errors (fst final)
  ∧ ModifiedEntry (relative_to_project about_astro)
      [lazy_change; decoding_change]
      (Some (txt "/site/.astro-optimizer-backups/about.astro.20240101_120000.bak"))
      ∈ pr_files_modified (fst final)
  ∧ files (snd final) !! f = Some img_tag
  ∧ files (snd final) !! g = Some img_tag_b_fixed.
Proof.
  pose proof (backup_failure_aborts_write site false
                (ProjectResults site (backup_dir site) false [] [] 0 [])
                stale_backup_world index_astro permission_denied
                (World (files stale_backup_world) noon 1
                   (fault stale_backup_world) no_torn) img_tag) as H.
  cbv zeta in H.
  destruct H as (H1 & _ & _ & _ & H5).
  - vm_compute. reflexivity.
  - vm_compute. discriminate.
  - vm_compute. reflexivity.
  - destruct (H5 stale_backup_world [index_astro; about_astro] [] [] []
                [about_astro] eq_refl eq_refl) as [He Hg].
    pose proof (Hg [] about_astro [] eq_refl) as Hg'.
    cbv zeta in Hg'. cbn [foldl snd] in Hg'. destruct Hg' as [Hmod _].
    cbv zeta. split; [exact H1|]. split; [|split; [|split]].
    + apply He. discriminate.
    + assert (tr_changes
                (fst (optimize_file (path_join (src_path site) about_astro)
                        (backup_dir site) false
                        (World (files stale_backup_world) noon 1
                           (fault stale_backup_world) no_torn))) =
              [lazy_change; decoding_change]) as Ec
        by (vm_compute; reflexivity).
      assert (tr_backup
                (fst (optimize_file (path_join (src_path site) about_astro)
                        (backup_dir site) false
                        (World (files stale_backup_world) noon 1
                           (fault stale_backup_world) no_torn))) =
              Some (txt "/site/.astro-optimizer-backups/about.astro.20240101_120000.bak"))
        as Eb by (vm_compute; reflexivity).
      rewrite Ec, Eb in Hmod.
      apply Hmod. discriminate.
    + vm_compute. reflexivity.
    + vm_compute. reflexivity.
Defined.

(* ===================================================================== *)
(** * One finding per rule and file: the whole report *)
(* ===================================================================== *)

(** [script_blocking] is reported for every tag, as [image_cls] is: two
    scripts without [defer] in one file give two findings for that file. *)
Lemma two_script_blocking_findings :
  ∃ fs, Analyze.analyze_scripts site [index_astro] two_script_world = inr fs
        ∧ findings_of (txt "script_blocking") (txt "src/pages/index.astro") fs
          = 2.
Proof. eexists. split; vm_compute; reflexivity. Qed.

Lemma once_nil rules : once_per_file rules [].
Proof. split; [done|]. intros. unfold findings_of. simpl. lia. Qed.

Lemma once_short rules fs :
  length fs ≤ 1 → Forall (λ f, Analyze.type f ∈ rules) fs →
  once_per_file rules fs.
Proof.
  intros Hl Hf. split; [done|]. intros ty file _.
  pose proof (findings_of_le_length ty file fs). lia.
Qed.

Lemma once_app rules1 rules2 fs1 fs2 :
  once_per_file rules1 fs1 → once_per_file rules2 fs2 →
  Forall (λ ty, ty ∉ rules2) rules1 →
  once_per_file (rules1 ++ rules2) (fs1 ++ fs2).
Proof.
  intros [T1 O1] [T2 O2] Hd. split.
  - apply Forall_app. split.
    + eapply Forall_impl; [exact T1|]. intros f H. apply elem_of_app.
      by left.
    + eapply Forall_impl; [exact T2|]. intros f H. apply elem_of_app.
      by right.
  - intros ty file Hty. rewrite findings_of_app.
    destruct (decide (ty ∈ rules1)) as [Hin|Hnin].
    + rewrite (findings_of_none ty file fs2).
      * specialize (O1 ty file Hty). lia.
      * eapply Forall_impl; [exact T2|]. intros f H. left. intros <-.
        rewrite Forall_forall in Hd. by apply (Hd _ Hin).
    + rewrite (findings_of_none ty file fs1).
      * specialize (O2 ty file Hty). lia.
      * eapply Forall_impl; [exact T1|]. intros f H. left. by intros <-.
Qed.

Ltac solve_rule :=
  apply (bool_decide_unpack _); vm_compute; exact I.

Ltac solve_rules := repeat (constructor; [solve_rule|]); try constructor.

(** A loop over the files of a scan that yields every file once: when the
    body finds, for a file, findings for that file only, and at most one
    for a rule that is not reported per tag, so does the loop. *)
Lemma for_files_once project body rels (w : world) fs rules :
  NoDup rels →
  (∀ rel content,
     Forall (λ f, Analyze.file f = path_join (txt "src") rel
                  ∧ Analyze.type f ∈ rules) (body rel content)) →
  (∀ rel content ty file, ty ∉ per_tag_rules →
     findings_of ty file (body rel content) ≤ 1) →
  Analyze.for_files project body rels w = inr fs →
  Forall (λ f, ∃ rel, rel ∈ rels
                      ∧ Analyze.file f = path_join (txt "src") rel) fs
  ∧ once_per_file rules fs.
Proof.
  intros Hnd Hshape Hone. revert fs.
  induction Hnd as [|rel rels Hnot Hnd IH]; intros fs; simpl.
  - intros [= <-]. split; [done|apply once_nil].
  - destruct (read_text _ w) as [e|content]; [done|]. simpl.
    destruct (Analyze.for_files project body rels w) as [e|fs']; [done|].
    simpl. intros [= <-]. destruct (IH _ eq_refl) as [IH1 [IH2 IH3]].
    split; [|split].
    + apply Forall_app. split.
      * eapply Forall_impl; [apply Hshape|]. intros f [E _].
        exists rel. split; [by left|done].
      * eapply Forall_impl; [exact IH1|]. intros f (r & Hr & E).
        exists r. split; [by right|done].
    + apply Forall_app. split; [|done].
      eapply Forall_impl; [apply Hshape|]. by intros f [_ ?].
    + intros ty file Hty. rewrite findings_of_app.
      destruct (decide (file = path_join (txt "src") rel)) as [->|Hf].
      * rewrite (findings_of_none ty _ fs').
        -- specialize (Hone rel content ty (path_join (txt "src") rel) Hty).
           lia.
        -- eapply Forall_impl; [exact IH1|]. intros f (r & Hr & E).
           right. rewrite E. intros Ej. apply path_join_inj in Ej.
           by subst r.
      * rewrite (findings_of_none ty file (body rel content)).
        -- specialize (IH3 ty file Hty). lia.
        -- eapply Forall_impl; [apply Hshape|]. intros f [E _]. right.
           by rewrite E.
Qed.

(** ** The seven analyzers *)

Lemma astro_findings_rules project rels (w : world) fs :
  Analyze.astro_findings project rels w = inr fs →
  Forall (λ f, Analyze.type f
                 ∈ [txt "image_cls"; txt "image_loading";
                    txt "image_priority"]) fs.
Proof.
  revert fs. induction rels as [|rel rels IH]; intros fs; simpl.
  - by intros [= <-].
  - destruct (read_text _ w) as [e|content]; [done|].
    destruct (Analyze.astro_findings project rels w) as [e|more]; [done|].
    intros [= <-]. apply Forall_app. split; [|by apply IH].
    unfold Analyze.astro_file_findings. rewrite !Forall_app.
    split; [|split].
    + eapply Forall_impl; [apply img_tag_findings_shape|].
      intros f [-> _]. left.
    + destruct (_ && _); [|done]. constructor; [|done]. right. left.
    + destruct (priority_findings_shape (path_join (txt "src") rel) content
                  Analyze.hero_patterns) as [->| ->]; [done|].
      constructor; [|done]. right. right. left.
Qed.

Lemma analyze_images_once p astro public_files (w : world) fs :
  NoDup astro → NoDup (default [] public_files) →
  Analyze.analyze_images p astro public_files w = inr fs →
  once_per_file
    ([txt "image_cls"; txt "image_loading"; txt "image_priority"]
     ++ [txt "image_format"]) fs.
Proof.
  intros Ha Hp. unfold Analyze.analyze_images.
  destruct (Analyze.astro_findings p astro w) as [e|fs1] eqn:E; [done|].
  intros [= <-].
  destruct (astro_findings_once _ _ _ _ Ha E) as [_ A2].
  destruct (public_findings_once _ Hp) as [P1 P2].
  apply once_app; [split|split|solve_rules].
  - by eapply astro_findings_rules.
  - intros ty file Hty. apply A2. intros ->. apply Hty. left.
  - eapply Forall_impl; [exact P1|]. intros f [-> _]. left.
  - intros ty file _. apply P2.
Qed.

Lemma analyze_fonts_once p css astro layouts (w : world) fs :
  NoDup astro → NoDup css →
  Analyze.analyze_fonts p css astro layouts w = inr fs →
  once_per_file
    ([txt "font_external"] ++ [txt "font_preload"] ++ [txt "font_display"])
    fs.
Proof.
  intros Ha Hc. unfold Analyze.analyze_fonts. intros H.
  apply bind_inr in H as (fonts & _ & H).
  apply bind_inr in H as (external & E1 & H).
  apply bind_inr in H as (pre & _ & H).
  apply bind_inr in H as (display & E2 & H).
  injection H as <-.
  apply once_app; [|apply once_app|solve_rules]; [| | |solve_rules].
  - eapply (for_files_once _ _ _ _ _ _ Ha); [| |exact E1].
    + intros rel content. unfold Analyze.google_fonts_findings.
      destruct (_ || _); [|done]. constructor; [|done]. split; [done|left].
    + intros rel content ty file _.
      etrans; [apply findings_of_le_length|].
      unfold Analyze.google_fonts_findings. destruct (_ || _); simpl; lia.
  - apply once_short; destruct (_ && _); simpl; try lia; try done.
    constructor; [left|done].
  - eapply (for_files_once _ _ _ _ _ _ Hc); [| |exact E2].
    + intros rel content. unfold Analyze.font_display_findings.
      destruct (_ && _); [|done]. constructor; [|done]. split; [done|left].
    + intros rel content ty file _.
      etrans; [apply findings_of_le_length|].
      unfold Analyze.font_display_findings. destruct (_ && _); simpl; lia.
Qed.

Lemma analyze_prefetch_once p configs (w : world) fs :
  Analyze.analyze_prefetch p configs w = inr fs →
  once_per_file [txt "prefetch_config"] fs.
Proof.
  unfold Analyze.analyze_prefetch. destruct configs as [|config _].
  - intros [= <-]. apply once_nil.
  - intros H. apply bind_inr in H as (content & _ & H). injection H as <-.
    apply once_short; destruct (negb _); simpl; try lia; try done.
    constructor; [left|done].
Qed.

Lemma analyze_preconnect_once set_order p astro layouts (w : world) fs :
  Analyze.analyze_preconnect set_order p astro layouts w = inr fs →
  once_per_file [txt "preconnect"] fs.
Proof.
  unfold Analyze.analyze_preconnect. intros H.
  apply bind_inr in H as (third & _ & H).
  apply bind_inr in H as (pre & _ & H). injection H as <-.
  apply once_short; destruct (decide _); simpl; try lia; try done.
  constructor; [left|done].
Qed.

Lemma tracking_findings_shape file content patterns :
  Analyze.tracking_findings file content patterns = []
  ∨ Analyze.tracking_findings file content patterns =
      [Analyze.script_tracking file].
Proof.
  induction patterns as [|t ts IH]; simpl; [by left|].
  destruct (_ && _ && _); [|done]. destruct (_ && _); [by right|done].
Qed.

Lemma analyze_scripts_once p astro (w : world) fs :
  NoDup astro →
  Analyze.analyze_scripts p astro w = inr fs →
  once_per_file [txt "script_blocking"; txt "script_tracking"] fs.
Proof.
  intros Ha H. unfold Analyze.analyze_scripts in H.
  eapply (for_files_once _ _ _ _ _ _ Ha); [| |exact H].
  - intros rel content. unfold Analyze.script_file_findings.
    apply Forall_app. split.
    + eapply Forall_impl; [apply script_tag_findings_shape|].
      intros f [-> ->]. split; [done|left].
    + destruct (tracking_findings_shape (path_join (txt "src") rel) content
                  Analyze.tracking_patterns) as [->| ->]; [done|].
      constructor; [|done]. split; [done|]. right. left.
  - intros rel content ty file Hty. unfold Analyze.script_file_findings.
    rewrite findings_of_app.
    rewrite (findings_of_none ty file (Analyze.script_tag_findings _ _)).
    + etrans; [apply findings_of_le_length|].
      destruct (tracking_findings_shape (path_join (txt "src") rel) content
                  Analyze.tracking_patterns) as [->| ->]; simpl; lia.
    + eapply Forall_impl; [apply script_tag_findings_shape|].
      intros f [E _]. left. rewrite E. intros <-. apply Hty. right. left.
Qed.

Lemma analyze_css_once p css (w : world) fs :
  Analyze.analyze_css p css w = inr fs →
  once_per_file [txt "css_content_visibility"] fs.
Proof.
  unfold Analyze.analyze_css. intros H.
  apply bind_inr in H as (has & _ & H). injection H as <-.
  apply once_short; destruct (negb _); simpl; try lia; try done.
  constructor; [left|done].
Qed.

Lemma analyze_astro_config_once p configs (w : world) fs :
  Analyze.analyze_astro_config p configs w = inr fs →
  once_per_file ([txt "config_image"] ++ [txt "config_compress"]) fs.
Proof.
  unfold Analyze.analyze_astro_config. destruct configs as [|config _].
  - intros [= <-]. apply once_nil.
  - intros H. apply bind_inr in H as (content & _ & H). injection H as <-.
    apply once_app; [| |solve_rules].
    + apply once_short; destruct (_ && _); simpl; try lia; try done.
      constructor; [left|done].
    + apply once_short; destruct (_ && _); simpl; try lia; try done.
      constructor; [left|done].
Qed.

(** What an analyzer adds to the report: its findings, or nothing when it
    raised. *)
Lemma once_or_nothing rules (res : error + list Analyze.Finding) :
  (∀ fs, res = inr fs → once_per_file rules fs) →
  once_per_file rules (match res with inr fs => fs | inl _ => [] end).
Proof. destruct res as [e|fs]; [intros _; apply once_nil|auto]. Qed.

(** C3 (amended).  The report of [detect_js_patterns.py] holds at most one
    finding for every pattern and file.  The report of [analyze.py], with
    the findings of all seven analyzers, holds at most one finding for
    every file and every rule other than [image_cls] and [script_blocking],
    for scans that yield every file once; these two rules are reported for
    every offending tag. *)
Theorem one_finding_per_rule_and_file :
  (∀ all k,
     js_findings_of k (DetectJs.findings (DetectJs.analyze_project all)) ≤ 1)
  ∧ (∀ set_order sc p w ty file,
       NoDup (Analyze.astro_files sc) →
       NoDup (Analyze.css_files sc ++ Analyze.scss_files sc) →
       NoDup (default [] (Analyze.public_files sc)) →
       ty ≠ txt "image_cls" →
       ty ≠ txt "script_blocking" →
       findings_of ty file
         (Analyze.findings
            (Analyze.analyze_project (Analyze.analyzers set_order sc) p w))
       ≤ 1).
Proof.
  split.
  - intros all k. apply NoDup_key_once.
    unfold DetectJs.analyze_project, DetectJs.deduplicate. simpl.
    apply dedup_loop; [constructor|].
    intros k'. simpl. split; intros H.
    + by apply not_elem_of_empty in H.
    + by apply not_elem_of_nil in H.
  - intros set_order sc p w ty file Ha Hc Hp Hcls Hblk.
    assert (ty ∉ per_tag_rules) as Hty.
    { intros H. apply elem_of_cons in H as [->|H]; [done|].
      apply list_elem_of_singleton in H. done. }
    unfold Analyze.analyze_project, Analyze.run_analyzers.
    rewrite foldl_analyzers. cbn [Analyze.findings app].
    unfold Analyze.analyzers. cbn [flat_map].
    match goal with
    | |- findings_of _ _ ?fs ≤ 1 =>
        assert (once_per_file
                  (([txt "image_cls"; txt "image_loading";
                     txt "image_priority"] ++ [txt "image_format"])
                   ++ ([txt "font_external"] ++ [txt "font_preload"]
                       ++ [txt "font_display"])
                   ++ [txt "prefetch_config"]
                   ++ [txt "preconnect"]
                   ++ [txt "script_blocking"; txt "script_tracking"]
                   ++ [txt "css_content_visibility"]
                   ++ ([txt "config_image"] ++ [txt "config_compress"])
                   ++ []) fs) as [_ H]; [|by apply H]
    end.
    repeat (apply once_app;
            [apply once_or_nothing; intros fs Hfs| |solve_rules]);
      [..|apply once_nil].
    + exact (analyze_images_once _ _ _ _ _ Ha Hp Hfs).
    + exact (analyze_fonts_once _ _ _ _ _ _ Ha Hc Hfs).
    + by eapply analyze_prefetch_once.
    + by eapply analyze_preconnect_once.
    + exact (analyze_scripts_once _ _ _ _ Ha Hfs).
    + by eapply analyze_css_once.
    + by eapply analyze_astro_config_once.
Qed.

(** The amended C3 at the page with two images: in the whole report the
    rule [image_loading] has one finding for the page, next to the two of
    [image_cls]. *)
Lemma one_finding_per_rule_and_file_witness :
  let report :=
    Analyze.findings
      (Analyze.analyze_project (Analyze.analyzers elements one_page_scan)
         site two_img_world) in
  findings_of (txt "image_loading") (txt "src/pages/index.astro") report ≤ 1
  ∧ findings_of (txt "image_loading") (txt "src/pages/index.astro") report
    = 1
  ∧ findings_of (txt "image_cls") (txt "src/pages/index.astro") report = 2.
Proof.
  destruct one_finding_per_rule_and_file as [_ H].
  cbv zeta. split; [|split].
  - apply (H elements one_page_scan site two_img_world).
    + apply NoDup_singleton.
    + constructor.
    + constructor.
    + vm_compute. discriminate.
    + vm_compute. discriminate.
  - vm_compute. reflexivity.
  - vm_compute. reflexivity.
Defined.
